(** * UnblockForWindows: the worker thread of [main.py]

    A shallow embedding of [UnblockWorker.run] (main.py, lines 87-129), of
    the flag methods [pause], [resume] and [cancel] (lines 78-85) and of the
    guard of [UnblockApp.start_unblock] (lines 437-450).

    The worker is a thread: it reads the two flags [_pause] and [_cancel]
    that the GUI thread writes, asks the operating system about paths,
    starts one PowerShell process per file and emits Qt signals.  The
    embedding keeps the code's control flow and makes every interaction
    with the outside explicit:

    - what the worker does (signals emitted, processes started, sleeps) is
      appended, in order, to a trace of events;
    - what the worker observes (the value of a flag at a given read, the
      answers of [os.path] and [os.walk], the outcome of [subprocess.run])
      is given by an environment;
    - the only unbounded loop, [while self._pause: self.msleep(200)], is
      run with fuel: a run either returns or is still spinning in that
      loop when the fuel is spent;
    - the progress percentage is computed in binary64, as Python does,
      with the operations of [SpecFloat].

    The window of the application ([UnblockApp], lines 134-518) and the
    detection of the theme ([is_dark_mode] and [apply_theme], lines 36-45
    and 501-518) follow the worker, as functions on the state of the
    window and on the answers of the registry. *)

From Stdlib Require Import List String Ascii ZArith Lia Bool Arith PeanoNat.
From Stdlib Require Import Sorting.Sorted.
From Stdlib Require Import Floats.SpecFloat.
Import ListNotations.

Local Open Scope string_scope.
Local Open Scope list_scope.

(** * Part I: the program *)

(** ** The run-control flags (main.py, lines 72-85) *)

Module Flags.

Record t := mk { _pause : bool; _cancel : bool }.

(** [__init__]: both flags start cleared. *)
Definition init : t := mk false false.

Definition pause (w : t) : t := mk true (_cancel w).
Definition resume (w : t) : t := mk false (_cancel w).
Definition cancel (w : t) : t := mk (_pause w) true.

(** The calls the GUI thread can make on a running worker. *)
Inductive call := Pause | Resume | Cancel.

Definition apply (w : t) (c : call) : t :=
  match c with
  | Pause => pause w
  | Resume => resume w
  | Cancel => cancel w
  end.

Definition after (cs : list call) : t := fold_left apply cs init.

End Flags.

(** ** What the worker does: the trace *)

Inductive event :=
| Output (line : string)            (* output_signal.emit(line) *)
| Error (line : string)             (* error_signal.emit(line) *)
| Progress (percent : Z)            (* progress_signal.emit(percent) *)
| Finished                          (* finished_signal.emit() *)
| Invoke (args : list string)       (* subprocess.run(args, ...) is called *)
| Msleep (ms : Z).                  (* self.msleep(ms) *)

Definition trace := list event.

(** ** What the worker observes: the environment *)

(** The outcome of one [subprocess.run] call.  The call is made without
    [check=True]: a process that exits, with whatever code, makes the call
    return; the call raises when the process cannot be started. *)
Inductive outcome :=
| Exited (returncode : Z)
| Raised (e : string).              (* str(e) of the exception *)

(** [os.path.isfile], [os.path.isdir], [os.walk] and [os.path.join] on the
    file system as it is during the run.  [walk p] lists the triples
    [(root, dirnames, filenames)] that [os.walk(p)] yields, in order. *)
Record os := {
  isfile : string -> bool;
  isdir : string -> bool;
  walk : string -> list (string * list string * list string);
  join : string -> string -> string
}.

(** The values the worker reads from the flags.  The GUI thread writes the
    flags at any time, so each read has its own value: the [j]-th test of
    [_cancel] in the expansion loop (line 91), the [n]-th test of [_pause]
    while waiting before item [i] (line 109), the test of [_cancel] before
    item [i] (line 111).  Whatever the GUI does and whenever, the worker
    sees it only through these values; a property proved for every
    environment holds for every interleaving of the two threads.  The
    Selection is the list as the expansion loop finds it. *)
Record env := {
  fs : os;
  cancel_at_path : nat -> bool;
  pause_at : nat -> nat -> bool;
  cancel_at_item : nat -> bool;
  subprocess_run : nat -> list string -> outcome
}.

(** The environment in which the GUI makes the calls [before] before the
    worker reads a flag for the first time, the calls [between] after the
    Selection is expanded and before the first item, and none later. *)
Definition scripted (o : os) (before between : list Flags.call)
    (sp : nat -> list string -> outcome) : env :=
  {| fs := o;
     cancel_at_path := fun _ => Flags._cancel (Flags.after before);
     pause_at := fun _ _ => Flags._pause (Flags.after (before ++ between));
     cancel_at_item := fun _ => Flags._cancel (Flags.after (before ++ between));
     subprocess_run := sp |}.

(** ** The worker monad: a trace, and running out of fuel *)

Inductive result (A : Type) :=
| Ok (a : A) (tr : trace)
| Spinning (tr : trace).            (* fuel spent inside the pause loop *)
Arguments Ok {A} a tr.
Arguments Spinning {A} tr.

Definition trace_of {A} (r : result A) : trace :=
  match r with
  | Ok _ tr => tr
  | Spinning tr => tr
  end.

Definition worker (A : Type) := trace -> result A.

Definition ret {A} (a : A) : worker A := fun tr => Ok a tr.

Definition bind {A B} (m : worker A) (k : A -> worker B) : worker B :=
  fun tr =>
    match m tr with
    | Ok a tr' => k a tr'
    | Spinning tr' => Spinning tr'
    end.

Definition emit (e : event) : worker unit := fun tr => Ok tt (tr ++ [e]).

Definition spin {A} : worker A := fun tr => Spinning tr.

Declare Scope worker_scope.
Delimit Scope worker_scope with worker.
Notation "x <- m ;; k" := (bind m (fun x => k))
  (at level 61, m at next level, right associativity) : worker_scope.
Notation "m ;; k" := (bind m (fun _ => k))
  (at level 61, right associativity) : worker_scope.
Local Open Scope worker_scope.

(** ** Binary64 arithmetic of the progress percentage (line 125) *)

Module Float.

Definition prec : Z := 53.
Definition emax : Z := 1024.

(** [a / b] on two positive Python ints: the quotient correctly rounded
    to binary64, round to nearest, ties to even. *)
Definition truediv (a b : positive) : spec_float :=
  SFdiv prec emax (S754_finite false a 0) (S754_finite false b 0).

(** [float(n)] for a positive int that binary64 holds exactly. *)
Definition of_pos (n : positive) : spec_float :=
  binary_normalize prec emax (Zpos n) 0 false.

Definition mul (x y : spec_float) : spec_float := SFmul prec emax x y.

(** [int(x)]: truncation toward zero; Python raises on infinities and
    NaN. *)
Definition to_int (x : spec_float) : option Z :=
  match x with
  | S754_zero _ => Some 0%Z
  | S754_finite s m e =>
      let a := match e with
               | Zneg _ => Z.shiftr (Zpos m) (- e)
               | _ => Z.shiftl (Zpos m) e
               end in
      Some (if s then (- a)%Z else a)
  | S754_infinity _ | S754_nan => None
  end.

(** [int(a / b * 100)]. *)
Definition percent_pos (a b : positive) : option Z :=
  to_int (mul (truediv a b) (of_pos 100)).

End Float.

(** [int((i + 1) / total * 100)], for [total > 0]; [None] is the exception
    that [int] raises on a float that is not finite. *)
Definition percent_opt (i total : nat) : option Z :=
  Float.percent_pos (Pos.of_nat (i + 1)) (Pos.of_nat total).

(** The loop of [run] evaluates the expression with [i < total] only,
    where it raises nothing ([percent_defined] below). *)
Definition percent (i total : nat) : Z :=
  match percent_opt i total with
  | Some p => p
  | None => 0
  end.

(** ** The messages *)

Definition cancelled_msg : string := "❌ Operation cancelled.".
Definition no_files_msg : string := "No files to unblock.".
Definition completed_msg : string := "🎉 Completed all files!".
Definition processed_msg (file : string) : string :=
  ("✅ Processed: " ++ file)%string.
Definition error_msg (file e : string) : string :=
  ("❌ Error: " ++ file ++ " -> " ++ e)%string.

(** The command of line 118, and the argument list handed to
    [subprocess.run]. *)
Definition unblock_command (file : string) : string :=
  ("Unblock-File -LiteralPath '" ++ file ++ "'")%string.

Definition unblock_args (file : string) : list string :=
  ["powershell"; "-NoProfile"; "-Command"; unblock_command file].

(** ** [UnblockWorker.run] (main.py, lines 87-129) *)

Section Run.

Variable E : env.

(** Lines 98-100: the two nested loops over [os.walk(path)]. *)
Fixpoint append_names (root : string) (filenames files : list string)
    : list string :=
  match filenames with
  | [] => files
  | f :: rest => append_names root rest (files ++ [join (fs E) root f])
  end.

Fixpoint append_walk (triples : list (string * list string * list string))
    (files : list string) : list string :=
  match triples with
  | [] => files
  | (root, _, filenames) :: rest =>
      append_walk rest (append_names root filenames files)
  end.

(** Lines 90-100: the expansion loop; [j] counts the paths already seen
    and [files] is [files_to_unblock].  [None] is the [return] of line
    94. *)
Fixpoint expand (j : nat) (paths files : list string)
    : worker (option (list string)) :=
  match paths with
  | [] => ret (Some files)
  | path :: rest =>
      if cancel_at_path E j then
        emit (Output cancelled_msg) ;;
        emit Finished ;;
        ret None
      else if isfile (fs E) path then
        expand (S j) rest (files ++ [path])
      else if isdir (fs E) path then
        expand (S j) rest (append_walk (walk (fs E) path) files)
      else
        expand (S j) rest files
  end.

(** Lines 109-110: [while self._pause: self.msleep(200)] before item
    [i]; [n] counts the tests of the flag already made, and [fuel] bounds
    the tests of this one loop. *)
Fixpoint wait (fuel : nat) (i n : nat) : worker unit :=
  match fuel with
  | O => spin
  | S fuel' =>
      if pause_at E i n then
        emit (Msleep 200) ;;
        wait fuel' i (S n)
      else ret tt
  end.

(** Lines 108-129: the loop over [enumerate(files_to_unblock)], from
    index [i] on, and the two lines after it. *)
Fixpoint process (fuel : nat) (total i : nat) (files : list string)
    : worker unit :=
  match files with
  | [] =>
      emit (Output completed_msg) ;;
      emit Finished
  | file :: rest =>
      wait fuel i 0 ;;
      if cancel_at_item E i then
        emit (Output cancelled_msg) ;;
        emit Finished
      else
        emit (Invoke (unblock_args file)) ;;
        match subprocess_run E i (unblock_args file) with
        | Exited _ => emit (Output (processed_msg file))
        | Raised e => emit (Error (error_msg file e))
        end ;;
        emit (Progress (percent i total)) ;;
        process fuel total (S i) rest
  end.

Definition run_body (fuel : nat) (paths : list string) : worker unit :=
  expanded <- expand 0 paths [] ;;
  match expanded with
  | None => ret tt
  | Some files_to_unblock =>
      let total := List.length files_to_unblock in
      if Nat.eqb total 0 then
        emit (Output no_files_msg) ;;
        emit Finished
      else
        process fuel total 0 files_to_unblock
  end.

End Run.

(** A run of the thread, from an empty trace. *)
Definition run (E : env) (fuel : nat) (paths : list string) : result unit :=
  run_body E fuel paths [].

(** [UnblockApp.start_unblock] (lines 437-450): no worker is created for an
    empty Selection. *)
Definition start_unblock (E : env) (fuel : nat) (selected_paths : list string)
    : option (result unit) :=
  match selected_paths with
  | [] => None
  | _ :: _ => Some (run E fuel selected_paths)
  end.

(** ** A file system to run on

    The scenario of the specification: a file and a directory with two
    files; and two directories without files, one empty and one that holds
    an empty directory. *)
Module Scenario.

Definition a_txt : string := "C:\a.txt".
Definition dirX : string := "C:\dirX".
Definition emptyD : string := "C:\empty".

(** The path separator of Windows, the backslash. *)
Definition sep : string := String (ascii_of_nat 92) EmptyString.
Definition deepD : string := "C:\deep".

Definition os0 : os :=
  {| isfile := fun p => String.eqb p a_txt;
     isdir := fun p =>
       String.eqb p dirX || String.eqb p emptyD || String.eqb p deepD;
     walk := fun p =>
       if String.eqb p dirX then [(dirX, [], ["b.txt"; "c.txt"])]
       else if String.eqb p emptyD then [(emptyD, [], [])]
       else if String.eqb p deepD then
         [(deepD, ["sub"], []); ("C:\deep\sub", [], [])]
       else [];
     join := fun root f => (root ++ sep ++ f)%string |}.

Definition all_exit (code : Z) : nat -> list string -> outcome :=
  fun _ _ => Exited code.

(** The process of item [k] cannot be started; the others exit with 0. *)
Definition raise_at (k : nat) (e : string) : nat -> list string -> outcome :=
  fun i _ => if Nat.eqb i k then Raised e else Exited 0.

(** Nothing is paused or cancelled. *)
Definition calm : env := scripted os0 [] [] (all_exit 0).

(** The GUI cancels while the worker processes item [k - 1]. *)
Definition cancel_from (k : nat) : env :=
  {| fs := os0;
     cancel_at_path := fun _ => false;
     pause_at := fun _ _ => false;
     cancel_at_item := fun i => Nat.leb k i;
     subprocess_run := all_exit 0 |}.

(** The GUI pauses and then cancels while the worker processes item
    [k - 1], and never resumes. *)
Definition pause_and_cancel_from (k : nat) : env :=
  {| fs := os0;
     cancel_at_path := fun _ => false;
     pause_at := fun i _ => Nat.leb k i;
     cancel_at_item := fun i => Nat.leb k i;
     subprocess_run := all_exit 0 |}.

(** The GUI cancels while the worker looks at the path [j - 1] of the
    Selection. *)
Definition cancel_from_path (j : nat) : env :=
  {| fs := os0;
     cancel_at_path := fun j' => Nat.leb j j';
     pause_at := fun _ _ => false;
     cancel_at_item := fun _ => true;
     subprocess_run := all_exit 0 |}.

End Scenario.

(** * Part II: the vocabulary of the properties *)

(** ** Reading a trace *)

Fixpoint invocations (tr : trace) : list (list string) :=
  match tr with
  | [] => []
  | Invoke args :: rest => args :: invocations rest
  | _ :: rest => invocations rest
  end.

Fixpoint progress_values (tr : trace) : list Z :=
  match tr with
  | [] => []
  | Progress p :: rest => p :: progress_values rest
  | _ :: rest => progress_values rest
  end.

Definition is_sleep (e : event) : bool :=
  match e with Msleep _ => true | _ => false end.

(** The trace without the sleeps of the pause loop. *)
Definition quiet (tr : trace) : trace :=
  filter (fun e => negb (is_sleep e)) tr.

Definition sleeps (d : nat) : trace := repeat (Msleep 200) d.

(** ** What a run is expected to leave in the trace *)

(** Lines 95-100 for one path, as a list: a plain file as it is, every
    file that the walk of a directory finds, nothing for anything else. *)
Definition expand_path (o : os) (path : string) : list string :=
  if isfile o path then [path]
  else if isdir o path then
    flat_map (fun t : string * list string * list string =>
                let '(root, _, filenames) := t in map (join o root) filenames)
             (walk o path)
  else [].

(** The Work Item List of a Selection: the flat, ordered sequence. *)
Definition expansion (o : os) (paths : list string) : list string :=
  flat_map (expand_path o) paths.

(** A path that contributes no file: it is not a file, and if it is a
    directory its walk finds no file (an empty directory, or one that
    holds empty directories only). *)
Definition holds_no_file (o : os) (path : string) : Prop :=
  isfile o path = false /\
  (isdir o path = true ->
   forall root dirs filenames,
     In (root, dirs, filenames) (walk o path) -> filenames = []).

(** Lines 116-123: the status line of item [i]. *)
Definition status_event (E : env) (i : nat) (file : string) : event :=
  match subprocess_run E i (unblock_args file) with
  | Exited _ => Output (processed_msg file)
  | Raised e => Error (error_msg file e)
  end.

(** The external action failed: the process could not be started, or it
    exited with a code other than 0. *)
Definition failed (o : outcome) : Prop :=
  match o with
  | Exited 0 => False
  | Exited _ => True
  | Raised _ => True
  end.

(** The events of the items [i], [i+1], ... of a list of [total]. *)
Fixpoint items_events (E : env) (total i : nat) (files : list string)
    : trace :=
  match files with
  | [] => []
  | file :: rest =>
      Invoke (unblock_args file) :: status_event E i file
        :: Progress (percent i total) :: items_events E total (S i) rest
  end.

(** The four ways out of [run]. *)
Inductive exit :=
| CancelledExpanding                (* line 94 *)
| NoFiles                           (* line 106 *)
| CancelledAt (k : nat)             (* line 114, before item [k] *)
| Completed.                        (* line 129 *)

(** The status line emitted on the way out. *)
Definition exit_line (x : exit) : string :=
  match x with
  | CancelledExpanding | CancelledAt _ => cancelled_msg
  | NoFiles => no_files_msg
  | Completed => completed_msg
  end.

(** The events of the items processed before the way out. *)
Definition exit_items (E : env) (files : list string) (x : exit) : trace :=
  match x with
  | CancelledExpanding | NoFiles => []
  | CancelledAt k => items_events E (List.length files) 0 (firstn k files)
  | Completed => items_events E (List.length files) 0 files
  end.

(** ** Assumptions on the environment *)

(** [_cancel] is never seen set while the Selection is expanded. *)
Definition expands_uncancelled (E : env) (paths : list string) : Prop :=
  forall j, j < List.length paths -> cancel_at_path E j = false.

(** [_cancel] is seen set by one of the tests of the expansion loop. *)
Definition cancelled_expanding (E : env) (paths : list string) : Prop :=
  exists j, j < List.length paths /\ cancel_at_path E j = true.

(** [_cancel] is never seen set before one of the first [n] items. *)
Definition uncancelled_before (E : env) (n : nat) : Prop :=
  forall i, i < n -> cancel_at_item E i = false.

(** Every pause before one of the first [n] items ends. *)
Definition pauses_end_before (E : env) (n : nat) : Prop :=
  forall i, i < n -> exists d, pause_at E i d = false.

(** The first test that finds [_cancel] set is the one before item [k]
    (line 111) or, for the first item, one of those made while the
    Selection is expanded (line 91). *)
Definition cancel_seen_before_item (E : env) (paths : list string) (k : nat)
    : Prop :=
  (expands_uncancelled E paths /\ uncancelled_before E k /\
   cancel_at_item E k = true)
  \/ (k = 0 /\ cancelled_expanding E paths).

(** When each way out is taken. *)
Definition exit_when (E : env) (paths : list string) (x : exit) : Prop :=
  let files := expansion (fs E) paths in
  match x with
  | CancelledExpanding => cancelled_expanding E paths
  | NoFiles => expands_uncancelled E paths /\ files = []
  | CancelledAt k =>
      expands_uncancelled E paths /\ k < List.length files /\
      uncancelled_before E k /\ cancel_at_item E k = true
  | Completed =>
      expands_uncancelled E paths /\ files <> [] /\
      uncancelled_before E (List.length files)
  end.

(** The number of pauses a way out has to get through. *)
Definition pauses_on (E : env) (paths : list string) (x : exit) : nat :=
  match x with
  | CancelledExpanding | NoFiles => 0
  | CancelledAt k => S k
  | Completed => List.length (expansion (fs E) paths)
  end.

(** A run that has not returned waits in the pause loop before some item
    [k], after the first [k] items. *)
Definition waiting_at (E : env) (fuel : nat) (paths : list string)
    (k : nat) (tr : trace) : Prop :=
  let files := expansion (fs E) paths in
  expands_uncancelled E paths /\ k < List.length files /\
  uncancelled_before E k /\
  (forall d, d < fuel -> pause_at E k d = true) /\
  quiet tr = items_events E (List.length files) 0 (firstn k files).

(** ** Frame: a worker only appends to the trace *)

Definition prepend {A} (tr : trace) (r : result A) : result A :=
  match r with
  | Ok a t => Ok a (tr ++ t)
  | Spinning t => Spinning (tr ++ t)
  end.

Definition appends {A} (m : worker A) : Prop :=
  forall tr, m tr = prepend tr (m []).

(** ** Rounding, in integers *)

Local Open Scope Z_scope.

(** The fraction [N / D] rounded to the nearest integer, ties to even. *)
Definition rne (N D : Z) : Z :=
  let q := N / D in
  match 2 * (N mod D) ?= D with
  | Lt => q
  | Eq => if Z.even q then q else q + 1
  | Gt => q + 1
  end.

(** The percentage in the words of the specification:
    [round(completed_count / total_count * 100)], the nearest integer. *)
Definition rounded_percent (completed_count total_count : nat) : Z :=
  rne (Z.of_nat completed_count * 100) (Z.of_nat total_count).

(** The shift record and the location that [SpecFloat] uses for the
    fraction [N / D]. *)
Definition rec_of (N D : Z) : shr_record :=
  {| shr_m := N / D;
     shr_r := D <=? 2 * (N mod D);
     shr_s := negb (N mod D =? 0) && negb (2 * (N mod D) =? D) |}.

Definition loc_of (N D : Z) : location :=
  if N mod D =? 0 then loc_Exact else loc_Inexact (2 * (N mod D) ?= D).

(** The binary64 float of value [M * 2^c], for [0 <= M <= 2^53]. *)
Definition pack (M c : Z) : spec_float :=
  if M =? 0 then S754_zero false
  else if M =? 2 ^ 53 then S754_finite false (Z.to_pos (2 ^ 52)) (c + 1)
  else S754_finite false (Z.to_pos M) c.

(** [M] is the fraction [N / D] rounded to an integer multiple of
    [2^-k], where [-k] is the exponent binary64 gives to [N / D]. *)
Definition rounds (N D k M : Z) : Prop :=
  0 <= k <= 1074 /\
  N * 2 ^ k / D < 2 ^ 53 /\
  (k = 1074 \/ 2 ^ 52 <= N * 2 ^ k / D) /\
  M = rne (N * 2 ^ k) D.

Local Close Scope Z_scope.

(** ** PowerShell's single-quoted string literal

    Inside single quotes PowerShell takes every character as it is; a
    quote ends the literal unless it is doubled, and a doubled quote
    stands for one quote.  Only the ASCII quote is modelled (PowerShell
    reads the typographic single quotes the same way). *)

Definition quote : ascii := "'"%char.

Fixpoint has_quote (s : string) : bool :=
  match s with
  | EmptyString => false
  | String c rest => Ascii.eqb c quote || has_quote rest
  end.

(** Reads a literal from just after its opening quote: its content and
    what follows its closing quote. *)
Fixpoint single_quoted (s : string) : option (string * string) :=
  match s with
  | EmptyString => None
  | String c rest =>
      if Ascii.eqb c quote then
        match rest with
        | String c' rest' =>
            if Ascii.eqb c' quote then
              match single_quoted rest' with
              | Some (content, after) => Some (String quote content, after)
              | None => None
              end
            else Some (EmptyString, rest)
        | EmptyString => Some (EmptyString, EmptyString)
        end
      else
        match single_quoted rest with
        | Some (content, after) => Some (String c content, after)
        | None => None
        end
  end.

Fixpoint strip_prefix (p s : string) : option string :=
  match p with
  | EmptyString => Some s
  | String c p' =>
      match s with
      | String c' s' => if Ascii.eqb c c' then strip_prefix p' s' else None
      | EmptyString => None
      end
  end.

(** The argument of [-LiteralPath] as PowerShell reads it from a command,
    and the text left after it. *)
Definition literal_path (command : string) : option (string * string) :=
  match strip_prefix "Unblock-File -LiteralPath '" command with
  | Some s => single_quoted s
  | None => None
  end.

(** * Part II-b: the rest of the program

    The code of [main.py] around the worker: the window that starts it
    and receives its signals, and the detection of the theme. *)

(** ** The window: [UnblockApp] (main.py, lines 134-518)

    The state of the window is what its handlers read and write: the
    Selection, the items of the list widget, the three buttons of a
    session, the progress bar, the texts appended to the log, the worker
    object and the tray messages.  What a handler asks the outside ([isRunning()], the answer
    of a dialog, [tray.isVisible()]) is an argument of the handler. *)

Module Gui.

Record t := mk {
  selected_paths : list string;     (* self.selected_paths *)
  list_widget : list string;        (* the texts of the items of self.list_widget *)
  unblock_enabled : bool;           (* self.unblock_button.isEnabled() *)
  pause_enabled : bool;             (* self.pause_button.isEnabled() *)
  cancel_enabled : bool;            (* self.cancel_button.isEnabled() *)
  pause_text : string;              (* self.pause_button.text() *)
  progress : Z;                     (* self.progress.value() *)
  output : list string;             (* the texts appended to self.output since it was cleared *)
  worker : option Flags.t;          (* self.worker: None, or the flags of the object *)
  paused : bool;                    (* self.paused *)
  tray_messages : list (string * string)  (* title and text of each tray.showMessage *)
}.

Definition set_selected_paths (v : list string) (g : t) : t :=
  mk v (list_widget g) (unblock_enabled g) (pause_enabled g)
     (cancel_enabled g) (pause_text g) (progress g) (output g) (worker g)
     (paused g) (tray_messages g).

Definition set_list_widget (v : list string) (g : t) : t :=
  mk (selected_paths g) v (unblock_enabled g) (pause_enabled g)
     (cancel_enabled g) (pause_text g) (progress g) (output g) (worker g)
     (paused g) (tray_messages g).

Definition set_unblock_enabled (v : bool) (g : t) : t :=
  mk (selected_paths g) (list_widget g) v (pause_enabled g)
     (cancel_enabled g) (pause_text g) (progress g) (output g) (worker g)
     (paused g) (tray_messages g).

Definition set_pause_enabled (v : bool) (g : t) : t :=
  mk (selected_paths g) (list_widget g) (unblock_enabled g) v
     (cancel_enabled g) (pause_text g) (progress g) (output g) (worker g)
     (paused g) (tray_messages g).

Definition set_cancel_enabled (v : bool) (g : t) : t :=
  mk (selected_paths g) (list_widget g) (unblock_enabled g) (pause_enabled g)
     v (pause_text g) (progress g) (output g) (worker g)
     (paused g) (tray_messages g).

Definition set_pause_text (v : string) (g : t) : t :=
  mk (selected_paths g) (list_widget g) (unblock_enabled g) (pause_enabled g)
     (cancel_enabled g) v (progress g) (output g) (worker g)
     (paused g) (tray_messages g).

Definition set_progress (v : Z) (g : t) : t :=
  mk (selected_paths g) (list_widget g) (unblock_enabled g) (pause_enabled g)
     (cancel_enabled g) (pause_text g) v (output g) (worker g)
     (paused g) (tray_messages g).

Definition set_output (v : list string) (g : t) : t :=
  mk (selected_paths g) (list_widget g) (unblock_enabled g) (pause_enabled g)
     (cancel_enabled g) (pause_text g) (progress g) v (worker g)
     (paused g) (tray_messages g).

Definition set_worker (v : option Flags.t) (g : t) : t :=
  mk (selected_paths g) (list_widget g) (unblock_enabled g) (pause_enabled g)
     (cancel_enabled g) (pause_text g) (progress g) (output g) v
     (paused g) (tray_messages g).

Definition set_paused (v : bool) (g : t) : t :=
  mk (selected_paths g) (list_widget g) (unblock_enabled g) (pause_enabled g)
     (cancel_enabled g) (pause_text g) (progress g) (output g) (worker g)
     v (tray_messages g).

Definition set_tray_messages (v : list (string * string)) (g : t) : t :=
  mk (selected_paths g) (list_widget g) (unblock_enabled g) (pause_enabled g)
     (cancel_enabled g) (pause_text g) (progress g) (output g) (worker g)
     (paused g) v.

Definition APP_NAME : string := "Unblock for Windows".

(** [__init__] (lines 135-223): an empty Selection, the three buttons
    disabled, no worker.  A [QProgressBar] has the range 0..100 and starts
    with the value -1. *)
Definition init : t :=
  {| selected_paths := [];
     list_widget := [];
     unblock_enabled := false;
     pause_enabled := false;
     cancel_enabled := false;
     pause_text := "Pause";
     progress := (-1)%Z;
     output := [];
     worker := None;
     paused := false;
     tray_messages := [] |}.

(** [path in l] on a Python list of strings. *)
Definition mem (path : string) (l : list string) : bool :=
  existsb (String.eqb path) l.

(** [l.remove(path)], for a [path] that is in [l]: the first occurrence
    goes. *)
Fixpoint remove_first (path : string) (l : list string) : list string :=
  match l with
  | [] => []
  | x :: rest => if String.eqb x path then rest else x :: remove_first path rest
  end.

(** [bool(l)]. *)
Definition nonempty (l : list string) : bool :=
  match l with
  | [] => false
  | _ :: _ => true
  end.

(** [update_list] (lines 380-384): the widget is cleared and gets one
    item per path. *)
Definition update_list (g : t) : t :=
  fold_left (fun g' path => set_list_widget (list_widget g' ++ [path]) g')
            (selected_paths g) (set_list_widget [] g).

(** Lines 354-355 and 365-366: one turn of the loop that adds paths. *)
Definition add_path (g : t) (path : string) : t :=
  if negb (mem path (selected_paths g)) then
    set_selected_paths (selected_paths g ++ [path]) g
  else g.

(** [dropEvent] (lines 351-357); [urls] are the [url.toLocalFile()] of the
    dropped URLs, the empty string for a URL that is no local file. *)
Definition dropEvent (urls : list string) (g : t) : t :=
  let g := fold_left add_path urls g in
  let g := update_list g in
  set_unblock_enabled (nonempty (selected_paths g)) g.

(** [select_files] (lines 362-368); [files] is what the dialog returns. *)
Definition select_files (files : list string) (g : t) : t :=
  let g := fold_left add_path files g in
  let g := update_list g in
  set_unblock_enabled (nonempty (selected_paths g)) g.

(** [select_folders] (lines 370-375); [folder] is what the dialog returns,
    the empty string when it is dismissed. *)
Definition select_folders (folder : string) (g : t) : t :=
  let g :=
    if negb (String.eqb folder EmptyString) && negb (mem folder (selected_paths g))
    then set_selected_paths (selected_paths g ++ [folder]) g
    else g in
  let g := update_list g in
  set_unblock_enabled (nonempty (selected_paths g)) g.

(** [remove_item] (lines 398-403); [path] is [item.text()]. *)
Definition remove_item (path : string) (g : t) : t :=
  let g :=
    if mem path (selected_paths g)
    then set_selected_paths (remove_first path (selected_paths g)) g
    else g in
  let g := update_list g in
  set_unblock_enabled (nonempty (selected_paths g)) g.

(** [self.output.append(line)].  The log is kept as the texts that were
    handed to [append] since the last [clear()], in order; the document
    of the widget is a function of them.  What the widget shows of a text
    is left to Qt and is not modelled: [QTextEdit.append] inserts as HTML
    a text that [Qt::mightBeRichText] accepts (a status line for a file
    named [R&lt;D.txt] is shown with [<] in place of [&lt;]) and any
    other text as it is. *)
Definition append (line : string) (g : t) : t :=
  set_output (output g ++ [line]) g.

(** [self.progress.setValue(v)]: a value outside the range of the bar is
    ignored. *)
Definition setValue (v : Z) (g : t) : t :=
  if (0 <=? v)%Z && (v <=? 100)%Z then set_progress v g else g.

(** [self.tray.showMessage(title, text, ...)]. *)
Definition showMessage (title text : string) (g : t) : t :=
  set_tray_messages (tray_messages g ++ [(title, text)]) g.

(** [pause_resume] (lines 408-419); [running] is
    [self.worker.isRunning()]. *)
Definition pause_resume (running : bool) (g : t) : t :=
  match worker g with
  | Some w =>
      if running then
        if negb (paused g) then
          append "⏸ Paused..."
            (set_pause_text "Resume"
               (set_paused true (set_worker (Some (Flags.pause w)) g)))
        else
          append "▶ Resumed..."
            (set_pause_text "Pause"
               (set_paused false (set_worker (Some (Flags.resume w)) g)))
      else g
  | None => g
  end.

(** [cancel] (lines 421-432); [yes] tells whether the question is
    answered with Yes. *)
Definition cancel (running yes : bool) (g : t) : t :=
  match worker g with
  | Some w =>
      if running then
        if yes then
          set_cancel_enabled false
            (set_pause_enabled false
               (set_unblock_enabled true
                  (set_worker (Some (Flags.cancel w)) g)))
        else g
      else g
  | None => g
  end.

(** [start_unblock] (lines 437-450).  The new worker gets the list
    object [self.selected_paths] itself, and its signals are connected to
    the slots below. *)
Definition start_unblock (g : t) : t :=
  match selected_paths g with
  | [] => g
  | _ :: _ =>
      set_worker (Some Flags.init)
        (set_cancel_enabled true
           (set_pause_enabled true
              (set_unblock_enabled false
                 (set_output [] (setValue 0 g)))))
  end.

(** [finish_unblock] (lines 452-458). *)
Definition finish_unblock (g : t) : t :=
  showMessage "Unblock for Windows" "✅ Finished successfully"
    (set_pause_text "Pause"
       (set_paused false
          (set_cancel_enabled false
             (set_pause_enabled false
                (set_unblock_enabled true g))))).

(** The connections of lines 446-449: what the window does with an event
    of the worker.  Starting a process and sleeping reach no slot. *)
Definition deliver (g : t) (e : event) : t :=
  match e with
  | Progress v => setValue v g
  | Output line => append line g
  | Error line => append line g
  | Finished => finish_unblock g
  | Invoke _ => g
  | Msleep _ => g
  end.

(** [closeEvent] (lines 329-342). *)
Definition closeEvent (tray_visible running : bool) (g : t) : t :=
  if tray_visible then
    showMessage APP_NAME
      "Application minimized to tray. Click the tray icon to restore." g
  else
    match worker g with
    | Some w => if running then set_worker (Some (Flags.cancel w)) g else g
    | None => g
    end.

(** [exit_app] (lines 493-496), up to [QApplication.quit()]. *)
Definition exit_app (running : bool) (g : t) : t :=
  match worker g with
  | Some w => if running then set_worker (Some (Flags.cancel w)) g else g
  | None => g
  end.

(** What can happen to the window.  A click reaches the handler of a
    button only while the button is enabled. *)
Inductive action :=
| DropUrls (urls : list string)
| SelectFiles (files : list string)
| SelectFolders (folder : string)
| Remove (path : string)
| ClickStart
| ClickPause (running : bool)
| ClickCancel (running yes : bool)
| Signal (e : event)
| Close (tray_visible running : bool)
| TrayExit (running : bool).

Definition step (g : t) (a : action) : t :=
  match a with
  | DropUrls urls => dropEvent urls g
  | SelectFiles files => select_files files g
  | SelectFolders folder => select_folders folder g
  | Remove path => remove_item path g
  | ClickStart => if unblock_enabled g then start_unblock g else g
  | ClickPause running =>
      if pause_enabled g then pause_resume running g else g
  | ClickCancel running yes =>
      if cancel_enabled g then cancel running yes g else g
  | Signal e => deliver g e
  | Close tray_visible running => closeEvent tray_visible running g
  | TrayExit running => exit_app running g
  end.

(** The window after a sequence of actions, from [g] and from its
    initial state. *)
Definition steps (acts : list action) (g : t) : t := fold_left step acts g.

Definition session (acts : list action) : t := steps acts init.

End Gui.

(** ** The theme: [is_dark_mode] and [apply_theme] (lines 36-45, 501-518) *)

Module Theme.

(** The exceptions that matter here, and the outcome of a Python call. *)
Inductive exception :=
| OSError (msg : string)
| UnboundLocalError (name : string)
| TypeError (msg : string).

Inductive py (A : Type) :=
| Return (a : A)
| Raise (e : exception).
Arguments Return {A} a.
Arguments Raise {A} e.

(** A value of the registry as [winreg] hands it over: an int for
    [REG_DWORD] and [REG_QWORD], something that is no number otherwise. *)
Inductive value :=
| Int (n : Z)
| NoInt.

(** [value == 0]. *)
Definition eq_0 (v : value) : bool :=
  match v with
  | Int n => (n =? 0)%Z
  | NoInt => false
  end.

(** The two calls into [winreg]; a handle is a number. *)
Record winreg := {
  OpenKey : string -> py Z;
  QueryValueEx : Z -> string -> py (value * Z)
}.

(** [except _: handler].  [_] is a local variable of [is_dark_mode] (line
    42 assigns it), so the clause reads the local: unbound, the read
    raises; bound, it holds the type of the registry value, an int, which
    is no exception class.  The handler is run in neither case. *)
Definition except_local {A} (underscore : option Z) (e : exception)
    (handler : py A) : py A :=
  match underscore with
  | None => Raise (UnboundLocalError "_")
  | Some _ =>
      Raise (TypeError
        "catching classes that do not inherit from BaseException is not allowed")
  end.

Definition sep : string := String (ascii_of_nat 92) EmptyString.

Definition personalize : string :=
  ("Software" ++ sep ++ "Microsoft" ++ sep ++ "Windows" ++ sep
   ++ "CurrentVersion" ++ sep ++ "Themes" ++ sep ++ "Personalize")%string.

(** [is_dark_mode] (lines 36-45).  An exception of the [try] body comes
    from one of the two calls, both made before [_] is assigned. *)
Definition is_dark_mode (W : winreg) : py bool :=
  match OpenKey W personalize with
  | Raise e => except_local None e (Return false)
  | Return registry =>
      match QueryValueEx W registry "AppsUseLightTheme" with
      | Raise e => except_local None e (Return false)
      | Return (v, _) => Return (eq_0 v)
      end
  end.

Inductive stylesheet := Dark | Light.

(** [apply_theme] (lines 501-518): the call of [is_dark_mode] is not
    guarded. *)
Definition apply_theme (W : winreg) : py stylesheet :=
  match is_dark_mode W with
  | Return dark => Return (if dark then Dark else Light)
  | Raise e => Raise e
  end.

End Theme.

(** ** Vocabulary of the further properties *)

(** The environment [E] with [_pause] never set. *)
Definition unpaused (E : env) : env :=
  {| fs := fs E;
     cancel_at_path := cancel_at_path E;
     pause_at := fun _ _ => false;
     cancel_at_item := cancel_at_item E;
     subprocess_run := subprocess_run E |}.

(** The status lines of a trace, in order. *)
Fixpoint lines (tr : trace) : list string :=
  match tr with
  | [] => []
  | Output line :: rest => line :: lines rest
  | Error line :: rest => line :: lines rest
  | _ :: rest => lines rest
  end.

(** The exact percentage of [completed] items among [total], rounded
    down. *)
Definition floor_percent (completed total : nat) : Z :=
  (100 * Z.of_nat completed / Z.of_nat total)%Z.

(** The window [g] with the Selection [s] shown in the list and the
    Start button enabled when [s] is not empty. *)
Definition with_selection (s : list string) (g : Gui.t) : Gui.t :=
  Gui.set_unblock_enabled (Gui.nonempty s)
    (Gui.set_list_widget s (Gui.set_selected_paths s g)).

(** Every sleep of a trace lasts 200 ms. *)
Definition sleeps_200 (tr : trace) : Prop :=
  Forall (fun e => is_sleep e = true -> e = Msleep 200) tr.

(** Two more environments on the file system of the scenario. *)

(** The GUI pauses the worker before every item for two tests of the
    flag, and never cancels. *)
Definition paused_twice : env :=
  {| fs := Scenario.os0;
     cancel_at_path := fun _ => false;
     pause_at := fun _ n => Nat.ltb n 2;
     cancel_at_item := fun _ => false;
     subprocess_run := Scenario.all_exit 0 |}.

(** The file [b.txt] of [dirX] is a file of its own right, so that it can
    be selected beside its directory. *)
Definition b_txt : string := (Scenario.dirX ++ Scenario.sep ++ "b.txt")%string.

Definition nested : env :=
  {| fs := {| isfile := fun p => String.eqb p b_txt;
              isdir := fun p => String.eqb p Scenario.dirX;
              walk := fun p =>
                if String.eqb p Scenario.dirX
                then [(Scenario.dirX, [], ["b.txt"])] else [];
              join := fun root f => (root ++ Scenario.sep ++ f)%string |};
     cancel_at_path := fun _ => false;
     pause_at := fun _ _ => false;
     cancel_at_item := fun _ => false;
     subprocess_run := Scenario.all_exit 0 |}.

(** * Part III: lemmas on the program *)

(** ** Frame *)

Lemma prepend_prepend {A} (t1 t2 : trace) (r : result A) :
  prepend t1 (prepend t2 r) = prepend (t1 ++ t2) r.
Proof. destruct r; simpl; rewrite app_assoc; reflexivity. Qed.

Lemma appends_ret {A} (a : A) : appends (ret a).
Proof. intro tr. unfold ret. simpl. rewrite app_nil_r. reflexivity. Qed.

Lemma appends_spin {A} : appends (@spin A).
Proof. intro tr. unfold spin. simpl. rewrite app_nil_r. reflexivity. Qed.

Lemma appends_emit e : appends (emit e).
Proof. intro tr. reflexivity. Qed.

Lemma appends_bind {A B} (m : worker A) (k : A -> worker B) :
  appends m -> (forall a, appends (k a)) -> appends (bind m k).
Proof.
  intros Hm Hk tr. unfold bind. rewrite (Hm tr).
  destruct (m []) as [a t | t]; simpl; [| reflexivity].
  rewrite (Hk a (tr ++ t)), (Hk a t), prepend_prepend. reflexivity.
Qed.

Create HintDb appends.
#[local] Hint Resolve appends_ret appends_spin appends_emit appends_bind
  : appends.

(** ** Reading a trace *)

Lemma invocations_app t1 t2 :
  invocations (t1 ++ t2) = invocations t1 ++ invocations t2.
Proof.
  induction t1 as [| e t1 IH]; simpl; [reflexivity |].
  destruct e; simpl; rewrite IH; reflexivity.
Qed.

Lemma progress_values_app t1 t2 :
  progress_values (t1 ++ t2) = progress_values t1 ++ progress_values t2.
Proof.
  induction t1 as [| e t1 IH]; simpl; [reflexivity |].
  destruct e; simpl; rewrite IH; reflexivity.
Qed.

Lemma invocations_quiet tr : invocations (quiet tr) = invocations tr.
Proof.
  induction tr as [| e tr IH]; simpl; [reflexivity |].
  destruct e; simpl; rewrite ?IH; reflexivity.
Qed.

Lemma progress_values_quiet tr :
  progress_values (quiet tr) = progress_values tr.
Proof.
  induction tr as [| e tr IH]; simpl; [reflexivity |].
  destruct e; simpl; rewrite ?IH; reflexivity.
Qed.

Lemma quiet_app t1 t2 : quiet (t1 ++ t2) = quiet t1 ++ quiet t2.
Proof. apply filter_app. Qed.

Lemma quiet_sleeps d : quiet (sleeps d) = [].
Proof. induction d; simpl; auto. Qed.

Lemma status_event_cases E i file :
  status_event E i file = Output (processed_msg file)
  \/ (exists e, status_event E i file = Error (error_msg file e)).
Proof.
  unfold status_event.
  destruct (subprocess_run E i (unblock_args file)) as [code | e].
  - left. reflexivity.
  - right. now exists e.
Qed.

Lemma invocations_items E total files : forall i,
  invocations (items_events E total i files) = map unblock_args files.
Proof.
  induction files as [| file rest IH]; intros i; simpl; [reflexivity |].
  destruct (status_event_cases E i file) as [-> | [e ->]]; simpl;
    rewrite IH; reflexivity.
Qed.

Lemma progress_values_items E total files : forall i,
  progress_values (items_events E total i files)
  = map (fun j => percent j total) (seq i (List.length files)).
Proof.
  induction files as [| file rest IH]; intros i; simpl; [reflexivity |].
  destruct (status_event_cases E i file) as [-> | [e ->]]; simpl;
    rewrite IH; reflexivity.
Qed.

Lemma finished_not_in_items E total files : forall i,
  ~ In Finished (items_events E total i files).
Proof.
  induction files as [| file rest IH]; intros i; simpl; [tauto |].
  intros [H | [H | [H | H]]]; try discriminate.
  - destruct (status_event_cases E i file) as [Hs | [e Hs]];
      rewrite Hs in H; discriminate.
  - exact (IH (S i) H).
Qed.

Lemma in_quiet e tr : is_sleep e = false -> In e tr -> In e (quiet tr).
Proof.
  intros Hs Hin. unfold quiet. apply filter_In. split; [exact Hin |].
  now rewrite Hs.
Qed.

(** ** The expansion loop *)

Section Expansion.

Variable E : env.

Lemma appends_expand paths : forall j files, appends (expand E j paths files).
Proof.
  induction paths as [| path rest IH]; intros j files; simpl.
  - auto with appends.
  - destruct (cancel_at_path E j); [auto 10 with appends |].
    destruct (isfile (fs E) path); [apply IH |].
    destruct (isdir (fs E) path); apply IH.
Qed.

Lemma append_names_app root filenames : forall files,
  append_names E root filenames files
  = files ++ map (join (fs E) root) filenames.
Proof.
  induction filenames as [| f rest IH]; intros files; simpl.
  - now rewrite app_nil_r.
  - rewrite IH, <- app_assoc. reflexivity.
Qed.

Lemma append_walk_app triples : forall files,
  append_walk E triples files
  = files ++ flat_map (fun t : string * list string * list string =>
                         let '(root, _, filenames) := t in
                         map (join (fs E) root) filenames) triples.
Proof.
  induction triples as [| [[root dirs] filenames] rest IH]; intros files; simpl.
  - now rewrite app_nil_r.
  - rewrite IH, append_names_app, <- app_assoc. reflexivity.
Qed.

(** One turn of the loop of line 90 that does not return adds
    [expand_path] to [files_to_unblock]. *)
Lemma expand_cons j path rest files tr :
  cancel_at_path E j = false ->
  expand E j (path :: rest) files tr
  = expand E (S j) rest (files ++ expand_path (fs E) path) tr.
Proof.
  intros Hc. simpl. rewrite Hc. unfold expand_path.
  destruct (isfile (fs E) path); [reflexivity |].
  destruct (isdir (fs E) path).
  - now rewrite append_walk_app.
  - now rewrite app_nil_r.
Qed.

Lemma expand_uncancelled paths : forall j files tr,
  (forall d, d < List.length paths -> cancel_at_path E (j + d) = false) ->
  expand E j paths files tr
  = Ok (Some (files ++ expansion (fs E) paths)) tr.
Proof.
  induction paths as [| path rest IH]; intros j files tr H.
  - simpl. now rewrite app_nil_r.
  - rewrite expand_cons.
    + rewrite IH.
      * simpl. now rewrite <- app_assoc.
      * intros d Hd. replace (S j + d) with (j + S d) by lia.
        apply H. simpl. lia.
    + specialize (H 0). rewrite Nat.add_0_r in H. apply H. simpl. lia.
Qed.

Lemma expand_cancelled paths : forall j files tr d,
  d < List.length paths -> cancel_at_path E (j + d) = true ->
  expand E j paths files tr
  = Ok None (tr ++ [Output cancelled_msg; Finished]).
Proof.
  induction paths as [| path rest IH]; intros j files tr d Hd Hc.
  - simpl in Hd. lia.
  - destruct (cancel_at_path E j) eqn:Hj.
    + simpl. rewrite Hj. unfold bind, emit, ret. simpl.
      now rewrite <- app_assoc.
    + rewrite expand_cons by assumption.
      destruct d as [| d]; [rewrite Nat.add_0_r in Hc; congruence |].
      apply (IH (S j) _ tr d); [simpl in Hd; lia |].
      now replace (S j + d) with (j + S d) by lia.
Qed.

(** Either no test of the expansion loop finds the flag set, or one
    does. *)
Lemma cancelled_expanding_dec paths :
  expands_uncancelled E paths \/ cancelled_expanding E paths.
Proof.
  unfold expands_uncancelled, cancelled_expanding.
  induction (List.length paths) as [| n IH].
  - left. intros j Hj. lia.
  - destruct IH as [IH | [j [Hj Hc]]].
    + destruct (cancel_at_path E n) eqn:Hn.
      * right. exists n. split; [lia | exact Hn].
      * left. intros j Hj. destruct (Nat.eq_dec j n) as [-> | Hne];
          [exact Hn | apply IH; lia].
    + right. exists j. split; [lia | exact Hc].
Qed.

(** The two outcomes of the expansion loop. *)
Lemma expand_cases paths tr :
  (expands_uncancelled E paths /\
   expand E 0 paths [] tr = Ok (Some (expansion (fs E) paths)) tr)
  \/ (cancelled_expanding E paths /\
      expand E 0 paths [] tr = Ok None (tr ++ [Output cancelled_msg; Finished])).
Proof.
  destruct (cancelled_expanding_dec paths) as [H | H].
  - left. split; [exact H |].
    now rewrite expand_uncancelled by (intros; now apply H).
  - right. split; [exact H |]. destruct H as [j [Hlt Hj]].
    now apply (expand_cancelled paths 0 [] tr j).
Qed.

End Expansion.

Lemma expansion_no_file o paths :
  Forall (holds_no_file o) paths -> expansion o paths = [].
Proof.
  induction 1 as [| path rest [Hf Hd] _ IH]; [reflexivity |].
  unfold expansion in *. simpl. rewrite IH, app_nil_r.
  unfold expand_path. rewrite Hf.
  destruct (isdir o path); [| reflexivity].
  specialize (Hd eq_refl).
  induction (walk o path) as [| [[root dirs] filenames] triples IHt];
    [reflexivity |].
  simpl. rewrite (Hd root dirs filenames) by (left; reflexivity).
  simpl. apply IHt. intros r d f Hin. apply (Hd r d f). now right.
Qed.

(** ** The pause loop *)

Section Waiting.

Variable E : env.

Lemma appends_wait fuel : forall i n, appends (wait E fuel i n).
Proof.
  induction fuel as [| fuel IH]; intros i n; simpl.
  - auto with appends.
  - destruct (pause_at E i n); auto with appends.
Qed.

(** The loop either leaves at the first test that finds [_pause]
    cleared, or is still in it when the fuel is spent. *)
Lemma wait_cases fuel : forall i n tr,
  (exists d, d < fuel /\ pause_at E i (n + d) = false /\
             (forall d', d' < d -> pause_at E i (n + d') = true) /\
             wait E fuel i n tr = Ok tt (tr ++ sleeps d))
  \/ ((forall d, d < fuel -> pause_at E i (n + d) = true) /\
      wait E fuel i n tr = Spinning (tr ++ sleeps fuel)).
Proof.
  induction fuel as [| fuel IH]; intros i n tr.
  - right. split; [intros d Hd; lia |]. simpl. unfold spin.
    now rewrite app_nil_r.
  - simpl. destruct (pause_at E i n) eqn:Hp.
    + unfold bind, emit.
      destruct (IH i (S n) (tr ++ [Msleep 200]))
        as [[d [Hd [Hf [Hb Hw]]]] | [Hb Hw]].
      * left. exists (S d). repeat split.
        -- lia.
        -- now replace (n + S d) with (S n + d) by lia.
        -- intros [| d'] Hd'; [now rewrite Nat.add_0_r |].
           replace (n + S d') with (S n + d') by lia. apply Hb. lia.
        -- rewrite Hw, <- app_assoc. reflexivity.
      * right. split.
        -- intros [| d] Hd; [now rewrite Nat.add_0_r |].
           replace (n + S d) with (S n + d) by lia. apply Hb. lia.
        -- rewrite Hw, <- app_assoc. reflexivity.
    + left. exists 0. rewrite Nat.add_0_r. repeat split.
      * lia.
      * exact Hp.
      * intros d' Hd'. lia.
      * unfold ret. simpl. now rewrite app_nil_r.
Qed.

(** While [_pause] stays set the loop never leaves, whatever the fuel. *)
Lemma wait_forever fuel i tr :
  (forall d, pause_at E i d = true) ->
  wait E fuel i 0 tr = Spinning (tr ++ sleeps fuel).
Proof.
  intros Hp.
  destruct (wait_cases fuel i 0 tr) as [[d [_ [Hf _]]] | [_ Hw]];
    [| exact Hw].
  rewrite Hp in Hf. discriminate.
Qed.

End Waiting.

(** ** The loop over the items *)

Section Processing.

Variable E : env.

Lemma appends_process fuel total files :
  forall i, appends (process E fuel total i files).
Proof.
  induction files as [| file rest IH]; intros i; simpl.
  - auto with appends.
  - apply appends_bind; [apply appends_wait |]. intros _.
    destruct (cancel_at_item E i); [auto with appends |].
    apply appends_bind; [auto with appends |]. intros _.
    apply appends_bind.
    + destruct (subprocess_run E i (unblock_args file)); auto with appends.
    + intros _. apply appends_bind; [auto with appends |]. intros _. apply IH.
Qed.

Lemma process_cons fuel total i file rest tr :
  process E fuel total i (file :: rest) tr
  = match wait E fuel i 0 tr with
    | Spinning t => Spinning t
    | Ok _ t =>
        if cancel_at_item E i then
          Ok tt (t ++ [Output cancelled_msg; Finished])
        else
          process E fuel total (S i) rest
            (t ++ [Invoke (unblock_args file); status_event E i file;
                   Progress (percent i total)])
    end.
Proof.
  simpl. unfold bind at 1. destruct (wait E fuel i 0 tr) as [[] t | t];
    [| reflexivity].
  destruct (cancel_at_item E i).
  - unfold bind, emit. now rewrite <- app_assoc.
  - unfold bind, emit, status_event.
    destruct (subprocess_run E i (unblock_args file));
      now rewrite <- !app_assoc.
Qed.

Lemma quiet_item i file total :
  quiet [Invoke (unblock_args file); status_event E i file;
         Progress (percent i total)]
  = [Invoke (unblock_args file); status_event E i file;
     Progress (percent i total)].
Proof.
  unfold quiet, status_event. simpl.
  now destruct (subprocess_run E i (unblock_args file)).
Qed.

(** Where the loop stands after [k] items: it has left by line 129
    ([k] is the number of items), left by line 114 (the flag was seen
    set before item [k]), or is waiting before item [k].  [body] is what
    it appended to the trace for the [k] items. *)
Lemma process_cases files : forall fuel total i tr,
  exists k body,
    k <= List.length files /\
    (forall d, d < k -> cancel_at_item E (i + d) = false) /\
    (forall d, d < k -> exists n, pause_at E (i + d) n = false) /\
    quiet body = items_events E total i (firstn k files) /\
    match process E fuel total i files tr with
    | Ok _ tr' =>
        (k = List.length files /\
         tr' = tr ++ body ++ [Output completed_msg; Finished])
        \/ (k < List.length files /\ cancel_at_item E (i + k) = true /\
            (exists n, pause_at E (i + k) n = false) /\
            tr' = tr ++ body ++ [Output cancelled_msg; Finished])
    | Spinning tr' =>
        k < List.length files /\
        (forall d, d < fuel -> pause_at E (i + k) d = true) /\
        tr' = tr ++ body
    end.
Proof.
  induction files as [| file rest IH]; intros fuel total i tr.
  - exists 0, []. split; [simpl; lia |]. split; [intros d Hd; lia |].
    split; [intros d Hd; lia |]. split; [reflexivity |].
    simpl. unfold bind, emit. left. split; [reflexivity |].
    now rewrite <- app_assoc.
  - rewrite process_cons.
    destruct (wait_cases E fuel i 0 tr) as [[d [_ [Hpd [_ Hw]]]] | [Hb Hw]];
      rewrite Hw.
    + simpl in Hpd.
      destruct (cancel_at_item E i) eqn:Hc.
      * exists 0, (sleeps d). split; [simpl; lia |].
        split; [intros d' Hd'; lia |]. split; [intros d' Hd'; lia |].
        split; [apply quiet_sleeps |].
        right. rewrite Nat.add_0_r. split; [simpl; lia |].
        split; [exact Hc |]. split; [now exists d |].
        now rewrite <- app_assoc.
      * destruct (IH fuel total (S i)
                    ((tr ++ sleeps d)
                       ++ [Invoke (unblock_args file); status_event E i file;
                           Progress (percent i total)]))
          as [k [body [Hk [Hnc [Hpe [Hq Hres]]]]]].
        exists (S k),
          (sleeps d ++ [Invoke (unblock_args file); status_event E i file;
                        Progress (percent i total)] ++ body).
        split; [simpl; lia |]. split.
        { intros [| d'] Hd'; [now rewrite Nat.add_0_r |].
          replace (i + S d') with (S i + d') by lia. apply Hnc. lia. }
        split.
        { intros [| d'] Hd'; [rewrite Nat.add_0_r; now exists d |].
          replace (i + S d') with (S i + d') by lia. apply Hpe. lia. }
        split.
        { rewrite !quiet_app, quiet_sleeps, quiet_item, Hq. reflexivity. }
        replace (i + S k) with (S i + k) by lia.
        destruct (process E fuel total (S i) rest _) as [[] tr' | tr'].
        -- destruct Hres as [[Hlen Htr] | [Hlt [Hck [Hpk Htr]]]].
           ++ left. split; [simpl; lia |]. rewrite Htr.
              now rewrite <- !app_assoc.
           ++ right. split; [simpl; lia |]. split; [exact Hck |].
              split; [exact Hpk |].
              rewrite Htr. now rewrite <- !app_assoc.
        -- destruct Hres as [Hlt [Hp Htr]]. split; [simpl; lia |].
           split; [exact Hp |]. rewrite Htr. now rewrite <- !app_assoc.
    + exists 0, (sleeps fuel). split; [simpl; lia |].
      split; [intros d' Hd'; lia |]. split; [intros d' Hd'; lia |].
      split; [apply quiet_sleeps |].
      rewrite Nat.add_0_r. split; [simpl; lia |]. split; [exact Hb |].
      reflexivity.
Qed.

End Processing.

(** ** The whole run *)

(** What a run leaves behind: a run that returned took one of the four
    ways out, got through the pauses on that way and ended its trace with
    that way's status line and the finished signal; a run that has not
    returned is waiting before an item. *)
Lemma run_cases (E : env) (fuel : nat) (paths : list string) :
  match run E fuel paths with
  | Ok _ tr =>
      exists x body,
        exit_when E paths x /\
        pauses_end_before E (pauses_on E paths x) /\
        tr = body ++ [Output (exit_line x); Finished] /\
        quiet body = exit_items E (expansion (fs E) paths) x
  | Spinning tr => exists k, waiting_at E fuel paths k tr
  end.
Proof.
  unfold run, run_body, bind.
  destruct (expand_cases E paths []) as [[Hu He] | [Hc He]]; rewrite He.
  - simpl app. destruct (expansion (fs E) paths) as [| file rest] eqn:Hfiles.
    + simpl. exists NoFiles, []. simpl. rewrite Hfiles.
      repeat split; try assumption. intros i Hi. lia.
    + cbn [List.length Nat.eqb].
      destruct (process_cases E (file :: rest) fuel (S (List.length rest)) 0 [])
        as [k [body [Hk [Hnc [Hpe [Hq Hres]]]]]].
      destruct (process E fuel (S (List.length rest)) 0 (file :: rest) [])
        as [[] tr | tr].
      * destruct Hres as [[Hlen Htr] | [Hlt [Hck [Hpk Htr]]]].
        -- exists Completed, body. simpl. rewrite Hfiles.
           split; [| split; [| split; [exact Htr |]]].
           ++ split; [exact Hu |]. split; [discriminate |].
              intros i Hi. apply (Hnc i). simpl in Hi. simpl in Hlen. lia.
           ++ intros i Hi. apply (Hpe i). simpl in Hi. simpl in Hlen. lia.
           ++ rewrite Hq, Hlen, firstn_all. reflexivity.
        -- exists (CancelledAt k), body. simpl.
           split; [| split; [| split; [exact Htr | exact Hq]]].
           ++ rewrite Hfiles. repeat split; assumption.
           ++ intros i Hi. destruct (Nat.eq_dec i k) as [-> | Hne];
                [exact Hpk | apply (Hpe i); lia].
      * destruct Hres as [Hlt [Hp Htr]]. exists k. unfold waiting_at.
        rewrite Hfiles. simpl in Htr. subst tr. repeat split; assumption.
  - exists CancelledExpanding, []. simpl. split; [exact Hc |].
    split; [intros i Hi; lia |]. split; reflexivity.
Qed.

(** The ways out exclude one another. *)
Lemma exit_when_unique E paths x y :
  exit_when E paths x -> exit_when E paths y -> x = y.
Proof.
  unfold exit_when, cancelled_expanding.
  destruct x as [| | k |], y as [| | k' |]; try reflexivity; intros Hx Hy;
    repeat match goal with
           | H : exists _, _ |- _ => destruct H
           | H : _ /\ _ |- _ => destruct H
           end;
    try match goal with
        | Hu : expands_uncancelled _ _, Hj : cancel_at_path _ ?j = true |- _ =>
            rewrite (Hu j) in Hj by assumption; discriminate
        end;
    try match goal with
        | H1 : ?f = [], H2 : ?f <> [] |- _ => contradiction
        | H1 : ?f = [], H2 : _ < List.length ?f |- _ =>
            rewrite H1 in H2; simpl in H2; lia
        end.
  - (* two boundaries *)
    destruct (Nat.lt_trichotomy k k') as [Hlt | [Heq | Hgt]].
    + match goal with
      | Hb : uncancelled_before _ k', Hc : cancel_at_item _ k = true |- _ =>
          rewrite (Hb k Hlt) in Hc; discriminate
      end.
    + now subst.
    + match goal with
      | Hb : uncancelled_before _ k, Hc : cancel_at_item _ k' = true |- _ =>
          rewrite (Hb k' Hgt) in Hc; discriminate
      end.
  - match goal with
    | Hb : uncancelled_before _ (List.length _),
      Hc : cancel_at_item _ k = true, Hlt : k < _ |- _ =>
        rewrite (Hb k Hlt) in Hc; discriminate
    end.
  - match goal with
    | Hb : uncancelled_before _ (List.length _),
      Hc : cancel_at_item _ k' = true, Hlt : k' < _ |- _ =>
        rewrite (Hb k' Hlt) in Hc; discriminate
    end.
Qed.

(** A run that returned, seen from the way out it had to take. *)
Lemma run_ok_exit E fuel paths tr x :
  run E fuel paths = Ok tt tr -> exit_when E paths x ->
  exists body,
    tr = body ++ [Output (exit_line x); Finished] /\
    quiet body = exit_items E (expansion (fs E) paths) x.
Proof.
  intros Hrun Hx. pose proof (run_cases E fuel paths) as H.
  rewrite Hrun in H. destruct H as [y [body [Hy [_ [Htr Hq]]]]].
  rewrite (exit_when_unique E paths x y Hx Hy). now exists body.
Qed.

(** Fuel enough for the pauses before the first [n] items. *)
Lemma pauses_bound E n :
  pauses_end_before E n ->
  exists fuel, forall i, i < n -> exists d, d < fuel /\ pause_at E i d = false.
Proof.
  induction n as [| n IH]; intros H.
  - exists 0. intros i Hi. lia.
  - destruct IH as [fuel Hfuel]; [intros i Hi; apply H; lia |].
    destruct (H n) as [d Hd]; [lia |].
    exists (Nat.max fuel (S d)). intros i Hi.
    destruct (Nat.eq_dec i n) as [-> | Hne].
    + exists d. split; [lia | exact Hd].
    + destruct (Hfuel i) as [d' [Hlt Hp]]; [lia |]. exists d'. split; [lia | exact Hp].
Qed.

(** A run whose pauses end returns. *)
Lemma run_returns E paths x :
  exit_when E paths x -> pauses_end_before E (pauses_on E paths x) ->
  exists fuel tr, run E fuel paths = Ok tt tr.
Proof.
  intros Hx Hp. destruct (pauses_bound E _ Hp) as [fuel Hfuel].
  exists fuel. pose proof (run_cases E fuel paths) as Hrun.
  destruct (run E fuel paths) as [[] tr | tr].
  - now exists tr.
  - exfalso. destruct Hrun as [k [Hu [Hlt [Hb [Hw _]]]]].
    assert (Hk : exists d, d < fuel /\ pause_at E k d = false).
    { apply Hfuel. destruct x as [| | k' |]; simpl in Hx |- *.
      - destruct Hx as [j [Hj Hc]]. rewrite (Hu j Hj) in Hc. discriminate.
      - destruct Hx as [_ Hnil]. rewrite Hnil in Hlt. simpl in Hlt. lia.
      - destruct Hx as [_ [_ [Hb' Hc]]].
        destruct (Nat.le_gt_cases k k') as [Hle | Hgt]; [lia |].
        rewrite (Hb k' Hgt) in Hc. discriminate.
      - exact Hlt. }
    destruct Hk as [d [Hd Hf]]. rewrite (Hw d Hd) in Hf. discriminate.
Qed.

(** A test of [_cancel] either never finds it set before the first [n]
    items, or finds it set for the first time before some item [k]. *)
Lemma first_cancel E n :
  uncancelled_before E n
  \/ exists k, k < n /\ uncancelled_before E k /\ cancel_at_item E k = true.
Proof.
  induction n as [| n IH].
  - left. intros i Hi. lia.
  - destruct IH as [IH | [k [Hk [Hb Hc]]]].
    + destruct (cancel_at_item E n) eqn:Hn.
      * right. exists n. split; [lia |]. now split.
      * left. intros i Hi. destruct (Nat.eq_dec i n) as [-> | Hne];
          [exact Hn | apply IH; lia].
    + right. exists k. split; [lia |]. now split.
Qed.

(** The environment always selects one way out. *)
Lemma exit_exists E paths :
  exists x, exit_when E paths x /\
            pauses_on E paths x <= List.length (expansion (fs E) paths).
Proof.
  destruct (cancelled_expanding_dec E paths) as [Hu | Hc].
  - destruct (first_cancel E (List.length (expansion (fs E) paths)))
      as [Hb | [k [Hk [Hb Hck]]]].
    + destruct (expansion (fs E) paths) as [| file rest] eqn:Hfiles.
      * exists NoFiles. unfold exit_when, pauses_on. rewrite Hfiles.
        split; [now split | simpl; lia].
      * exists Completed. unfold exit_when, pauses_on. rewrite Hfiles.
        split; [| lia]. split; [exact Hu |]. split; [discriminate | exact Hb].
    + exists (CancelledAt k). unfold exit_when, pauses_on.
      split; [| lia]. repeat split; assumption.
  - exists CancelledExpanding. unfold exit_when, pauses_on.
    split; [exact Hc | lia].
Qed.

Lemma pauses_end_before_le E n m :
  n <= m -> pauses_end_before E m -> pauses_end_before E n.
Proof. intros Hle H i Hi. apply H. lia. Qed.

(** The events of the items, item by item. *)
Lemma items_events_app E total l1 : forall i l2,
  items_events E total i (l1 ++ l2)
  = items_events E total i l1
      ++ items_events E total (i + List.length l1) l2.
Proof.
  induction l1 as [| f l1 IH]; intros i l2; simpl.
  - now rewrite Nat.add_0_r.
  - rewrite IH. now replace (S i + List.length l1) with (i + S (List.length l1)) by lia.
Qed.

(** Every run, returned or not, has processed the first [k] items, for
    some [k], and nothing else. *)
Lemma run_items E fuel paths :
  exists k tail,
    k <= List.length (expansion (fs E) paths) /\
    quiet (trace_of (run E fuel paths))
    = items_events E (List.length (expansion (fs E) paths)) 0
        (firstn k (expansion (fs E) paths)) ++ tail /\
    invocations tail = [] /\ progress_values tail = [].
Proof.
  pose proof (run_cases E fuel paths) as H.
  destruct (run E fuel paths) as [[] tr | tr]; simpl trace_of.
  - destruct H as [x [body [Hx [_ [-> Hq]]]]].
    rewrite quiet_app, Hq.
    destruct x as [| | k |]; simpl in Hx |- *.
    + exists 0, [Output cancelled_msg; Finished]. repeat split. lia.
    + exists 0, [Output no_files_msg; Finished]. repeat split. lia.
    + exists k, [Output cancelled_msg; Finished]. repeat split.
      destruct Hx as [_ [Hk _]]. lia.
    + exists (List.length (expansion (fs E) paths)),
        [Output completed_msg; Finished].
      rewrite firstn_all. repeat split. lia.
  - destruct H as [k [_ [Hk [_ [_ Hq]]]]].
    exists k, []. rewrite app_nil_r. repeat split; [lia | exact Hq].
Qed.

(** The status line tells the way out. *)
Lemma exit_line_completed x : exit_line x = completed_msg -> x = Completed.
Proof. destruct x; simpl; intros H; (reflexivity || discriminate). Qed.

Lemma exit_line_cancelled x :
  exit_line x = cancelled_msg ->
  x = CancelledExpanding \/ exists k, x = CancelledAt k.
Proof.
  destruct x as [| | k |]; simpl; intros H; try discriminate.
  - now left.
  - right. now exists k.
Qed.

Lemma two_last_inj {A} (l l' : list A) a b a' b' :
  l ++ [a; b] = l' ++ [a'; b'] -> l = l' /\ a = a' /\ b = b'.
Proof.
  intros H.
  change (l ++ [a; b]) with (l ++ [a] ++ [b]) in H.
  change (l' ++ [a'; b']) with (l' ++ [a'] ++ [b']) in H.
  rewrite !app_assoc in H.
  apply app_inj_tail in H. destruct H as [H ->].
  apply app_inj_tail in H. destruct H as [-> ->]. now repeat split.
Qed.

(** A run that returned with the completion notice went through every
    item. *)
Lemma run_completed E fuel paths tr body :
  run E fuel paths = Ok tt tr ->
  tr = body ++ [Output completed_msg; Finished] ->
  exit_when E paths Completed
  /\ quiet body
     = items_events E (List.length (expansion (fs E) paths)) 0
         (expansion (fs E) paths).
Proof.
  intros Hrun Htr. pose proof (run_cases E fuel paths) as H.
  rewrite Hrun in H. destruct H as [x [body' [Hx [_ [Htr' Hq]]]]].
  rewrite Htr in Htr'. apply two_last_inj in Htr'.
  destruct Htr' as [-> [Hline _]]. injection Hline as Hline.
  symmetry in Hline. apply exit_line_completed in Hline. subst x.
  now split.
Qed.

(** The run over a Selection that holds no file. *)
Lemma run_without_files E fuel paths :
  Forall (holds_no_file (fs E)) paths ->
  (expands_uncancelled E paths
   /\ run E fuel paths = Ok tt [Output no_files_msg; Finished])
  \/ (cancelled_expanding E paths
      /\ run E fuel paths = Ok tt [Output cancelled_msg; Finished]).
Proof.
  intros Hno. pose proof (expansion_no_file (fs E) paths Hno) as Hnil.
  unfold run, run_body, bind.
  destruct (expand_cases E paths []) as [[Hu He] | [Hc He]]; rewrite He.
  - left. rewrite Hnil. now split.
  - right. now split.
Qed.

(** * Part IV: the binary64 arithmetic of the percentage

    [SpecFloat] computes with mantissas, shift records and locations.
    The lemmas below read its division and multiplication on positive
    numbers as roundings of fractions of integers, which is enough to
    follow [int((i + 1) / total * 100)] for every [i] and [total]. *)

Module Binary64.

Local Open Scope Z_scope.

(** Binary digits *)
Lemma digits2_pos_bounds (p : positive) :
  2 ^ (Zpos (digits2_pos p) - 1) <= Zpos p < 2 ^ Zpos (digits2_pos p).
Proof.
  induction p as [p IH | p IH |]; simpl digits2_pos.
  - rewrite Pos2Z.inj_succ.
    replace (Z.succ (Zpos (digits2_pos p)) - 1) with (Z.succ (Zpos (digits2_pos p) - 1)) by lia.
    rewrite !Z.pow_succ_r by lia. lia.
  - rewrite Pos2Z.inj_succ.
    replace (Z.succ (Zpos (digits2_pos p)) - 1) with (Z.succ (Zpos (digits2_pos p) - 1)) by lia.
    rewrite !Z.pow_succ_r by lia. lia.
  - simpl. lia.
Qed.

Lemma Zdigits2_bounds (m : Z) :
  0 < m -> 2 ^ (Zdigits2 m - 1) <= m < 2 ^ Zdigits2 m.
Proof.
  destruct m as [| p | p]; try lia. intros _. apply digits2_pos_bounds.
Qed.

Lemma Zdigits2_nonneg m : 0 <= Zdigits2 m.
Proof. destruct m; simpl; lia. Qed.

Lemma Zdigits2_pos m : 0 < m -> 0 < Zdigits2 m.
Proof. destruct m; simpl; lia. Qed.

(** [m] has at most [d] digits iff it is below [2^d]. *)
Lemma Zdigits2_le m d : 0 <= m -> 0 <= d -> (Zdigits2 m <= d <-> m < 2 ^ d).
Proof.
  intros Hm Hd. destruct (Z.eq_dec m 0) as [-> | Hne].
  - simpl. split; intros _; [apply Z.pow_pos_nonneg; lia | lia].
  - assert (Hpos : 0 < m) by lia.
    pose proof (Zdigits2_bounds m Hpos) as [Hlo Hhi].
    pose proof (Zdigits2_pos m Hpos) as Hdp.
    split; intros H.
    + apply Z.lt_le_trans with (2 ^ Zdigits2 m); [exact Hhi |].
      apply Z.pow_le_mono_r; lia.
    + destruct (Z.le_gt_cases (Zdigits2 m) d) as [Hle | Hgt]; [exact Hle |].
      exfalso. assert (2 ^ d <= 2 ^ (Zdigits2 m - 1)) by (apply Z.pow_le_mono_r; lia).
      lia.
Qed.

Lemma Zdigits2_ge m d : 0 <= m -> 0 < d -> (d <= Zdigits2 m <-> 2 ^ (d - 1) <= m).
Proof.
  intros Hm Hd.
  pose proof (Zdigits2_le m (d - 1) Hm ltac:(lia)) as H. lia.
Qed.

Ltac bool_cases :=
  repeat match goal with
         | |- context [Z.leb ?a ?b] => destruct (Z.leb_spec a b)
         | |- context [Z.eqb ?a ?b] => destruct (Z.eqb_spec a b)
         | |- context [Z.compare ?a ?b] => destruct (Z.compare_spec a b)
         end.

Lemma shr_record_of_loc_rec N D :
  0 <= N -> 0 < D -> shr_record_of_loc (N / D) (loc_of N D) = rec_of N D.
Proof.
  intros HN HD. unfold loc_of, rec_of.
  pose proof (Z.mod_pos_bound N D HD) as Hr.
  bool_cases; simpl; try reflexivity; exfalso; lia.
Qed.

Lemma loc_of_shr_record_rec N D :
  0 < D -> loc_of_shr_record (rec_of N D) = loc_of N D.
Proof.
  intros HD. unfold loc_of, rec_of, loc_of_shr_record.
  pose proof (Z.mod_pos_bound N D HD) as Hr.
  bool_cases; simpl; try reflexivity; exfalso; lia.
Qed.

Lemma shr_1_nonneg m r s :
  0 <= m ->
  shr_1 {| shr_m := m; shr_r := r; shr_s := s |}
  = {| shr_m := m / 2; shr_r := Z.odd m; shr_s := r || s |}.
Proof.
  intros Hm. destruct m as [| [p | p |] |]; try lia; unfold shr_1;
    try reflexivity.
  - replace (Z.pos p~1 / 2) with (Z.pos p); [reflexivity |].
    apply Z.div_unique with 1; lia.
  - replace (Z.pos p~0 / 2) with (Z.pos p); [reflexivity |].
    apply Z.div_unique with 0; lia.
Qed.

Lemma shr_1_rec N D :
  0 <= N -> 0 < D -> shr_1 (rec_of N D) = rec_of N (2 * D).
Proof.
  intros HN HD. unfold rec_of at 1.
  rewrite shr_1_nonneg by (apply Z.div_pos; lia).
  unfold rec_of.
  pose proof (Z.mod_pos_bound N D HD) as Hr.
  assert (Hdiv : N / (2 * D) = N / D / 2).
  { rewrite (Z.mul_comm 2 D). symmetry. apply Z.div_div; lia. }
  assert (Hmod : N mod (2 * D) = N mod D + D * ((N / D) mod 2)).
  { rewrite (Z.mul_comm 2 D). apply Z.rem_mul_r; lia. }
  rewrite Hdiv, Hmod, Zodd_mod.
  pose proof (Z.mod_pos_bound (N / D) 2 ltac:(lia)) as Hb.
  assert (Hc : (N / D) mod 2 = 0 \/ (N / D) mod 2 = 1) by lia.
  destruct Hc as [Hc | Hc]; rewrite Hc;
    bool_cases; simpl; try reflexivity; exfalso; lia.
Qed.

Lemma pow2_xI p : 2 ^ Zpos p~1 = 2 * 2 ^ Zpos p * 2 ^ Zpos p.
Proof.
  rewrite (Pos2Z.inj_xI p). replace (2 * Zpos p + 1) with (1 + Zpos p + Zpos p) by lia.
  rewrite !Z.pow_add_r by lia. reflexivity.
Qed.

Lemma pow2_xO p : 2 ^ Zpos p~0 = 2 ^ Zpos p * 2 ^ Zpos p.
Proof.
  rewrite (Pos2Z.inj_xO p), <- (Z.add_diag (Zpos p)), Z.pow_add_r by lia. reflexivity.
Qed.

Lemma iter_pos_shr_1_rec p : forall N D,
  0 <= N -> 0 < D ->
  iter_pos shr_1 p (rec_of N D) = rec_of N (D * 2 ^ Zpos p).
Proof.
  induction p as [p IH | p IH |]; intros N D HN HD; cbn [iter_pos].
  - assert (Hp : 0 < 2 ^ Zpos p) by (apply Z.pow_pos_nonneg; lia).
    rewrite shr_1_rec, IH, IH by nia.
    f_equal. rewrite pow2_xI. ring.
  - assert (Hp : 0 < 2 ^ Zpos p) by (apply Z.pow_pos_nonneg; lia).
    rewrite IH, IH by nia.
    f_equal. rewrite pow2_xO. ring.
  - rewrite shr_1_rec by assumption. f_equal. rewrite Z.pow_1_r. ring.
Qed.

(** [shr] by a number of bits, when the record describes [N / D]. *)
Lemma shr_rec N D e n :
  0 <= N -> 0 < D ->
  shr (rec_of N D) e n = (rec_of N (D * 2 ^ Z.max 0 n), e + Z.max 0 n).
Proof.
  intros HN HD. destruct n as [| p | p]; cbn [shr Z.max Z.compare].
  - rewrite Z.mul_1_r, Z.add_0_r. reflexivity.
  - rewrite iter_pos_shr_1_rec by assumption. reflexivity.
  - rewrite Z.mul_1_r, Z.add_0_r. reflexivity.
Qed.

Lemma fexp_eq e : fexp 53 1024 e = Z.max (e - 53) (-1074).
Proof. reflexivity. Qed.

Lemma rne_bounds N D : 0 < D -> N / D <= rne N D <= N / D + 1.
Proof.
  intros HD. unfold rne.
  destruct (2 * (N mod D) ?= D); [destruct (Z.even (N / D)) | |]; lia.
Qed.

Lemma round_nearest_even_rec N D :
  0 < D ->
  round_nearest_even (shr_m (rec_of N D)) (loc_of_shr_record (rec_of N D))
  = rne N D.
Proof.
  intros HD. rewrite loc_of_shr_record_rec by assumption.
  unfold loc_of, rne, round_nearest_even. cbn [shr_m rec_of].
  pose proof (Z.mod_pos_bound N D HD) as Hr.
  destruct (Z.eqb_spec (N mod D) 0) as [H0 | H0].
  - rewrite H0. change (2 * 0) with 0.
    destruct (Z.compare_spec 0 D); (reflexivity || lia).
  - destruct (2 * (N mod D) ?= D); reflexivity.
Qed.

Lemma rec_of_exact M : {| shr_m := M; shr_r := false; shr_s := false |} = rec_of M 1.
Proof.
  unfold rec_of. rewrite Z.div_1_r, Z.mod_1_r. reflexivity.
Qed.

(** Rounding an integer that already fits: the second [shr_fexp] of
    [binary_round_aux]. *)
Lemma renormalize M c :
  0 <= M <= 2 ^ 53 -> -1074 <= c -> c + 1 <= 971 ->
  (let '(mrs, e) := shr_fexp 53 1024 M c loc_Exact in
   match shr_m mrs with
   | Z0 => S754_zero false
   | Zpos m => if e <=? 1024 - 53 then S754_finite false m e else S754_infinity false
   | Zneg _ => S754_nan
   end) = pack M c.
Proof.
  intros HM Hc Hc'. unfold shr_fexp. cbn [shr_record_of_loc].
  rewrite rec_of_exact, shr_rec, fexp_eq by lia.
  destruct (Z.eq_dec M 0) as [-> | HM0].
  { cbn. replace (Z.max 0 (Z.max (c - 53) (-1074) - c)) with 0 by lia.
    reflexivity. }
  destruct (Z.eq_dec M (2 ^ 53)) as [-> | HM53].
  { replace (Zdigits2 (2 ^ 53)) with 54 by reflexivity.
    replace (Z.max 0 (Z.max (54 + c - 53) (-1074) - c)) with 1 by lia.
    cbn [shr_m rec_of]. replace (2 ^ 53 / (1 * 2 ^ 1)) with (2 ^ 52) by reflexivity.
    unfold pack. replace (2 ^ 53 =? 0) with false by reflexivity.
    rewrite Z.eqb_refl.
    destruct (Z.leb_spec (c + 1) (1024 - 53)); [| lia].
    reflexivity. }
  assert (Hd : Zdigits2 M <= 53) by (apply Zdigits2_le; lia).
  pose proof (Zdigits2_nonneg M) as Hd0.
  replace (Z.max 0 (Z.max (Zdigits2 M + c - 53) (-1074) - c)) with 0 by lia.
  cbn [shr_m rec_of]. replace (1 * 2 ^ 0) with 1 by reflexivity.
  rewrite Z.div_1_r, Z.add_0_r. unfold pack.
  destruct (Z.eqb_spec M 0); [lia |]. destruct (Z.eqb_spec M (2 ^ 53)); [lia |].
  destruct M as [| m | m]; try lia.
  destruct (Z.leb_spec c (1024 - 53)); [| lia]. reflexivity.
Qed.

(** [binary_round_aux] on a mantissa and a location that describe the
    fraction [N / D]: the fraction is rounded at the exponent [c]. *)
Lemma binary_round_aux_spec N D ex :
  0 <= N -> 0 < D ->
  let c := fexp 53 1024 (Zdigits2 (N / D) + ex) in
  ex <= c -> c + 1 <= 971 ->
  N / (D * 2 ^ (c - ex)) < 2 ^ 53 /\
  (c = -1074 \/ 2 ^ 52 <= N / (D * 2 ^ (c - ex))) /\
  binary_round_aux 53 1024 false (N / D) ex (loc_of N D)
  = pack (rne N (D * 2 ^ (c - ex))) c.
Proof.
  intros HN HD c Hex Hc.
  assert (Hpow : 0 < 2 ^ (c - ex)) by (apply Z.pow_pos_nonneg; lia).
  assert (Hq0 : 0 <= N / D) by (apply Z.div_pos; lia).
  assert (Hq : N / (D * 2 ^ (c - ex)) < 2 ^ 53).
  { rewrite <- Z.div_div by lia.
    apply Z.div_lt_upper_bound; [lia |].
    rewrite <- Z.pow_add_r by lia.
    apply Zdigits2_le; [apply Z.div_pos; lia | lia |].
    subst c. rewrite fexp_eq in *. lia. }
  split; [exact Hq |]. split.
  { destruct (Z.eq_dec c (-1074)) as [Hce | Hce]; [left; exact Hce | right].
    assert (Hcd : c = Zdigits2 (N / D) + ex - 53)
      by (subst c; rewrite fexp_eq in *; lia).
    assert (Hq_pos : 0 < N / D).
    { destruct (Z.eq_dec (N / D) 0) as [Hz | Hz]; [| lia].
      rewrite Hz in Hcd. simpl in Hcd. lia. }
    pose proof (Zdigits2_bounds (N / D) Hq_pos) as [Hqlo _].
    rewrite <- Z.div_div by lia.
    apply Z.div_le_lower_bound; [lia |].
    rewrite <- Z.pow_add_r by lia.
    replace (c - ex + 52) with (Zdigits2 (N / D) - 1) by lia.
    exact Hqlo. }
  unfold binary_round_aux.
  unfold shr_fexp at 1. rewrite shr_record_of_loc_rec, shr_rec by assumption.
  fold c. replace (Z.max 0 (c - ex)) with (c - ex) by lia.
  replace (ex + (c - ex)) with c by lia.
  rewrite round_nearest_even_rec by nia.
  apply renormalize; try lia.
  - pose proof (rne_bounds N (D * 2 ^ (c - ex)) ltac:(nia)).
    assert (0 <= N / (D * 2 ^ (c - ex))) by (apply Z.div_pos; nia). lia.
  - subst c. rewrite fexp_eq. lia.
Qed.

Lemma rne_scale N D t : 0 < D -> 0 < t -> rne (N * t) (D * t) = rne N D.
Proof.
  intros HD Ht. unfold rne.
  rewrite Z.div_mul_cancel_r, Z.mul_mod_distr_r by lia.
  replace (2 * (N mod D * t) ?= D * t) with (2 * (N mod D) ?= D); [reflexivity |].
  destruct (Z.compare_spec (2 * (N mod D)) D);
    destruct (Z.compare_spec (2 * (N mod D * t)) (D * t));
    try reflexivity; exfalso; nia.
Qed.

Lemma new_location_loc_of N D :
  0 < D -> new_location D (N mod D) = loc_of N D.
Proof.
  intros HD. pose proof (Z.mod_pos_bound N D HD) as Hr.
  unfold new_location, new_location_even, new_location_odd, loc_of.
  destruct (Z.even D) eqn:Hev.
  - reflexivity.
  - destruct (Z.eqb_spec (N mod D) 0); [reflexivity |].
    assert (Hodd : Z.odd D = true) by (rewrite <- Z.negb_even, Hev; reflexivity).
    apply Z.odd_spec in Hodd. destruct Hodd as [h Hh].
    destruct (Z.compare_spec (2 * (N mod D) + 1) D);
      destruct (Z.compare_spec (2 * (N mod D)) D); try reflexivity; exfalso; lia.
Qed.

Lemma div_eucl_div_mod a b : Z.div_eucl a b = (a / b, a mod b).
Proof. unfold Z.div, Z.modulo. now destruct (Z.div_eucl a b). Qed.

Lemma pow2_pos e : 0 <= e -> 0 < 2 ^ e.
Proof. intros. apply Z.pow_pos_nonneg; lia. Qed.

Lemma truediv_spec (a b : positive) :
  Zpos a <= Zpos b ->
  exists k M, rounds (Zpos a) (Zpos b) k M /\ 52 <= k /\
              Float.truediv a b = pack M (- k).
Proof.
  intros Hab. unfold Float.truediv, Float.prec, Float.emax, SFdiv, SFdiv_core_binary.
  set (d1 := Zdigits2 (Zpos a)). set (d2 := Zdigits2 (Zpos b)).
  pose proof (Zdigits2_bounds (Zpos a) ltac:(lia)) as [Ha1 Ha2]. fold d1 in Ha1, Ha2.
  pose proof (Zdigits2_bounds (Zpos b) ltac:(lia)) as [Hb1 Hb2]. fold d2 in Hb1, Hb2.
  pose proof (Zdigits2_pos (Zpos a) ltac:(lia)) as Hd1. fold d1 in Hd1.
  pose proof (Zdigits2_pos (Zpos b) ltac:(lia)) as Hd2. fold d2 in Hd2.
  assert (Hd : d1 <= d2).
  { destruct (Z.le_gt_cases d1 d2) as [H | H]; [exact H |]. exfalso.
    assert (2 ^ d2 <= 2 ^ (d1 - 1)) by (apply Z.pow_le_mono_r; lia). lia. }
  rewrite fexp_eq.
  set (s := - Z.max (d1 + 0 - (d2 + 0) - 53) (-1074)).
  assert (Hs : 53 <= s <= 1074) by (unfold s; lia).
  replace (Z.min (Z.max (d1 + 0 - (d2 + 0) - 53) (-1074)) (0 - 0)) with (- s)
    by (unfold s; lia).
  replace (0 - 0 - - s) with s by lia.
  assert (Hshift : match s with
                   | 0 => Zpos a
                   | Zpos _ => Z.shiftl (Zpos a) s
                   | Zneg _ => 0
                   end = Zpos a * 2 ^ s).
  { destruct s; try lia. apply Z.shiftl_mul_pow2. lia. }
  rewrite Hshift, div_eucl_div_mod, new_location_loc_of by lia.
  cbn [xorb].
  set (N := Zpos a * 2 ^ s).
  pose proof (pow2_pos s ltac:(lia)) as Hps.
  assert (HN : 0 <= N) by (unfold N; nia).
  pose proof (binary_round_aux_spec N (Zpos b) (- s) HN ltac:(lia)) as Hspec.
  cbv zeta in Hspec. rewrite fexp_eq in Hspec.
  set (q := N / Zpos b) in *. set (dq := Zdigits2 q) in *.
  assert (Hq0 : 0 <= q) by (apply Z.div_pos; lia).
  assert (Hq_hi : q <= 2 ^ s).
  { apply Z.div_le_upper_bound; [lia |]. unfold N. nia. }
  assert (Hdq_hi : dq <= s + 1).
  { apply Zdigits2_le; try lia. rewrite Z.pow_add_r by lia. lia. }
  assert (Hdq_lo : s < 1074 -> 53 <= dq).
  { intros Hlt. apply Zdigits2_ge; try lia.
    apply Z.div_le_lower_bound; [lia |]. unfold N.
    assert (Hs_eq : s = 53 + d2 - d1) by (unfold s in *; lia).
    assert (2 ^ 52 * 2 ^ d2 <= 2 ^ (d1 - 1) * 2 ^ s).
    { rewrite <- !Z.pow_add_r by lia. apply Z.pow_le_mono_r; lia. }
    replace (2 ^ (53 - 1)) with (2 ^ 52) by reflexivity. nia. }
  set (c := Z.max (dq + - s - 53) (-1074)) in *.
  assert (Hc1 : - s <= c) by (unfold c; lia).
  assert (Hc2 : c <= -52) by (unfold c; lia).
  destruct (Hspec Hc1 ltac:(lia)) as [Hq1 [Hq2 Hres]]. clear Hspec.
  assert (Hpk : 0 < 2 ^ (- c)) by (apply pow2_pos; lia).
  assert (Hpt : 0 < 2 ^ (c - - s)) by (apply pow2_pos; lia).
  assert (HNk : N = Zpos a * 2 ^ (- c) * 2 ^ (c - - s)).
  { unfold N. rewrite <- Z.mul_assoc, <- Z.pow_add_r by lia. f_equal. f_equal. lia. }
  exists (- c), (rne (Zpos a * 2 ^ (- c)) (Zpos b)).
  rewrite Z.opp_involutive. split; [| split; [lia |]].
  - unfold rounds. rewrite HNk, Z.div_mul_cancel_r in Hq1, Hq2 by lia.
    split; [unfold c; lia |]. split; [exact Hq1 |]. split; [lia | reflexivity].
  - rewrite Hres. f_equal. rewrite HNk. apply rne_scale; lia.
Qed.

(** The floor of a fraction grows with the fraction. *)
Lemma div_le_cross N D N' D' :
  0 < D -> 0 < D' -> N * D' <= N' * D -> N / D <= N' / D'.
Proof.
  intros HD HD' H.
  pose proof (Z.div_mod N D ltac:(lia)) as E.
  pose proof (Z.div_mod N' D' ltac:(lia)) as E'.
  pose proof (Z.mod_pos_bound N D HD) as B.
  pose proof (Z.mod_pos_bound N' D' HD') as B'.
  destruct (Z.le_gt_cases (N / D) (N' / D')) as [Hle | Hgt]; [exact Hle |].
  exfalso.
  assert (N' / D' + 1 <= N / D) by lia.
  assert (D * (N' / D' + 1) <= D * (N / D)) by (apply Z.mul_le_mono_nonneg_l; lia).
  assert (D' * D * (N' / D' + 1) <= D' * N) by nia.
  assert (N' * D < D' * D * (N' / D' + 1)) by nia.
  lia.
Qed.

(** Rounding to nearest grows with the fraction. *)
Lemma rne_mono N D N' D' :
  0 < D -> 0 < D' -> N * D' <= N' * D -> rne N D <= rne N' D'.
Proof.
  intros HD HD' H.
  pose proof (div_le_cross N D N' D' HD HD' H) as Hq.
  pose proof (rne_bounds N D HD) as Hb.
  pose proof (rne_bounds N' D' HD') as Hb'.
  destruct (Z.eq_dec (N / D) (N' / D')) as [Heq | Hne]; [| lia].
  pose proof (Z.div_mod N D ltac:(lia)) as E.
  pose proof (Z.div_mod N' D' ltac:(lia)) as E'.
  pose proof (Z.mod_pos_bound N D HD) as B.
  pose proof (Z.mod_pos_bound N' D' HD') as B'.
  assert (Hr : (N mod D) * D' <= (N' mod D') * D).
  { rewrite Heq in E. nia. }
  unfold rne. rewrite <- Heq.
  destruct (Z.compare_spec (2 * (N mod D)) D) as [He | Hl | Hg];
    destruct (Z.compare_spec (2 * (N' mod D')) D') as [He' | Hl' | Hg'];
    try destruct (Z.even (N / D)); try lia; exfalso; nia.
Qed.

Lemma rne_exact t D : 0 < D -> rne (t * D) D = t.
Proof.
  intros HD. unfold rne. rewrite Z.div_mul, Z.mod_mul by lia.
  change (2 * 0) with 0. destruct (Z.compare_spec 0 D); (reflexivity || lia).
Qed.

Lemma rne_le N D t : 0 < D -> N <= t * D -> rne N D <= t.
Proof.
  intros HD H. rewrite <- (rne_exact t D HD). apply rne_mono; nia.
Qed.

Lemma rne_ge N D t : 0 < D -> t * D <= N -> t <= rne N D.
Proof.
  intros HD H. rewrite <- (rne_exact t D HD) at 1. apply rne_mono; nia.
Qed.

Lemma rne_nonneg N D : 0 < D -> 0 <= N -> 0 <= rne N D.
Proof. intros HD HN. apply rne_ge; lia. Qed.

(** What [rounds] says of the rounded mantissa. *)
Lemma rounds_range N D k M :
  0 <= N -> 0 < D -> rounds N D k M ->
  0 <= M <= 2 ^ 53 /\ (k = 1074 \/ 2 ^ 52 <= M).
Proof.
  intros HN HD [Hk [Hhi [Hlo ->]]].
  assert (Hp : 0 < 2 ^ k) by (apply pow2_pos; lia).
  pose proof (rne_bounds (N * 2 ^ k) D HD) as Hb.
  assert (0 <= N * 2 ^ k / D) by (apply Z.div_pos; nia).
  split; [lia |]. destruct Hlo as [Hlo | Hlo]; [left; exact Hlo | right; lia].
Qed.

(** Rounding grows with the fraction: binary64 rounding is monotone. *)
Lemma rounds_mono N D k M N' D' k' M' :
  0 <= N -> 0 < D -> 0 <= N' -> 0 < D' ->
  rounds N D k M -> rounds N' D' k' M' ->
  N * D' <= N' * D ->
  M * 2 ^ k' <= M' * 2 ^ k.
Proof.
  intros HN HD HN' HD' HR HR' Hle.
  pose proof (rounds_range N D k M HN HD HR) as [HM HMlo].
  pose proof (rounds_range N' D' k' M' HN' HD' HR') as [HM' HMlo'].
  destruct HR as [Hk [Hhi [Hlo HMeq]]]. destruct HR' as [Hk' [Hhi' [Hlo' HMeq']]].
  assert (Hp : 0 < 2 ^ k) by (apply pow2_pos; lia).
  assert (Hp' : 0 < 2 ^ k') by (apply pow2_pos; lia).
  destruct (Z.lt_trichotomy k k') as [Hlt | [Heq | Hgt]].
  - (* the smaller fraction at the larger exponent: impossible *)
    exfalso.
    destruct Hlo as [Hlo | Hlo]; [lia |].
    assert (H1 : 2 ^ 52 * D <= N * 2 ^ k).
    { pose proof (Z.mul_div_le (N * 2 ^ k) D HD). nia. }
    assert (H2 : N' * 2 ^ k' < 2 ^ 53 * D').
    { pose proof (Z.div_mod (N' * 2 ^ k') D' ltac:(lia)).
      pose proof (Z.mod_pos_bound (N' * 2 ^ k') D' HD'). nia. }
    assert (H3 : 2 * 2 ^ k <= 2 ^ k').
    { replace (2 * 2 ^ k) with (2 ^ (k + 1)) by (rewrite Z.pow_add_r by lia; lia).
      apply Z.pow_le_mono_r; lia. }
    replace (2 ^ 53) with (2 * 2 ^ 52) in H2 by reflexivity.
    assert (H4 : N * D' * 2 ^ k' <= N' * D * 2 ^ k') by nia.
    assert (H5 : 2 * (N * 2 ^ k) * D' <= N * D' * 2 ^ k') by nia.
    assert (H6 : 2 * (2 ^ 52 * D) * D' <= 2 * (N * 2 ^ k) * D') by nia.
    assert (H7 : N' * D * 2 ^ k' < 2 * 2 ^ 52 * D' * D) by nia.
    nia.
  - subst k'. apply Z.mul_le_mono_nonneg_r; [lia |].
    rewrite HMeq, HMeq'. apply rne_mono; try assumption. nia.
  - (* the smaller fraction at the smaller exponent *)
    destruct HMlo' as [HMlo' | HMlo']; [lia |].
    assert (H3 : 2 * 2 ^ k' <= 2 ^ k).
    { replace (2 * 2 ^ k') with (2 ^ (k' + 1)) by (rewrite Z.pow_add_r by lia; lia).
      apply Z.pow_le_mono_r; lia. }
    replace (2 ^ 53) with (2 * 2 ^ 52) in HM by reflexivity.
    nia.
Qed.

Lemma of_pos_100 : Float.of_pos 100 = S754_finite false 7036874417766400 (-46).
Proof. reflexivity. Qed.

Lemma loc_of_exact N : loc_of N 1 = loc_Exact.
Proof. unfold loc_of. rewrite Z.mod_1_r. reflexivity. Qed.

(** Times [100.0], for a float [m1 * 2^e1] that is [M * 2^-k] and at
    most one. *)
Lemma mul_100_finite (m1 : positive) (e1 M k : Z) :
  0 <= k <= 1074 -> 0 <= k + e1 -> M = Zpos m1 * 2 ^ (k + e1) -> M <= 2 ^ k ->
  exists k2 M2, rounds (100 * M) (2 ^ k) k2 M2 /\ 46 <= k2 /\
                Float.mul (S754_finite false m1 e1) (Float.of_pos 100) = pack M2 (- k2).
Proof.
  intros Hk Hke HM Hone.
  rewrite of_pos_100. unfold Float.mul, Float.prec, Float.emax, SFmul. cbn [xorb].
  rewrite Pos2Z.inj_mul.
  set (N := Zpos m1 * Zpos 7036874417766400).
  assert (HN : 0 <= N) by (unfold N; lia).
  replace (binary_round_aux 53 1024 false N (e1 + -46) loc_Exact)
    with (binary_round_aux 53 1024 false (N / 1) (e1 + -46) (loc_of N 1))
    by (rewrite Z.div_1_r, loc_of_exact; reflexivity).
  pose proof (binary_round_aux_spec N 1 (e1 + -46) HN ltac:(lia)) as Hspec.
  cbv zeta in Hspec. rewrite fexp_eq, Z.div_1_r in Hspec.
  assert (Hpk : 0 < 2 ^ k) by (apply pow2_pos; lia).
  assert (Hpke : 0 < 2 ^ (k + e1)) by (apply pow2_pos; lia).
  assert (He1 : e1 <= 0).
  { destruct (Z.le_gt_cases e1 0) as [H | H]; [exact H |]. exfalso.
    assert (2 ^ (k + 1) <= 2 ^ (k + e1)) by (apply Z.pow_le_mono_r; lia).
    rewrite Z.pow_add_r in H0 by lia. nia. }
  assert (Hpe : 0 < 2 ^ (- e1)) by (apply pow2_pos; lia).
  assert (Hm1 : Zpos m1 <= 2 ^ (- e1)).
  { assert (Hsplit : 2 ^ k = 2 ^ (- e1) * 2 ^ (k + e1)).
    { rewrite <- Z.pow_add_r by lia. f_equal. lia. }
    rewrite Hsplit, HM in Hone. nia. }
  assert (Hd_lo : 53 <= Zdigits2 N).
  { apply Zdigits2_ge; unfold N; lia. }
  assert (Hd_hi : Zdigits2 N <= 53 - e1).
  { apply Zdigits2_le; try lia.
    replace (53 - e1) with (53 + - e1) by lia. rewrite Z.pow_add_r by lia.
    unfold N. replace (2 ^ 53) with 9007199254740992 by reflexivity. nia. }
  set (c := Z.max (Zdigits2 N + (e1 + -46) - 53) (-1074)) in *.
  assert (Hc1 : e1 + -46 <= c) by (unfold c; lia).
  assert (Hc2 : c <= -46) by (unfold c; lia).
  assert (Hc3 : -1074 <= c) by (unfold c; lia).
  destruct (Hspec Hc1 ltac:(lia)) as [Hq1 [Hq2 Hres]]. clear Hspec.
  rewrite Z.mul_1_l in Hq1, Hq2, Hres.
  set (D1 := 2 ^ (c - (e1 + -46))) in *.
  assert (HD1 : 0 < D1) by (apply pow2_pos; lia).
  set (t := 2 ^ (- c) * 2 ^ (k + e1)).
  assert (Ht : 0 < t) by (unfold t; apply Z.mul_pos_pos; [apply pow2_pos |]; lia).
  assert (HNt : N * t = 100 * M * 2 ^ (- c) * 2 ^ 46).
  { unfold N, t. rewrite HM.
    replace (Zpos 7036874417766400) with (100 * 2 ^ 46) by reflexivity. ring. }
  assert (HDt : D1 * t = 2 ^ k * 2 ^ 46).
  { unfold D1, t. rewrite <- !Z.pow_add_r by lia. f_equal. lia. }
  assert (Hscale_div : N / D1 = 100 * M * 2 ^ (- c) / 2 ^ k).
  { rewrite <- (Z.div_mul_cancel_r N D1 t), HNt, HDt by lia.
    apply Z.div_mul_cancel_r; lia. }
  assert (Hscale_rne : rne N D1 = rne (100 * M * 2 ^ (- c)) (2 ^ k)).
  { rewrite <- (rne_scale N D1 t), HNt, HDt by lia.
    apply rne_scale; lia. }
  exists (- c), (rne (100 * M * 2 ^ (- c)) (2 ^ k)).
  rewrite Z.opp_involutive. split; [| split; [lia |]].
  - unfold rounds. rewrite Hscale_div in Hq1, Hq2.
    split; [lia |]. split; [exact Hq1 |]. split; [lia | reflexivity].
  - rewrite Z.div_1_r, Hres, Hscale_rne. reflexivity.
Qed.

(** [int] of a float below [2^53 * 2^-k]: the floor. *)
Lemma to_int_pack M k :
  0 <= M <= 2 ^ 53 -> 2 <= k -> Float.to_int (pack M (- k)) = Some (M / 2 ^ k).
Proof.
  intros HM Hk. unfold pack.
  destruct (Z.eqb_spec M 0) as [-> | HM0].
  { simpl. rewrite Z.div_0_l; [reflexivity |].
    apply Z.pow_nonzero; lia. }
  destruct (Z.eqb_spec M (2 ^ 53)) as [-> | HM53].
  - unfold Float.to_int. destruct (- k + 1) as [| p | p] eqn:He; try lia.
    assert (Hkp : k = Zpos p + 1) by lia. subst k.
    rewrite Z.shiftr_div_pow2 by lia. f_equal.
    change (- Zneg p) with (Zpos p). rewrite Z.pow_add_r by lia.
    change (Zpos (Z.to_pos (2 ^ 52))) with (2 ^ 52).
    change (2 ^ 53) with (2 ^ 52 * 2 ^ 1).
    rewrite Z.div_mul_cancel_r; [reflexivity | | lia].
    apply Z.pow_nonzero; lia.
  - unfold Float.to_int. destruct (- k) as [| p | p] eqn:He; try lia.
    assert (Hkp : k = Zpos p) by lia. subst k.
    rewrite Z.shiftr_div_pow2 by lia. rewrite Z2Pos.id by lia.
    reflexivity.
Qed.

(** The percentage as two roundings and a floor. *)
Lemma percent_pos_spec (a b : positive) :
  Zpos a <= Zpos b ->
  exists k M k2 M2,
    rounds (Zpos a) (Zpos b) k M /\ 52 <= k /\
    rounds (100 * M) (2 ^ k) k2 M2 /\ 46 <= k2 /\
    Float.percent_pos a b = Some (M2 / 2 ^ k2).
Proof.
  intros Hab. destruct (truediv_spec a b Hab) as [k [M [HR [Hk Hdiv]]]].
  pose proof (rounds_range (Zpos a) (Zpos b) k M ltac:(lia) ltac:(lia) HR)
    as [HM _].
  assert (Hk' : 0 <= k <= 1074) by (destruct HR; lia).
  assert (Hpk : 0 < 2 ^ k) by (apply pow2_pos; lia).
  assert (Hone : M <= 2 ^ k).
  { destruct HR as [_ [_ [_ ->]]]. apply rne_le; [lia | nia]. }
  assert (Hstage2 : exists k2 M2, rounds (100 * M) (2 ^ k) k2 M2 /\ 46 <= k2 /\
                                  Float.mul (Float.truediv a b) (Float.of_pos 100) = pack M2 (- k2)).
  { rewrite Hdiv. unfold pack at 1.
    destruct (Z.eqb_spec M 0) as [-> | HM0].
    - exists 1074, 0. split; [| split; [lia | reflexivity]].
      unfold rounds. rewrite Z.mul_0_r, Z.mul_0_l.
      rewrite Z.div_0_l by lia. split; [lia |]. split; [reflexivity |].
      split; [left; reflexivity |].
      unfold rne. rewrite Z.mod_0_l, Z.div_0_l by lia.
      change (2 * 0) with 0.
      destruct (Z.compare_spec 0 (2 ^ k)); (reflexivity || lia).
    - destruct (Z.eqb_spec M (2 ^ 53)) as [HM53 | HM53].
      + apply mul_100_finite; try lia.
        rewrite HM53. replace (k + (- k + 1)) with 1 by lia. reflexivity.
      + apply mul_100_finite; try lia.
        rewrite Z2Pos.id by lia. replace (k + - k) with 0 by lia. lia. }
  destruct Hstage2 as [k2 [M2 [HR2 [Hk2 Hmul]]]].
  exists k, M, k2, M2.
  split; [exact HR |]. split; [exact Hk |].
  split; [exact HR2 |]. split; [exact Hk2 |].
  unfold Float.percent_pos. rewrite Hmul. apply to_int_pack; [| lia].
  apply (rounds_range (100 * M) (2 ^ k) k2 M2); [lia | lia | exact HR2].
Qed.

(** The percentage never decreases along the items. *)
Lemma percent_pos_mono (a a' b : positive) p p' :
  Zpos a <= Zpos a' -> Zpos a' <= Zpos b ->
  Float.percent_pos a b = Some p -> Float.percent_pos a' b = Some p' -> p <= p'.
Proof.
  intros Haa Hab Hp Hp'.
  destruct (percent_pos_spec a b ltac:(lia))
    as [k [M [k2 [M2 [HR [Hk [HR2 [Hk2 E]]]]]]]].
  destruct (percent_pos_spec a' b Hab)
    as [k' [M' [k2' [M2' [HR' [Hk' [HR2' [Hk2' E']]]]]]]].
  rewrite Hp in E. rewrite Hp' in E'. injection E as ->. injection E' as ->.
  pose proof (rounds_range (Zpos a) (Zpos b) k M ltac:(lia) ltac:(lia) HR)
    as [HM _].
  pose proof (rounds_range (Zpos a') (Zpos b) k' M' ltac:(lia) ltac:(lia) HR')
    as [HM' _].
  assert (Hpk : 0 < 2 ^ k) by (apply pow2_pos; lia).
  assert (Hpk' : 0 < 2 ^ k') by (apply pow2_pos; lia).
  assert (H1 : M * 2 ^ k' <= M' * 2 ^ k).
  { apply (rounds_mono (Zpos a) (Zpos b) k M (Zpos a') (Zpos b) k' M');
      try assumption; try lia. nia. }
  assert (H2 : M2 * 2 ^ k2' <= M2' * 2 ^ k2).
  { apply (rounds_mono (100 * M) (2 ^ k) k2 M2 (100 * M') (2 ^ k') k2' M2');
      try assumption; try lia. }
  apply div_le_cross; try (apply pow2_pos; lia). exact H2.
Qed.

(** The last item brings the percentage to 100. *)
Lemma percent_pos_full (b : positive) : Float.percent_pos b b = Some 100.
Proof.
  destruct (percent_pos_spec b b ltac:(lia))
    as [k [M [k2 [M2 [HR [Hk [HR2 [Hk2 E]]]]]]]].
  rewrite E. f_equal.
  destruct HR as [Hk' [Hhi [_ HM]]].
  assert (Hpk : 0 < 2 ^ k) by (apply pow2_pos; lia).
  rewrite (Z.mul_comm (Zpos b)), Z.div_mul in Hhi by lia.
  assert (Hk52 : k = 52).
  { destruct (Z.le_gt_cases k 52) as [H | H]; [lia |]. exfalso.
    assert (2 ^ 53 <= 2 ^ k) by (apply Z.pow_le_mono_r; lia). lia. }
  subst k. rewrite (Z.mul_comm (Zpos b)), rne_exact in HM by lia. subst M.
  destruct HR2 as [Hk2' [Hhi2 [_ HM2]]].
  assert (Hpk2 : 0 < 2 ^ k2) by (apply pow2_pos; lia).
  replace (100 * 2 ^ 52 * 2 ^ k2) with (100 * 2 ^ k2 * 2 ^ 52) in Hhi2, HM2 by ring.
  rewrite Z.div_mul in Hhi2 by lia. rewrite rne_exact in HM2 by lia.
  assert (Hk46 : k2 = 46).
  { destruct (Z.le_gt_cases k2 46) as [H | H]; [lia |]. exfalso.
    assert (2 ^ 47 <= 2 ^ k2) by (apply Z.pow_le_mono_r; lia).
    replace (2 ^ 47) with 140737488355328 in H0 by reflexivity.
    replace (2 ^ 53) with 9007199254740992 in Hhi2 by reflexivity. lia. }
  subst k2 M2. reflexivity.
Qed.

End Binary64.

(** ** The percentage of item [i] among [total] *)

Lemma Zpos_of_nat n : n <> 0 -> Zpos (Pos.of_nat n) = Z.of_nat n.
Proof.
  intros Hn. rewrite <- positive_nat_Z, Nat2Pos.id by exact Hn. reflexivity.
Qed.

(** [int] raises nothing inside the loop. *)
Lemma percent_defined i total :
  i < total -> percent_opt i total = Some (percent i total).
Proof.
  intros Hi. unfold percent, percent_opt.
  destruct (Binary64.percent_pos_spec (Pos.of_nat (i + 1)) (Pos.of_nat total))
    as [k [M [k2 [M2 [_ [_ [_ [_ Hp]]]]]]]].
  - rewrite !Zpos_of_nat by lia. lia.
  - rewrite Hp. reflexivity.
Qed.

Lemma percent_mono i j total :
  i <= j -> j < total -> (percent i total <= percent j total)%Z.
Proof.
  intros Hij Hj.
  apply (Binary64.percent_pos_mono
           (Pos.of_nat (i + 1)) (Pos.of_nat (j + 1)) (Pos.of_nat total)).
  - rewrite !Zpos_of_nat by lia. lia.
  - rewrite !Zpos_of_nat by lia. lia.
  - apply percent_defined. lia.
  - apply percent_defined. lia.
Qed.

Lemma percent_last total : 0 < total -> percent (total - 1) total = 100%Z.
Proof.
  intros Ht. unfold percent, percent_opt.
  replace (total - 1 + 1) with total by lia.
  rewrite Binary64.percent_pos_full. reflexivity.
Qed.

Lemma percent_sorted total : forall n i,
  i + n <= total ->
  StronglySorted Z.le (map (fun j => percent j total) (seq i n)).
Proof.
  induction n as [| n IH]; intros i Hi; simpl.
  - constructor.
  - constructor; [apply IH; lia |].
    apply Forall_forall. intros p Hp. apply in_map_iff in Hp.
    destruct Hp as [j [<- Hj]]. apply in_seq in Hj.
    apply percent_mono; lia.
Qed.

Lemma last_map_seq {A} (f : nat -> A) n d :
  0 < n -> last (map f (seq 0 n)) d = f (n - 1).
Proof.
  intros Hn. destruct n as [| n]; [lia |].
  rewrite seq_S, map_app. simpl. rewrite last_last.
  f_equal. lia.
Qed.

(** ** PowerShell's reading of the command *)

Lemma strip_prefix_app p s : strip_prefix p (p ++ s)%string = Some s.
Proof.
  induction p as [| c p IH]; simpl; [reflexivity |].
  now rewrite Ascii.eqb_refl.
Qed.

Lemma single_quoted_unquoted p :
  has_quote p = false ->
  single_quoted (p ++ "'")%string = Some (p, EmptyString).
Proof.
  induction p as [| c p IH]; simpl; intros H.
  - reflexivity.
  - apply orb_false_iff in H. destruct H as [Hc Hp].
    rewrite Hc, (IH Hp). reflexivity.
Qed.

(** A path without a quote is read back whole. *)
Lemma literal_path_unquoted p :
  has_quote p = false ->
  literal_path (unblock_command p) = Some (p, EmptyString).
Proof.
  intros H. unfold literal_path, unblock_command.
  rewrite strip_prefix_app. now apply single_quoted_unquoted.
Qed.

Lemma length_append_quote p :
  String.length (p ++ "'")%string = S (String.length p).
Proof. induction p as [| c p IH]; simpl; [reflexivity | now rewrite IH]. Qed.

(** A literal is shorter than the text it is read from. *)
Lemma single_quoted_length n : forall s content after,
  String.length s <= n ->
  single_quoted s = Some (content, after) ->
  String.length content + String.length after < String.length s.
Proof.
  induction n as [| n IH]; intros s content after Hn H.
  - destruct s; [discriminate | simpl in Hn; lia].
  - destruct s as [| c rest]; [discriminate |]. simpl in H, Hn.
    destruct (Ascii.eqb c quote).
    + destruct rest as [| c' rest'].
      * injection H as <- <-. simpl. lia.
      * destruct (Ascii.eqb c' quote).
        -- destruct (single_quoted rest') as [[content' after'] |] eqn:Hr;
             [| discriminate].
           injection H as <- <-.
           assert (Hl : String.length content' + String.length after'
                        < String.length rest')
             by (apply (IH rest'); [simpl in Hn; lia | exact Hr]).
           simpl. lia.
        -- injection H as <- <-. simpl. lia.
    + destruct (single_quoted rest) as [[content' after'] |] eqn:Hr;
        [| discriminate].
      injection H as <- <-.
      assert (Hl : String.length content' + String.length after'
                   < String.length rest)
        by (apply (IH rest); [lia | exact Hr]).
      simpl. lia.
Qed.

Lemma single_quoted_quoted p :
  has_quote p = true ->
  single_quoted (p ++ "'")%string <> Some (p, EmptyString).
Proof.
  induction p as [| c p IH]; simpl; intros Hq H; [discriminate |].
  destruct (Ascii.eqb c quote) eqn:Hc.
  - destruct p as [| c' p']; simpl in H.
    + discriminate.
    + destruct (Ascii.eqb c' quote).
      * destruct (single_quoted (p' ++ "'")%string)
          as [[content after] |] eqn:Hr; [| discriminate].
        injection H as _ Hcontent Hafter.
        pose proof (single_quoted_length _ _ _ _ (Nat.le_refl _) Hr) as Hl.
        rewrite length_append_quote, Hcontent, Hafter in Hl. simpl in Hl. lia.
      * discriminate.
  - simpl in Hq.
    destruct (single_quoted (p ++ "'")%string) as [[content after] |] eqn:Hr;
      [| discriminate].
    injection H as Hcontent Hafter. subst content after.
    now apply IH.
Qed.

(** A path with a quote is never read back whole. *)
Lemma literal_path_quoted p :
  has_quote p = true ->
  literal_path (unblock_command p) <> Some (p, EmptyString).
Proof.
  intros H. unfold literal_path, unblock_command.
  rewrite strip_prefix_app. now apply single_quoted_quoted.
Qed.

(** * Part V: the properties of the specification *)

(** ** Progress *)

(** C1, as the specification states it, fails: on the three files of the
    scenario, with no failure, the progress values are 33, 66 and 100.  The
    second is not the rounded percentage 67, and the sequence is neither
    [33, 67, 100] nor [34, 67, 100]. *)
Lemma progress_is_not_rounded :
  run Scenario.calm 1 [Scenario.a_txt; Scenario.dirX]
  = Ok tt [Invoke (unblock_args "C:\a.txt");
           Output "✅ Processed: C:\a.txt"; Progress 33;
           Invoke (unblock_args "C:\dirX\b.txt");
           Output "✅ Processed: C:\dirX\b.txt"; Progress 66;
           Invoke (unblock_args "C:\dirX\c.txt");
           Output "✅ Processed: C:\dirX\c.txt"; Progress 100;
           Output "🎉 Completed all files!"; Finished]
  /\ progress_values
       (trace_of (run Scenario.calm 1 [Scenario.a_txt; Scenario.dirX]))
     = [33; 66; 100]%Z
  /\ map (fun i => rounded_percent i 3) [1; 2; 3] = [33; 67; 100]%Z
  /\ progress_values
       (trace_of (run Scenario.calm 1 [Scenario.a_txt; Scenario.dirX]))
     <> map (fun i => rounded_percent i 3) [1; 2; 3]
  /\ progress_values
       (trace_of (run Scenario.calm 1 [Scenario.a_txt; Scenario.dirX]))
     <> [34; 67; 100]%Z.
Proof.
  assert (Hrun : run Scenario.calm 1 [Scenario.a_txt; Scenario.dirX]
                 = Ok tt [Invoke (unblock_args "C:\a.txt");
                          Output "✅ Processed: C:\a.txt"; Progress 33;
                          Invoke (unblock_args "C:\dirX\b.txt");
                          Output "✅ Processed: C:\dirX\b.txt"; Progress 66;
                          Invoke (unblock_args "C:\dirX\c.txt");
                          Output "✅ Processed: C:\dirX\c.txt"; Progress 100;
                          Output "🎉 Completed all files!"; Finished])
    by (vm_compute; reflexivity).
  split; [exact Hrun |]. rewrite Hrun.
  split; [reflexivity |].
  assert (Hr : map (fun i => rounded_percent i 3) [1; 2; 3] = [33; 67; 100]%Z)
    by (vm_compute; reflexivity).
  rewrite Hr. split; [reflexivity |]. split; simpl; discriminate.
Qed.

(** C1, amended: a run over a non-empty Work Item List of [N] files that
    completes normally emits progress exactly [N] times, once after the
    status of each item, success or failure alike; the value after item
    [i] (counted from 0) is [int((i + 1) / N * 100)], the binary64 product
    truncated, not rounded; the values never decrease and the last one is
    100; for [N = 3] they are 33, 66, 100.  Such a run exists whenever the
    list is not empty, cancel is never seen and the pauses end. *)
Theorem progress_per_item (E : env) (paths : list string) :
  (forall fuel tr body,
     run E fuel paths = Ok tt tr ->
     tr = body ++ [Output completed_msg; Finished] ->
     expansion (fs E) paths <> []
     /\ quiet tr
        = items_events E (List.length (expansion (fs E) paths)) 0
            (expansion (fs E) paths)
          ++ [Output completed_msg; Finished]
     /\ progress_values tr
        = map (fun i => percent i (List.length (expansion (fs E) paths)))
            (seq 0 (List.length (expansion (fs E) paths)))
     /\ List.length (progress_values tr)
        = List.length (expansion (fs E) paths)
     /\ (forall i, i < List.length (expansion (fs E) paths) ->
           percent_opt i (List.length (expansion (fs E) paths))
           = Some (percent i (List.length (expansion (fs E) paths))))
     /\ StronglySorted Z.le (progress_values tr)
     /\ last (progress_values tr) 0%Z = 100%Z
     /\ (List.length (expansion (fs E) paths) = 3 ->
           progress_values tr = [33; 66; 100]%Z))
  /\ (expansion (fs E) paths <> [] ->
      expands_uncancelled E paths ->
      uncancelled_before E (List.length (expansion (fs E) paths)) ->
      pauses_end_before E (List.length (expansion (fs E) paths)) ->
      exists fuel tr body,
        run E fuel paths = Ok tt tr
        /\ tr = body ++ [Output completed_msg; Finished]).
Proof.
  set (files := expansion (fs E) paths).
  set (N := List.length files).
  split.
  - intros fuel tr body Hrun Htr.
    destruct (run_completed E fuel paths tr body Hrun Htr) as [Hx Hq].
    fold files in Hq. fold N in Hq.
    assert (Hne : files <> []) by (destruct Hx as [_ [Hne _]]; exact Hne).
    assert (HN : 0 < N).
    { unfold N. destruct files; [contradiction | simpl; lia]. }
    assert (Hquiet : quiet tr
                     = items_events E N 0 files
                         ++ [Output completed_msg; Finished]).
    { rewrite Htr, quiet_app, Hq. reflexivity. }
    assert (Hprog : progress_values tr = map (fun i => percent i N) (seq 0 N)).
    { rewrite <- progress_values_quiet, Hquiet, progress_values_app,
        progress_values_items. simpl. now rewrite app_nil_r. }
    split; [exact Hne |]. split; [exact Hquiet |].
    split; [exact Hprog |]. rewrite Hprog. split.
    { now rewrite length_map, length_seq. }
    split; [intros i Hi; now apply percent_defined |].
    split; [apply percent_sorted; lia |].
    split.
    { rewrite last_map_seq by exact HN. now apply percent_last. }
    intros H3. rewrite H3. vm_compute. reflexivity.
  - intros Hne Hu Hb Hp.
    assert (Hx : exit_when E paths Completed) by (simpl; now repeat split).
    destruct (run_returns E paths Completed Hx Hp) as [fuel [tr Hrun]].
    destruct (run_ok_exit E fuel paths tr Completed Hrun Hx) as [body [Htr _]].
    now exists fuel, tr, body.
Qed.

Lemma progress_per_item_witness :
  exists fuel tr,
    run Scenario.calm fuel [Scenario.a_txt; Scenario.dirX] = Ok tt tr
    /\ progress_values tr = [33; 66; 100]%Z
    /\ StronglySorted Z.le (progress_values tr)
    /\ last (progress_values tr) 0%Z = 100%Z.
Proof.
  destruct (proj2 (progress_per_item Scenario.calm
                     [Scenario.a_txt; Scenario.dirX]))
    as [fuel [tr [body [Hrun Htr]]]].
  - vm_compute. discriminate.
  - intros j _. reflexivity.
  - intros i _. reflexivity.
  - intros i _. exists 0. reflexivity.
  - destruct (proj1 (progress_per_item Scenario.calm
                       [Scenario.a_txt; Scenario.dirX])
                fuel tr body Hrun Htr)
      as [_ [_ [_ [_ [_ [Hs [Hl H3]]]]]]].
    exists fuel, tr. split; [exact Hrun |]. split; [| split; assumption].
    apply H3. reflexivity.
Defined.

(** ** Failures of the external action *)

(** C2: when the action of item [k] fails and cancel is never seen, the
    failure does not end the run: at any moment the run has either
    returned, having invoked the action of every item, those after [k]
    included, and emitted the completion notice and the finished signal as
    its last events, or it is waiting in a pause before some item; and it
    returns when the pauses end. *)
Theorem failure_does_not_abort (E : env) (paths : list string)
    (k : nat) (file : string) :
  nth_error (expansion (fs E) paths) k = Some file ->
  failed (subprocess_run E k (unblock_args file)) ->
  expands_uncancelled E paths ->
  uncancelled_before E (List.length (expansion (fs E) paths)) ->
  (forall fuel,
     match run E fuel paths with
     | Ok _ tr =>
         (exists body, tr = body ++ [Output completed_msg; Finished])
         /\ invocations tr = map unblock_args (expansion (fs E) paths)
         /\ (forall j later, k < j ->
               nth_error (expansion (fs E) paths) j = Some later ->
               In (unblock_args later) (invocations tr))
     | Spinning tr => exists k', waiting_at E fuel paths k' tr
     end)
  /\ (pauses_end_before E (List.length (expansion (fs E) paths)) ->
      exists fuel tr, run E fuel paths = Ok tt tr).
Proof.
  intros Hk _ Hu Hb.
  set (files := expansion (fs E) paths) in *.
  assert (Hne : files <> []).
  { intros Hnil. rewrite Hnil in Hk. now destruct k. }
  assert (Hx : exit_when E paths Completed) by (simpl; now repeat split).
  split.
  - intros fuel. pose proof (run_cases E fuel paths) as H.
    destruct (run E fuel paths) as [[] tr | tr] eqn:Hrun; [| exact H].
    clear H.
    destruct (run_ok_exit E fuel paths tr Completed Hrun Hx) as [body [Htr Hq]].
    simpl in Htr, Hq. fold files in Hq.
    assert (Hinv : invocations tr = map unblock_args files).
    { rewrite Htr, invocations_app, <- (invocations_quiet body), Hq,
        invocations_items. simpl. now rewrite app_nil_r. }
    split; [now exists body |]. split; [exact Hinv |].
    intros j later _ Hj. rewrite Hinv. apply in_map.
    eapply nth_error_In. exact Hj.
  - intros Hp. exact (run_returns E paths Completed Hx Hp).
Qed.

Lemma failure_does_not_abort_witness :
  exists fuel tr,
    run (scripted Scenario.os0 [] [] (Scenario.raise_at 0 "WinError 2"))
        fuel [Scenario.a_txt; Scenario.dirX] = Ok tt tr
    /\ invocations tr
       = map unblock_args ["C:\a.txt"; "C:\dirX\b.txt"; "C:\dirX\c.txt"].
Proof.
  destruct (failure_does_not_abort
              (scripted Scenario.os0 [] [] (Scenario.raise_at 0 "WinError 2"))
              [Scenario.a_txt; Scenario.dirX] 0 "C:\a.txt")
    as [Hsafe Hlive].
  - reflexivity.
  - simpl. exact I.
  - intros j _. reflexivity.
  - intros i _. reflexivity.
  - destruct Hlive as [fuel [tr Hrun]]; [intros i _; exists 0; reflexivity |].
    exists fuel, tr. split; [exact Hrun |].
    specialize (Hsafe fuel). rewrite Hrun in Hsafe.
    destruct Hsafe as [_ [Hinv _]]. exact Hinv.
Defined.

(** C3, as the specification states it, fails: the action of the one file
    of this run exits with code 1, and the run emits the success status
    for it and no error status. *)
Lemma nonzero_exit_is_reported_as_success :
  subprocess_run (scripted Scenario.os0 [] [] (Scenario.all_exit 1)) 0
    (unblock_args Scenario.a_txt) = Exited 1
  /\ failed (Exited 1)
  /\ run (scripted Scenario.os0 [] [] (Scenario.all_exit 1)) 1
       [Scenario.a_txt]
     = Ok tt [Invoke (unblock_args "C:\a.txt");
              Output "✅ Processed: C:\a.txt";
              Progress 100; Output completed_msg; Finished]
  /\ forall line,
       ~ In (Error line)
            (trace_of (run (scripted Scenario.os0 [] [] (Scenario.all_exit 1))
                           1 [Scenario.a_txt])).
Proof.
  split; [reflexivity |]. split; [exact I |].
  assert (Hrun : run (scripted Scenario.os0 [] [] (Scenario.all_exit 1)) 1
                   [Scenario.a_txt]
                 = Ok tt [Invoke (unblock_args "C:\a.txt");
                          Output "✅ Processed: C:\a.txt";
                          Progress 100; Output completed_msg; Finished])
    by (vm_compute; reflexivity).
  split; [exact Hrun |]. intros line. rewrite Hrun. simpl.
  intros [H | [H | [H | [H | [H | H]]]]]; try discriminate; exact H.
Qed.

(** C3, amended: for every item that the run processes, the action is
    invoked and the next event is the status of that item: the error
    status, with the path and the text of the exception, when the call
    raises; the success status when the call returns, whatever the exit
    code of the process; the progress value follows. *)
Theorem status_follows_outcome (E : env) (fuel : nat) (paths : list string)
    (i : nat) (file : string) :
  nth_error (expansion (fs E) paths) i = Some file ->
  i < List.length (invocations (trace_of (run E fuel paths))) ->
  exists pre status post,
    quiet (trace_of (run E fuel paths))
    = pre ++ Invoke (unblock_args file) :: status
          :: Progress (percent i (List.length (expansion (fs E) paths)))
          :: post
    /\ List.length (invocations pre) = i
    /\ (forall e, subprocess_run E i (unblock_args file) = Raised e ->
          status = Error ("❌ Error: " ++ file ++ " -> " ++ e)%string)
    /\ (forall code, subprocess_run E i (unblock_args file) = Exited code ->
          status = Output ("✅ Processed: " ++ file)%string).
Proof.
  intros Hfile Hi.
  destruct (run_items E fuel paths) as [k [tail [Hk [Hq [Ht _]]]]].
  set (files := expansion (fs E) paths) in *.
  set (N := List.length files) in *.
  assert (Hlen : List.length (invocations (trace_of (run E fuel paths))) = k).
  { rewrite <- invocations_quiet, Hq, invocations_app, invocations_items, Ht,
      app_nil_r, length_map, length_firstn. lia. }
  rewrite Hlen in Hi.
  assert (Hsplit : firstn k files
                   = firstn i files ++ file :: skipn (S i) (firstn k files)).
  { assert (Hnth : nth_error (firstn k files) i = Some file)
      by (rewrite nth_error_firstn; destruct (Nat.ltb_spec i k); [exact Hfile | lia]).
    rewrite <- (firstn_skipn i (firstn k files)) at 1.
    rewrite firstn_firstn, Nat.min_l by lia. f_equal.
    clear - Hnth. revert i Hnth.
    induction (firstn k files) as [| f l IH]; intros [| i] H; simpl in *;
      try discriminate.
    - now injection H as ->.
    - now apply IH. }
  set (rest := skipn (S i) (firstn k files)) in *.
  exists (items_events E N 0 (firstn i files)), (status_event E i file),
    (items_events E N (S i) rest ++ tail).
  assert (Hli : List.length (firstn i files) = i).
  { rewrite length_firstn. apply Nat.min_l.
    apply Nat.lt_le_incl. apply nth_error_Some. now rewrite Hfile. }
  split; [| split; [| split]].
  - rewrite Hq, Hsplit, items_events_app, Hli. simpl.
    rewrite <- app_assoc. reflexivity.
  - now rewrite invocations_items, length_map.
  - intros e He. unfold status_event. now rewrite He.
  - intros code He. unfold status_event. now rewrite He.
Qed.

Lemma status_follows_outcome_witness :
  exists pre post,
    quiet (trace_of
             (run (scripted Scenario.os0 [] [] (Scenario.raise_at 1 "WinError 5"))
                  1 [Scenario.a_txt; Scenario.dirX]))
    = pre ++ Invoke (unblock_args "C:\dirX\b.txt")
          :: Error "❌ Error: C:\dirX\b.txt -> WinError 5"
          :: Progress (percent 1 3) :: post.
Proof.
  destruct (status_follows_outcome
              (scripted Scenario.os0 [] [] (Scenario.raise_at 1 "WinError 5"))
              1 [Scenario.a_txt; Scenario.dirX] 1 "C:\dirX\b.txt")
    as [pre [status [post [Hq [_ [He _]]]]]].
  - reflexivity.
  - vm_compute. lia.
  - exists pre, post. rewrite Hq. rewrite (He "WinError 5" eq_refl).
    reflexivity.
Defined.

(** ** Pause and cancel *)

(** While [_pause] stays set before an item, the loop of line 109 never
    leaves, also when [_cancel] is set: the run does not return and emits
    neither the cancellation notice nor the finished signal. *)
Lemma paused_never_returns (E : env) (paths : list string) (k fuel : nat) :
  k < List.length (expansion (fs E) paths) ->
  expands_uncancelled E paths ->
  uncancelled_before E k ->
  (forall d, pause_at E k d = true) ->
  exists tr,
    run E fuel paths = Spinning tr
    /\ ~ In (Output cancelled_msg) tr /\ ~ In Finished tr.
Proof.
  intros Hk Hu Hb Hp. pose proof (run_cases E fuel paths) as H.
  destruct (run E fuel paths) as [[] tr | tr].
  - exfalso. destruct H as [x [body [Hx [Hpe _]]]].
    assert (Hx' : exists k', k' < k /\ uncancelled_before E k'
                             /\ cancel_at_item E k' = true).
    { destruct x as [| | k' |]; simpl in Hx, Hpe.
      - destruct Hx as [j [Hj Hc]]. rewrite (Hu j Hj) in Hc. discriminate.
      - destruct Hx as [_ Hnil]. rewrite Hnil in Hk. simpl in Hk. lia.
      - destruct Hx as [_ [_ [Hb' Hc]]].
        destruct (Nat.lt_ge_cases k' k) as [Hlt | Hge]; [now exists k' |].
        destruct (Hpe k) as [d Hd]; [lia |]. rewrite Hp in Hd. discriminate.
      - destruct (Hpe k Hk) as [d Hd]. rewrite Hp in Hd. discriminate. }
    destruct Hx' as [k' [Hlt [_ Hc]]]. rewrite (Hb k' Hlt) in Hc. discriminate.
  - exists tr. split; [reflexivity |].
    destruct H as [k' [_ [_ [_ [_ Hq]]]]].
    assert (Hno : forall e, is_sleep e = false ->
                            (forall total i files,
                               ~ In e (items_events E total i files)) ->
                            ~ In e tr).
    { intros e He Hitems Hin. apply (in_quiet e tr He) in Hin.
      rewrite Hq in Hin. exact (Hitems _ _ _ Hin). }
    split.
    + apply Hno; [reflexivity |]. intros total i files.
      revert i. induction files as [| f rest IH]; intros i; simpl; [tauto |].
      intros [H | [H | [H | H]]]; try discriminate.
      * destruct (status_event_cases E i f) as [Hs | [e Hs]];
          rewrite Hs in H; discriminate.
      * exact (IH (S i) H).
    + apply Hno; [reflexivity |]. intros total i files.
      apply finished_not_in_items.
Qed.

(** C4, on the code: on the three files of the scenario the GUI pauses
    the worker and then cancels it while the first file is processed, and
    never resumes it.  The run processes the first file and then stays in
    the pause loop before the second, whatever the fuel: it emits neither
    the cancellation notice nor the finished signal. *)
Theorem cancel_while_paused_spins (fuel : nat) :
  run (Scenario.pause_and_cancel_from 1) (S fuel)
      [Scenario.a_txt; Scenario.dirX]
  = Spinning ([Invoke (unblock_args "C:\a.txt");
               Output "✅ Processed: C:\a.txt"; Progress 33]
              ++ sleeps (S fuel))
  /\ exists tr,
       run (Scenario.pause_and_cancel_from 1) fuel
           [Scenario.a_txt; Scenario.dirX] = Spinning tr
       /\ ~ In (Output cancelled_msg) tr /\ ~ In Finished tr.
Proof.
  split.
  - unfold run, run_body, bind.
    rewrite expand_uncancelled by (intros d _; reflexivity).
    change (expansion (fs (Scenario.pause_and_cancel_from 1))
              [Scenario.a_txt; Scenario.dirX])
      with ["C:\a.txt"; "C:\dirX\b.txt"; "C:\dirX\c.txt"]%string.
    cbn [app List.length Nat.eqb].
    rewrite process_cons. cbn [wait pause_at Scenario.pause_and_cancel_from
                                 Nat.leb cancel_at_item ret].
    rewrite process_cons, wait_forever by (intros d; reflexivity).
    reflexivity.
  - apply (paused_never_returns (Scenario.pause_and_cancel_from 1)
             [Scenario.a_txt; Scenario.dirX] 1 fuel).
    + vm_compute. lia.
    + intros j _. reflexivity.
    + intros [| i] Hi; [reflexivity | lia].
    + intros d. reflexivity.
Qed.

(** What holds when the first test that finds [_cancel] set is the one
    before item [k]: the run processes no item from [k] on; when it has
    returned it has invoked exactly [k] actions, those of the first [k]
    items, and the cancellation notice and the finished signal are its
    last events; while it has not returned it has invoked at most those.
    It returns when the pauses up to item [k] end, and only then: the
    test of line 111 comes after the pause loop. *)
Lemma cancel_before_item (E : env) (paths : list string) (k : nat) :
  k < List.length (expansion (fs E) paths) ->
  cancel_seen_before_item E paths k ->
  (forall fuel,
     match run E fuel paths with
     | Ok _ tr =>
         (exists body, tr = body ++ [Output cancelled_msg; Finished])
         /\ invocations tr
            = map unblock_args (firstn k (expansion (fs E) paths))
         /\ List.length (invocations tr) = k
     | Spinning tr =>
         exists k', k' <= k
           /\ invocations tr
              = map unblock_args (firstn k' (expansion (fs E) paths))
     end)
  /\ (pauses_end_before E (S k) ->
      exists fuel tr, run E fuel paths = Ok tt tr).
Proof.
  intros Hk Hseen.
  set (files := expansion (fs E) paths) in *.
  assert (Hx : exists x, exit_when E paths x
                         /\ pauses_on E paths x <= S k
                         /\ exit_line x = cancelled_msg
                         /\ exit_items E files x
                            = items_events E (List.length files) 0
                                (firstn k files)).
  { destruct Hseen as [[Hu [Hb Hc]] | [-> Hc]].
    - exists (CancelledAt k). simpl. repeat split; try assumption. lia.
    - exists CancelledExpanding. simpl. repeat split; try assumption. lia. }
  destruct Hx as [x [Hx [Hpx [Hline Hitems]]]].
  split.
  - intros fuel. pose proof (run_cases E fuel paths) as H.
    destruct (run E fuel paths) as [[] tr | tr] eqn:Hrun.
    + clear H.
      destruct (run_ok_exit E fuel paths tr x Hrun Hx) as [body [Htr Hq]].
      fold files in Hq. rewrite Hline in Htr. rewrite Hitems in Hq.
      assert (Hinv : invocations tr = map unblock_args (firstn k files)).
      { rewrite Htr, invocations_app, <- (invocations_quiet body), Hq,
          invocations_items. simpl. now rewrite app_nil_r. }
      split; [now exists body |]. split; [exact Hinv |].
      rewrite Hinv, length_map, length_firstn. lia.
    + destruct H as [k' [Hu [Hlt [Hb [_ Hq]]]]]. fold files in Hq, Hlt.
      exists k'. split.
      * destruct Hseen as [[_ [_ Hc]] | [_ [j [Hj Hc]]]].
        -- destruct (Nat.le_gt_cases k' k) as [Hle | Hgt]; [exact Hle |].
           rewrite (Hb k Hgt) in Hc. discriminate.
        -- rewrite (Hu j Hj) in Hc. discriminate.
      * now rewrite <- invocations_quiet, Hq, invocations_items.
  - intros Hp.
    exact (run_returns E paths x Hx (pauses_end_before_le E _ _ Hpx Hp)).
Qed.

Lemma cancel_before_item_witness :
  exists fuel tr,
    run (Scenario.cancel_from 2) fuel [Scenario.a_txt; Scenario.dirX]
    = Ok tt tr
    /\ invocations tr = map unblock_args ["C:\a.txt"; "C:\dirX\b.txt"]
    /\ List.length (invocations tr) = 2.
Proof.
  destruct (cancel_before_item (Scenario.cancel_from 2)
              [Scenario.a_txt; Scenario.dirX] 2)
    as [Hsafe Hlive].
  - vm_compute. lia.
  - left. split; [intros j _; reflexivity |]. split; [| reflexivity].
    intros [| [| i]] Hi; [reflexivity | reflexivity | lia].
  - destruct Hlive as [fuel [tr Hrun]]; [intros i _; exists 0; reflexivity |].
    exists fuel, tr. split; [exact Hrun |].
    specialize (Hsafe fuel). rewrite Hrun in Hsafe.
    destruct Hsafe as [_ [Hinv Hlen]]. split; [exact Hinv | exact Hlen].
Defined.

(** C5, on the code: on the three files of the scenario the GUI pauses
    the worker and then cancels it while the second file is processed, and
    never resumes it.  [_cancel] is set before the processing of item 2
    begins and two actions have been invoked, as the claim supposes; but
    the run never reaches the test of line 111: it stays in the pause loop
    of line 109 before item 2, whatever the fuel, and emits neither the
    cancellation notice nor the finished signal.  So it is for every
    environment in which [_cancel] is set before item [k] while the worker
    is paused before that item and not resumed. *)
Theorem cancel_before_item_not_reached (fuel : nat) :
  2 < List.length (expansion (fs (Scenario.pause_and_cancel_from 2))
                     [Scenario.a_txt; Scenario.dirX])
  /\ cancel_seen_before_item (Scenario.pause_and_cancel_from 2)
       [Scenario.a_txt; Scenario.dirX] 2
  /\ run (Scenario.pause_and_cancel_from 2) (S fuel)
         [Scenario.a_txt; Scenario.dirX]
     = Spinning ([Invoke (unblock_args "C:\a.txt");
                  Output "✅ Processed: C:\a.txt"; Progress 33;
                  Invoke (unblock_args "C:\dirX\b.txt");
                  Output "✅ Processed: C:\dirX\b.txt"; Progress 66]
                 ++ sleeps (S fuel))
  /\ (exists tr,
        run (Scenario.pause_and_cancel_from 2) fuel
            [Scenario.a_txt; Scenario.dirX] = Spinning tr
        /\ ~ In (Output cancelled_msg) tr /\ ~ In Finished tr)
  /\ (forall E paths k,
        k < List.length (expansion (fs E) paths) ->
        expands_uncancelled E paths ->
        uncancelled_before E k ->
        cancel_at_item E k = true ->
        (forall d, pause_at E k d = true) ->
        forall fuel',
        exists tr,
          run E fuel' paths = Spinning tr
          /\ ~ In (Output cancelled_msg) tr /\ ~ In Finished tr).
Proof.
  split; [vm_compute; lia |]. split; [| split; [| split]].
  - left. split; [intros j _; reflexivity |]. split; [| reflexivity].
    intros [| [| i]] Hi; [reflexivity | reflexivity | lia].
  - unfold run, run_body, bind.
    rewrite expand_uncancelled by (intros d _; reflexivity).
    change (expansion (fs (Scenario.pause_and_cancel_from 2))
              [Scenario.a_txt; Scenario.dirX])
      with ["C:\a.txt"; "C:\dirX\b.txt"; "C:\dirX\c.txt"]%string.
    cbn [app List.length Nat.eqb].
    rewrite process_cons. cbn [wait pause_at Scenario.pause_and_cancel_from
                                 Nat.leb cancel_at_item ret].
    rewrite process_cons. cbn [wait pause_at Scenario.pause_and_cancel_from
                                 Nat.leb cancel_at_item ret].
    rewrite process_cons, wait_forever by (intros d; reflexivity).
    reflexivity.
  - apply (paused_never_returns (Scenario.pause_and_cancel_from 2)
             [Scenario.a_txt; Scenario.dirX] 2 fuel).
    + vm_compute. lia.
    + intros j _. reflexivity.
    + intros [| [| i]] Hi; [reflexivity | reflexivity | lia].
    + intros d. reflexivity.
  - intros E paths k Hk Hu Hb _ Hp fuel'.
    exact (paused_never_returns E paths k fuel' Hk Hu Hb Hp).
Qed.

(** ** Selections without files *)

Lemma empty_directory_holds_no_file :
  Forall (holds_no_file Scenario.os0) [Scenario.emptyD].
Proof.
  constructor; [| constructor]. split; [reflexivity |].
  intros _ root dirs filenames Hin. simpl in Hin.
  destruct Hin as [H | []]. now injection H as _ _ <-.
Qed.

Lemma directories_hold_no_file :
  Forall (holds_no_file Scenario.os0) [Scenario.deepD; Scenario.emptyD].
Proof.
  constructor; [| exact empty_directory_holds_no_file].
  split; [reflexivity |].
  intros _ root dirs filenames Hin. simpl in Hin.
  destruct Hin as [H | [H | []]]; now injection H as _ _ <-.
Qed.

(** C6, as the specification states it, fails: the Selection holds two
    directories without files, the user cancels while the worker walks the
    first, and the run reports the cancellation, not that there are no
    files. *)
Lemma cancelled_run_does_not_report_no_files :
  Forall (holds_no_file Scenario.os0) [Scenario.deepD; Scenario.emptyD]
  /\ cancel_at_path (Scenario.cancel_from_path 1) 0 = false
  /\ cancel_at_path (Scenario.cancel_from_path 1) 1 = true
  /\ run (Scenario.cancel_from_path 1) 1 [Scenario.deepD; Scenario.emptyD]
     = Ok tt [Output "❌ Operation cancelled."; Finished]
  /\ ~ In (Output "No files to unblock.")
         (trace_of
            (run (Scenario.cancel_from_path 1) 1
                 [Scenario.deepD; Scenario.emptyD])).
Proof.
  split; [exact directories_hold_no_file |].
  split; [reflexivity |]. split; [reflexivity |].
  assert (Hrun : run (Scenario.cancel_from_path 1) 1
                   [Scenario.deepD; Scenario.emptyD]
                 = Ok tt [Output "❌ Operation cancelled."; Finished])
    by (vm_compute; reflexivity).
  split; [exact Hrun |]. rewrite Hrun. simpl.
  intros [H | [H | H]]; try discriminate; exact H.
Qed.

(** C6, amended: for a Selection that is empty or holds only empty
    directories and paths that do not exist, the run returns at once,
    invokes no action and emits no progress; it emits one status line and
    then the finished signal.  The line is "No files to unblock." when
    cancel is not seen while the Selection is expanded, which is always so
    for the empty Selection, and the cancellation notice otherwise. *)
Theorem no_files_run (E : env) (fuel : nat) (paths : list string) :
  Forall (holds_no_file (fs E)) paths ->
  exists line,
    run E fuel paths = Ok tt [Output line; Finished]
    /\ invocations (trace_of (run E fuel paths)) = []
    /\ progress_values (trace_of (run E fuel paths)) = []
    /\ (expands_uncancelled E paths -> line = no_files_msg)
    /\ (cancelled_expanding E paths -> line = cancelled_msg)
    /\ (paths = [] -> line = no_files_msg).
Proof.
  intros Hno.
  destruct (run_without_files E fuel paths Hno) as [[Hu Hrun] | [Hc Hrun]];
    rewrite Hrun.
  - exists no_files_msg. repeat split.
    intros [j [Hj Hcj]]. rewrite (Hu j Hj) in Hcj. discriminate.
  - exists cancelled_msg. repeat split.
    + intros Hu. destruct Hc as [j [Hj Hcj]]. rewrite (Hu j Hj) in Hcj.
      discriminate.
    + intros ->. destruct Hc as [j [Hj _]]. simpl in Hj. lia.
Qed.

Lemma no_files_run_witness :
  run Scenario.calm 1 [Scenario.emptyD]
  = Ok tt [Output no_files_msg; Finished].
Proof.
  destruct (no_files_run Scenario.calm 1 [Scenario.emptyD]
              empty_directory_holds_no_file)
    as [line [Hrun [_ [_ [Hline _]]]]].
  rewrite Hrun, Hline; [reflexivity |].
  intros j _. reflexivity.
Defined.

(** C7, as the specification states it, fails: the run over the empty
    Selection and the run over a Selection of one empty directory emit the
    same events. *)
Lemma empty_selection_is_not_told_apart :
  [Scenario.emptyD] <> []
  /\ expansion Scenario.os0 [Scenario.emptyD] = []
  /\ run Scenario.calm 1 [] = Ok tt [Output no_files_msg; Finished]
  /\ run Scenario.calm 1 [Scenario.emptyD] = run Scenario.calm 1 [].
Proof.
  split; [discriminate |]. split; [reflexivity |].
  split; vm_compute; reflexivity.
Qed.

(** C7, amended: when expansion produces an empty sequence and cancel is
    not seen, the worker emits "No files to unblock." and the finished
    signal, the same two events whether the Selection was empty or held
    no file; only the GUI tells the cases apart, by starting no worker for
    an empty Selection. *)
Theorem no_files_same_events (E : env) (fuel : nat) (paths : list string) :
  paths <> [] ->
  Forall (holds_no_file (fs E)) paths ->
  expands_uncancelled E paths ->
  run E fuel paths = run E fuel []
  /\ run E fuel [] = Ok tt [Output no_files_msg; Finished]
  /\ start_unblock E fuel [] = None
  /\ start_unblock E fuel paths = Some (run E fuel paths).
Proof.
  intros Hne Hno Hu.
  assert (Hrun : run E fuel paths = Ok tt [Output no_files_msg; Finished]).
  { destruct (run_without_files E fuel paths Hno) as [[_ Hrun] | [Hc _]];
      [exact Hrun |].
    destruct Hc as [j [Hj Hcj]]. rewrite (Hu j Hj) in Hcj. discriminate. }
  split; [rewrite Hrun; reflexivity |]. split; [reflexivity |].
  split; [reflexivity |].
  destruct paths; [contradiction | reflexivity].
Qed.

Lemma no_files_same_events_witness :
  run Scenario.calm 1 [Scenario.emptyD] = run Scenario.calm 1 [].
Proof.
  apply (no_files_same_events Scenario.calm 1 [Scenario.emptyD]).
  - discriminate.
  - exact empty_directory_holds_no_file.
  - intros j _. reflexivity.
Defined.

(** ** Expansion *)

(** C8: the expansion loop leaves in [files_to_unblock] the flat ordered
    sequence of the Selection: a plain file as it is, the files that the
    walk of a directory finds, in the order of the walk, and nothing for a
    path that is neither; it emits no event for any of them.  The loop has
    one other outcome, the return of line 94 when cancel is seen, and
    produces the sequence whenever cancel is not seen. *)
Theorem expansion_is_flat (E : env) (paths : list string) (tr : trace) :
  match expand E 0 paths [] tr with
  | Ok (Some files_to_unblock) tr' =>
      files_to_unblock = flat_map (expand_path (fs E)) paths
      /\ tr' = tr /\ expands_uncancelled E paths
  | Ok None tr' =>
      cancelled_expanding E paths
      /\ tr' = tr ++ [Output cancelled_msg; Finished]
  | Spinning _ => False
  end
  /\ (expands_uncancelled E paths ->
      expand E 0 paths [] tr
      = Ok (Some (flat_map (expand_path (fs E)) paths)) tr).
Proof.
  split.
  - destruct (expand_cases E paths tr) as [[Hu He] | [Hc He]]; rewrite He.
    + now repeat split.
    + now split.
  - intros Hu. rewrite expand_uncancelled by (intros; now apply Hu).
    reflexivity.
Qed.

Lemma expansion_is_flat_witness :
  expand Scenario.calm 0 [Scenario.a_txt; "C:\gone"; Scenario.dirX] [] []
  = Ok (Some ["C:\a.txt"; "C:\dirX\b.txt"; "C:\dirX\c.txt"]) [].
Proof.
  rewrite (proj2 (expansion_is_flat Scenario.calm
                    [Scenario.a_txt; "C:\gone"; Scenario.dirX] [])).
  - reflexivity.
  - intros j _. reflexivity.
Defined.

(** ** The finished signal *)

(** C9: a run that returns took one of the four ways out (cancellation
    while expanding, no files, cancellation before an item, completion)
    and on each the finished signal is its last event and occurs nowhere
    before; a run that has not returned has not emitted it; and a run
    whose pauses end returns. *)
Theorem finished_exactly_once (E : env) (paths : list string) :
  (forall fuel,
     match run E fuel paths with
     | Ok _ tr =>
         exists x before,
           exit_when E paths x
           /\ tr = (before ++ [Output (exit_line x)]) ++ [Finished]
           /\ ~ In Finished (before ++ [Output (exit_line x)])
     | Spinning tr => ~ In Finished tr
     end)
  /\ (pauses_end_before E (List.length (expansion (fs E) paths)) ->
      exists fuel tr, run E fuel paths = Ok tt tr).
Proof.
  split.
  - intros fuel. pose proof (run_cases E fuel paths) as H.
    destruct (run E fuel paths) as [[] tr | tr].
    + destruct H as [x [body [Hx [_ [Htr Hq]]]]].
      exists x, body. split; [exact Hx |]. split.
      * rewrite Htr, <- app_assoc. reflexivity.
      * intros Hin. apply in_app_or in Hin. destruct Hin as [Hin | Hin].
        -- apply (in_quiet Finished body eq_refl) in Hin. rewrite Hq in Hin.
           destruct x; simpl in Hin; try contradiction;
             exact (finished_not_in_items _ _ _ _ Hin).
        -- destruct Hin as [Hin | []]. discriminate.
    + destruct H as [k [_ [_ [_ [_ Hq]]]]]. intros Hin.
      apply (in_quiet Finished tr eq_refl) in Hin. rewrite Hq in Hin.
      exact (finished_not_in_items _ _ _ _ Hin).
  - intros Hp. destruct (exit_exists E paths) as [x [Hx Hle]].
    exact (run_returns E paths x Hx (pauses_end_before_le E _ _ Hle Hp)).
Qed.

Lemma finished_exactly_once_witness :
  exists fuel tr,
    run Scenario.calm fuel [Scenario.a_txt; Scenario.dirX] = Ok tt tr.
Proof.
  apply (proj2 (finished_exactly_once Scenario.calm
                  [Scenario.a_txt; Scenario.dirX])).
  intros i _. exists 0. reflexivity.
Defined.

(** ** The command line *)

(** An invocation that is counted is an event of the trace. *)
Lemma in_invocations args tr : In args (invocations tr) -> In (Invoke args) tr.
Proof.
  induction tr as [| e tr IH]; simpl; [tauto |].
  destruct e; simpl; try (intros H; right; exact (IH H)).
  intros [-> | H]; [now left | right; exact (IH H)].
Qed.

(** C10: a run invokes nothing but the actions of the first items of the
    Work Item List, in order, each with the argument list [powershell
    -NoProfile -Command "Unblock-File -LiteralPath '<path>'"], the path
    copied as it is between the single quotes: those of the first [k]
    items when it is cancelled before item [k], and those of every item
    when it completes, so that the trace of a completed run holds that
    invocation for every path of the list; a run completes when cancel is
    never seen and the pauses end.  For the path [it's.txt], as for every
    path with a single quote, PowerShell reads back from that command a
    literal that is not the path. *)
Theorem invocation_arguments (E : env) (fuel : nat) (paths : list string) :
  (exists k,
     k <= List.length (expansion (fs E) paths)
     /\ invocations (trace_of (run E fuel paths))
        = map (fun p => ["powershell"; "-NoProfile"; "-Command";
                         ("Unblock-File -LiteralPath '" ++ p ++ "'")%string])
            (firstn k (expansion (fs E) paths)))
  /\ (forall tr body,
        run E fuel paths = Ok tt tr ->
        tr = body ++ [Output completed_msg; Finished] ->
        invocations tr
        = map (fun p => ["powershell"; "-NoProfile"; "-Command";
                         ("Unblock-File -LiteralPath '" ++ p ++ "'")%string])
            (expansion (fs E) paths)
        /\ forall p,
             In p (expansion (fs E) paths) ->
             In (Invoke ["powershell"; "-NoProfile"; "-Command";
                         ("Unblock-File -LiteralPath '" ++ p ++ "'")%string])
                tr)
  /\ (forall k tr,
        run E fuel paths = Ok tt tr ->
        exit_when E paths (CancelledAt k) ->
        invocations tr
        = map (fun p => ["powershell"; "-NoProfile"; "-Command";
                         ("Unblock-File -LiteralPath '" ++ p ++ "'")%string])
            (firstn k (expansion (fs E) paths)))
  /\ (expansion (fs E) paths <> [] ->
      expands_uncancelled E paths ->
      uncancelled_before E (List.length (expansion (fs E) paths)) ->
      pauses_end_before E (List.length (expansion (fs E) paths)) ->
      exists fuel' tr body,
        run E fuel' paths = Ok tt tr
        /\ tr = body ++ [Output completed_msg; Finished])
  /\ (exists p,
        has_quote p = true
        /\ literal_path ("Unblock-File -LiteralPath '" ++ p ++ "'")%string
           = Some ("it"%string, "s.txt'"%string)
        /\ literal_path ("Unblock-File -LiteralPath '" ++ p ++ "'")%string
           <> Some (p, EmptyString))
  /\ (forall p,
        has_quote p = true ->
        literal_path ("Unblock-File -LiteralPath '" ++ p ++ "'")%string
        <> Some (p, EmptyString)).
Proof.
  split; [| split; [| split; [| split; [| split]]]].
  - destruct (run_items E fuel paths) as [k [tail [Hk [Hq [Ht _]]]]].
    exists k. split; [exact Hk |].
    rewrite <- invocations_quiet, Hq, invocations_app, invocations_items, Ht,
      app_nil_r. reflexivity.
  - intros tr body Hrun Htr.
    destruct (run_completed E fuel paths tr body Hrun Htr) as [_ Hq].
    assert (Hinv : invocations tr
                   = map unblock_args (expansion (fs E) paths)).
    { rewrite Htr, invocations_app, <- invocations_quiet, Hq,
        invocations_items. apply app_nil_r. }
    split; [exact Hinv |].
    intros p Hp. apply in_invocations. rewrite Hinv.
    apply (in_map unblock_args) in Hp. exact Hp.
  - intros k tr Hrun Hx.
    destruct (run_ok_exit E fuel paths tr (CancelledAt k) Hrun Hx)
      as [body [Htr Hq]].
    simpl in Hq.
    rewrite Htr, invocations_app, <- invocations_quiet, Hq,
      invocations_items. apply app_nil_r.
  - intros Hne Hu Hb Hp.
    assert (Hx : exit_when E paths Completed).
    { simpl. split; [exact Hu |]. split; [exact Hne | exact Hb]. }
    destruct (run_returns E paths Completed Hx Hp) as [fuel' [tr Hrun]].
    destruct (run_ok_exit E fuel' paths tr Completed Hrun Hx)
      as [body [Htr _]].
    exists fuel', tr, body. split; [exact Hrun | exact Htr].
  - exists "it's.txt"%string. split; [reflexivity |].
    split; [reflexivity | discriminate].
  - exact literal_path_quoted.
Qed.

Lemma invocation_arguments_witness :
  (exists fuel tr,
     run Scenario.calm fuel [Scenario.a_txt; Scenario.dirX] = Ok tt tr
     /\ invocations tr
        = [["powershell"; "-NoProfile"; "-Command";
            "Unblock-File -LiteralPath 'C:\a.txt'"];
           ["powershell"; "-NoProfile"; "-Command";
            "Unblock-File -LiteralPath 'C:\dirX\b.txt'"];
           ["powershell"; "-NoProfile"; "-Command";
            "Unblock-File -LiteralPath 'C:\dirX\c.txt'"]]
     /\ In (Invoke ["powershell"; "-NoProfile"; "-Command";
                    "Unblock-File -LiteralPath 'C:\dirX\c.txt'"]) tr)
  /\ literal_path "Unblock-File -LiteralPath 'C:\Bob's files\a.txt'"
     <> Some ("C:\Bob's files\a.txt"%string, EmptyString).
Proof.
  split.
  - destruct (proj1 (proj2 (proj2 (proj2
                (invocation_arguments Scenario.calm 0
                   [Scenario.a_txt; Scenario.dirX])))))
      as [fuel [tr [body [Hrun Htr]]]].
    + vm_compute. discriminate.
    + intros j _. reflexivity.
    + intros i _. reflexivity.
    + intros i _. exists 0. reflexivity.
    + destruct (proj1 (proj2 (invocation_arguments Scenario.calm fuel
                                [Scenario.a_txt; Scenario.dirX]))
                  tr body Hrun Htr) as [Hinv Hin].
      exists fuel, tr. split; [exact Hrun |]. split; [exact Hinv |].
      apply (Hin "C:\dirX\c.txt"%string). vm_compute. tauto.
  - apply (proj2 (proj2 (proj2 (proj2 (proj2
             (invocation_arguments Scenario.calm 1 [])))))
             "C:\Bob's files\a.txt"%string).
    reflexivity.
Defined.

(** * Part VI: further properties of the program *)

(** ** The run-control flags *)

Lemma flags_cancel_after cs w :
  Flags._cancel (fold_left Flags.apply cs w) = true
  <-> Flags._cancel w = true \/ In Flags.Cancel cs.
Proof.
  revert w. induction cs as [| c cs IH]; intros w; simpl.
  - tauto.
  - rewrite IH. destruct c; simpl; split; intros H.
    + destruct H as [H | H]; [left; exact H | right; right; exact H].
    + destruct H as [H | [H | H]]; [left; exact H | discriminate | right; exact H].
    + destruct H as [H | H]; [left; exact H | right; right; exact H].
    + destruct H as [H | [H | H]]; [left; exact H | discriminate | right; exact H].
    + destruct H as [H | H]; [right; left; reflexivity | right; right; exact H].
    + left. reflexivity.
Qed.

Lemma flags_pause_after cs : forall w,
  Flags._pause (fold_left Flags.apply cs w) = true
  <-> (Flags._pause w = true /\ ~ In Flags.Pause cs /\ ~ In Flags.Resume cs)
      \/ (exists l1 l2, cs = l1 ++ Flags.Pause :: l2 /\ ~ In Flags.Resume l2).
Proof.
  induction cs as [| c cs IH]; intros w; simpl.
  - split.
    + intros H. left. tauto.
    + intros [[H _] | [l1 [l2 [H _]]]]; [exact H |].
      destruct l1; discriminate.
  - rewrite IH. destruct c; simpl.
    + (* Pause *)
      split.
      * intros [[_ [Hp Hr]] | [l1 [l2 [-> Hr]]]].
        -- right. exists [], cs. split; [reflexivity | exact Hr].
        -- right. exists (Flags.Pause :: l1), l2. split; [reflexivity | exact Hr].
      * intros [[_ [Hp _]] | [l1 [l2 [Heq Hr]]]]; [exfalso; apply Hp; now left |].
        destruct l1 as [| c l1]; simpl in Heq.
        -- injection Heq as ->.
           destruct (in_dec (fun a b : Flags.call =>
                               ltac:(decide equality) : {a = b} + {a <> b})
                            Flags.Pause l2) as [Hin | Hnin].
           ++ right. apply in_split in Hin. destruct Hin as [l3 [l4 ->]].
              exists l3, l4. split; [reflexivity |].
              intros Hin. apply Hr. apply in_or_app. right. now right.
           ++ left. split; [reflexivity |]. split; assumption.
        -- injection Heq as _ ->. right. exists l1, l2. now split.
    + (* Resume *)
      split.
      * intros [[Hf _] | [l1 [l2 [-> Hr]]]]; [discriminate |].
        right. exists (Flags.Resume :: l1), l2. now split.
      * intros [[_ [_ Hr]] | [l1 [l2 [Heq Hr]]]]; [exfalso; apply Hr; now left |].
        destruct l1 as [| c l1]; simpl in Heq; [discriminate |].
        injection Heq as _ ->. right. exists l1, l2. now split.
    + (* Cancel *)
      split.
      * intros [[Hw [Hp Hr]] | [l1 [l2 [-> Hr]]]].
        -- left. split; [exact Hw |]. split.
           ++ intros [H | H]; [discriminate | now apply Hp].
           ++ intros [H | H]; [discriminate | now apply Hr].
        -- right. exists (Flags.Cancel :: l1), l2. now split.
      * intros [[Hw [Hp Hr]] | [l1 [l2 [Heq Hr]]]].
        -- left. split; [exact Hw |]. split.
           ++ intros H. apply Hp. now right.
           ++ intros H. apply Hr. now right.
        -- destruct l1 as [| c l1]; simpl in Heq; [discriminate |].
           injection Heq as _ ->. right. exists l1, l2. now split.
Qed.

(** X1: after any sequence of calls of [pause], [resume] and [cancel] on
    a new worker, [_cancel] is set exactly when [cancel] was called, and
    stays set whatever is called afterwards; [_pause] is set exactly when
    a call of [pause] is followed by no call of [resume]. *)
Theorem flags_after_calls (cs : list Flags.call) :
  (Flags._cancel (Flags.after cs) = true <-> In Flags.Cancel cs)
  /\ (Flags._pause (Flags.after cs) = true
      <-> exists l1 l2, cs = l1 ++ Flags.Pause :: l2 /\ ~ In Flags.Resume l2)
  /\ (forall more,
        In Flags.Cancel cs -> Flags._cancel (Flags.after (cs ++ more)) = true).
Proof.
  unfold Flags.after. split; [| split].
  - rewrite flags_cancel_after. simpl. split; [| tauto].
    intros [H | H]; [discriminate | exact H].
  - rewrite flags_pause_after. simpl. split; [| tauto].
    intros [[H _] | H]; [discriminate | exact H].
  - intros more Hin. apply flags_cancel_after. right.
    apply in_or_app. now left.
Qed.

(** ** The progress values of any run *)

Lemma percent_pos_nonneg (a b : positive) p :
  (Zpos a <= Zpos b)%Z -> Float.percent_pos a b = Some p -> (0 <= p)%Z.
Proof.
  intros Hab Hp.
  destruct (Binary64.percent_pos_spec a b Hab)
    as [k [M [k2 [M2 [HR [Hk [HR2 [Hk2 E]]]]]]]].
  rewrite Hp in E. injection E as ->.
  pose proof (Binary64.rounds_range (Zpos a) (Zpos b) k M ltac:(lia) ltac:(lia) HR)
    as [HM _].
  assert (Hpk : (0 < 2 ^ k)%Z) by (apply Binary64.pow2_pos; lia).
  pose proof (Binary64.rounds_range (100 * M) (2 ^ k) k2 M2 ltac:(lia) Hpk HR2)
    as [HM2 _].
  apply Z.div_pos; [lia |]. apply Binary64.pow2_pos. lia.
Qed.

Lemma percent_range i total :
  i < total -> (0 <= percent i total <= 100)%Z.
Proof.
  intros Hi. split.
  - apply (percent_pos_nonneg (Pos.of_nat (i + 1)) (Pos.of_nat total)).
    + rewrite !Zpos_of_nat by lia. lia.
    + apply percent_defined. exact Hi.
  - rewrite <- (percent_last total) by lia. apply percent_mono; lia.
Qed.

(** The progress values of a run, finished or not. *)
Lemma progress_of_items (E : env) (fuel : nat) (paths : list string) :
  exists k,
    k <= List.length (expansion (fs E) paths)
    /\ progress_values (trace_of (run E fuel paths))
       = map (fun j => percent j (List.length (expansion (fs E) paths)))
             (seq 0 k)
    /\ Forall (fun p => (0 <= p <= 100)%Z)
              (progress_values (trace_of (run E fuel paths))).
Proof.
  destruct (run_items E fuel paths) as [k [tail [Hk [Hq [Hi Hp]]]]].
  assert (Hpv : progress_values (trace_of (run E fuel paths))
                = map (fun j => percent j (List.length (expansion (fs E) paths)))
                      (seq 0 k)).
  { rewrite <- progress_values_quiet, Hq, progress_values_app,
      progress_values_items, Hp, app_nil_r.
    rewrite length_firstn, Nat.min_l by exact Hk. reflexivity. }
  exists k. split; [exact Hk |]. split; [exact Hpv |].
  rewrite Hpv. apply Forall_forall. intros p Hin.
  apply in_map_iff in Hin. destruct Hin as [j [<- Hj]].
  apply in_seq in Hj. apply percent_range. lia.
Qed.

(** X2: in every run, finished or not, one progress value follows each
    invocation; the values are the percentages of the first items, lie
    between 0 and 100 and never decrease. *)
Theorem progress_of_any_run (E : env) (fuel : nat) (paths : list string) :
  let tr := trace_of (run E fuel paths) in
  let total := List.length (expansion (fs E) paths) in
  exists k,
    k <= total
    /\ invocations tr = map unblock_args (firstn k (expansion (fs E) paths))
    /\ progress_values tr = map (fun j => percent j total) (seq 0 k)
    /\ List.length (progress_values tr) = List.length (invocations tr)
    /\ Forall (fun p => (0 <= p <= 100)%Z) (progress_values tr)
    /\ StronglySorted Z.le (progress_values tr).
Proof.
  intros tr total. subst tr total.
  destruct (run_items E fuel paths) as [k [tail [Hk [Hq [Hi Hp]]]]].
  assert (Hinv : invocations (trace_of (run E fuel paths))
                 = map unblock_args (firstn k (expansion (fs E) paths))).
  { rewrite <- invocations_quiet, Hq, invocations_app, invocations_items, Hi.
    apply app_nil_r. }
  assert (Hpv : progress_values (trace_of (run E fuel paths))
                = map (fun j => percent j (List.length (expansion (fs E) paths)))
                      (seq 0 k)).
  { rewrite <- progress_values_quiet, Hq, progress_values_app,
      progress_values_items, Hp, app_nil_r.
    rewrite length_firstn, Nat.min_l by exact Hk. reflexivity. }
  exists k. split; [exact Hk |]. split; [exact Hinv |]. split; [exact Hpv |].
  split; [| split].
  - rewrite Hinv, Hpv, !length_map, length_seq, length_firstn.
    symmetry. apply Nat.min_l. exact Hk.
  - rewrite Hpv. apply Forall_forall. intros p Hin.
    apply in_map_iff in Hin. destruct Hin as [j [<- Hj]].
    apply in_seq in Hj. apply percent_range. lia.
  - rewrite Hpv. apply percent_sorted. lia.
Qed.

(** ** Pausing *)

Lemma exit_when_unpaused E paths x :
  exit_when (unpaused E) paths x <-> exit_when E paths x.
Proof. destruct x; simpl; reflexivity. Qed.

Lemma items_events_unpaused E total files : forall i,
  items_events (unpaused E) total i files = items_events E total i files.
Proof.
  induction files as [| file rest IH]; intros i; simpl; [reflexivity |].
  rewrite IH. reflexivity.
Qed.

Lemma exit_items_unpaused E files x :
  exit_items (unpaused E) files x = exit_items E files x.
Proof. destruct x; simpl; try reflexivity; apply items_events_unpaused. Qed.

(** Without a pause the loop over the items sleeps nowhere and
    returns. *)
Lemma process_unpaused E files : forall fuel total i tr,
  quiet tr = tr ->
  exists tr', process (unpaused E) (S fuel) total i files tr = Ok tt tr'
              /\ quiet tr' = tr'.
Proof.
  induction files as [| file rest IH]; intros fuel total i tr Hq.
  - simpl. unfold bind, emit. eexists. split; [reflexivity |].
    rewrite !quiet_app, Hq. reflexivity.
  - rewrite process_cons. simpl wait. unfold ret.
    destruct (cancel_at_item (unpaused E) i).
    + eexists. split; [reflexivity |]. rewrite quiet_app, Hq. reflexivity.
    + apply IH. rewrite quiet_app, Hq, quiet_item. reflexivity.
Qed.

Lemma run_unpaused E fuel paths :
  exists tr, run (unpaused E) (S fuel) paths = Ok tt tr /\ quiet tr = tr.
Proof.
  unfold run, run_body, bind.
  destruct (expand_cases (unpaused E) paths []) as [[Hu He] | [Hc He]];
    rewrite He.
  - destruct (Nat.eqb (List.length (expansion (fs (unpaused E)) paths)) 0).
    + unfold bind, emit. eexists. split; reflexivity.
    + apply process_unpaused. reflexivity.
  - unfold ret. eexists. split; reflexivity.
Qed.

Lemma sleeps_200_app t1 t2 :
  sleeps_200 t1 -> sleeps_200 t2 -> sleeps_200 (t1 ++ t2).
Proof. intros H1 H2. apply Forall_app. now split. Qed.

Lemma sleeps_200_sleeps d : sleeps_200 (sleeps d).
Proof.
  unfold sleeps_200, sleeps. apply Forall_forall. intros e Hin _.
  now apply repeat_spec in Hin.
Qed.

Lemma sleeps_200_quiet tr : quiet tr = tr -> sleeps_200 tr.
Proof.
  intros Hq. apply Forall_forall. intros e Hin Hs.
  rewrite <- Hq in Hin. unfold quiet in Hin. apply filter_In in Hin.
  destruct Hin as [_ Hn]. rewrite Hs in Hn. discriminate.
Qed.

Lemma process_sleeps_200 E files : forall fuel total i tr,
  sleeps_200 tr -> sleeps_200 (trace_of (process E fuel total i files tr)).
Proof.
  induction files as [| file rest IH]; intros fuel total i tr Htr.
  - simpl. unfold bind, emit. simpl.
    repeat apply sleeps_200_app; try exact Htr;
      apply sleeps_200_quiet; reflexivity.
  - rewrite process_cons.
    destruct (wait_cases E fuel i 0 tr) as [[d [_ [_ [_ Hw]]]] | [_ Hw]];
      rewrite Hw.
    + destruct (cancel_at_item E i).
      * simpl. repeat apply sleeps_200_app; try exact Htr;
          [apply sleeps_200_sleeps | apply sleeps_200_quiet; reflexivity].
      * apply IH. repeat apply sleeps_200_app; try exact Htr;
          [apply sleeps_200_sleeps |].
        apply sleeps_200_quiet. apply quiet_item.
    + simpl. apply sleeps_200_app; [exact Htr | apply sleeps_200_sleeps].
Qed.

Lemma run_sleeps_200 E fuel paths : sleeps_200 (trace_of (run E fuel paths)).
Proof.
  unfold run, run_body, bind.
  destruct (expand_cases E paths []) as [[Hu He] | [Hc He]]; rewrite He.
  - destruct (Nat.eqb (List.length (expansion (fs E) paths)) 0).
    + apply sleeps_200_quiet. reflexivity.
    + apply process_sleeps_200. constructor.
  - apply sleeps_200_quiet. reflexivity.
Qed.

(** X3: pausing changes nothing but the sleeps: a run that returns has
    emitted, between sleeps of 200 ms, exactly the events of the run in
    which the worker is never paused. *)
Theorem pauses_only_add_sleeps (E : env) (fuel : nat) (paths : list string)
    (tr : trace) :
  run E fuel paths = Ok tt tr ->
  (forall fuel', run (unpaused E) (S fuel') paths = Ok tt (quiet tr))
  /\ Forall (fun e => is_sleep e = true -> e = Msleep 200) tr.
Proof.
  intros Hrun. split.
  - intros fuel'.
    destruct (run_unpaused E fuel' paths) as [tr0 [Hrun0 Hq0]].
    rewrite Hrun0. f_equal.
    pose proof (run_cases E fuel paths) as H. rewrite Hrun in H.
    destruct H as [x [body [Hx [_ [-> Hq]]]]].
    apply exit_when_unpaused in Hx.
    destruct (run_ok_exit (unpaused E) (S fuel') paths tr0 x Hrun0 Hx)
      as [body0 [Htr0 Hqb0]].
    rewrite <- Hq0, Htr0, !quiet_app, Hqb0, Hq.
    simpl fs. rewrite exit_items_unpaused. reflexivity.
  - pose proof (run_sleeps_200 E fuel paths) as H. rewrite Hrun in H.
    exact H.
Qed.

Lemma pauses_only_add_sleeps_witness :
  run (unpaused paused_twice) 1 [Scenario.a_txt; Scenario.dirX]
  = Ok tt (quiet (trace_of (run paused_twice 3 [Scenario.a_txt; Scenario.dirX])))
  /\ List.length (trace_of (run paused_twice 3 [Scenario.a_txt; Scenario.dirX]))
     = List.length
         (quiet (trace_of (run paused_twice 3 [Scenario.a_txt; Scenario.dirX])))
       + 6.
Proof.
  split; [| vm_compute; reflexivity].
  apply (proj1 (pauses_only_add_sleeps paused_twice 3
                  [Scenario.a_txt; Scenario.dirX]
                  (trace_of (run paused_twice 3 [Scenario.a_txt; Scenario.dirX]))
                  ltac:(vm_compute; reflexivity)) 0).
Defined.

(** ** The percentage and the exact ratio *)

(** The percentage grows with the ratio, whatever the two totals. *)
Lemma percent_pos_mono_cross (a b a' b' : positive) p p' :
  (Zpos a <= Zpos b)%Z -> (Zpos a' <= Zpos b')%Z ->
  (Zpos a * Zpos b' <= Zpos a' * Zpos b)%Z ->
  Float.percent_pos a b = Some p -> Float.percent_pos a' b' = Some p' ->
  (p <= p')%Z.
Proof.
  intros Hab Hab' Hle Hp Hp'.
  destruct (Binary64.percent_pos_spec a b Hab)
    as [k [M [k2 [M2 [HR [Hk [HR2 [Hk2 E]]]]]]]].
  destruct (Binary64.percent_pos_spec a' b' Hab')
    as [k' [M' [k2' [M2' [HR' [Hk' [HR2' [Hk2' E']]]]]]]].
  rewrite Hp in E. rewrite Hp' in E'. injection E as ->. injection E' as ->.
  pose proof (Binary64.rounds_range (Zpos a) (Zpos b) k M
                ltac:(lia) ltac:(lia) HR) as [HM _].
  pose proof (Binary64.rounds_range (Zpos a') (Zpos b') k' M'
                ltac:(lia) ltac:(lia) HR') as [HM' _].
  assert (Hpk : (0 < 2 ^ k)%Z) by (apply Binary64.pow2_pos; lia).
  assert (Hpk' : (0 < 2 ^ k')%Z) by (apply Binary64.pow2_pos; lia).
  assert (H1 : (M * 2 ^ k' <= M' * 2 ^ k)%Z).
  { apply (Binary64.rounds_mono (Zpos a) (Zpos b) k M (Zpos a') (Zpos b') k' M');
      try assumption; try lia. }
  assert (H2 : (M2 * 2 ^ k2' <= M2' * 2 ^ k2)%Z).
  { apply (Binary64.rounds_mono (100 * M) (2 ^ k) k2 M2
             (100 * M') (2 ^ k') k2' M2');
      try assumption; try lia. }
  apply Binary64.div_le_cross; try (apply Binary64.pow2_pos; lia). exact H2.
Qed.

(** The percentages of the hundredths, computed. *)
Lemma percent_of_hundredths q :
  1 <= q <= 100 ->
  exists p, Float.percent_pos (Pos.of_nat q) 100 = Some p
            /\ (Z.of_nat q - 1 <= p <= Z.of_nat q)%Z.
Proof.
  intros Hq.
  assert (Hall : forallb
            (fun q => match Float.percent_pos (Pos.of_nat q) 100 with
                      | Some p => (Z.of_nat q - 1 <=? p)%Z && (p <=? Z.of_nat q)%Z
                      | None => false
                      end) (seq 1 100) = true) by (vm_compute; reflexivity).
  rewrite forallb_forall in Hall. specialize (Hall q).
  destruct (Float.percent_pos (Pos.of_nat q) 100) as [p |].
  - exists p. split; [reflexivity |].
    assert (Hin : In q (seq 1 100)) by (apply in_seq; lia).
    apply Hall in Hin. apply andb_true_iff in Hin. destruct Hin as [H1 H2].
    apply Z.leb_le in H1, H2. lia.
  - assert (Hin : In q (seq 1 100)) by (apply in_seq; lia).
    apply Hall in Hin. discriminate.
Qed.

Lemma percent_pos_near_floor (a b : positive) p :
  (Zpos a <= Zpos b)%Z -> Float.percent_pos a b = Some p ->
  (100 * Zpos a / Zpos b - 1 <= p <= 100 * Zpos a / Zpos b + 1)%Z.
Proof.
  intros Hab Hp. set (q := (100 * Zpos a / Zpos b)%Z).
  assert (Hq0 : (0 <= q)%Z) by (apply Z.div_pos; lia).
  assert (Hqb : (q * Zpos b <= 100 * Zpos a)%Z).
  { unfold q. rewrite Z.mul_comm. apply Z.mul_div_le. lia. }
  assert (Hqb' : (100 * Zpos a < (q + 1) * Zpos b)%Z).
  { unfold q.
    pose proof (Z.div_mod (100 * Zpos a) (Zpos b) ltac:(lia)).
    pose proof (Z.mod_pos_bound (100 * Zpos a) (Zpos b) ltac:(lia)). nia. }
  assert (Hq100 : (q <= 100)%Z) by nia.
  split.
  - destruct (Z.eq_dec q 0) as [Hz | Hnz].
    + pose proof (percent_pos_nonneg a b p Hab Hp). lia.
    + destruct (percent_of_hundredths (Z.to_nat q)) as [p0 [Hp0 Hr]]; [lia |].
      rewrite Z2Nat.id in Hr by lia.
      assert (Hle : (p0 <= p)%Z).
      { apply (percent_pos_mono_cross (Pos.of_nat (Z.to_nat q)) 100 a b);
          try assumption.
        - rewrite Zpos_of_nat by lia. rewrite Z2Nat.id by lia. exact Hq100.
        - rewrite Zpos_of_nat by lia. rewrite Z2Nat.id by lia. lia. }
      lia.
  - destruct (Z.eq_dec q 100) as [H100 | Hn100].
    + assert (Hle : (p <= 100)%Z).
      { apply (percent_pos_mono_cross a b b b p 100 Hab); try assumption.
        - lia.
        - nia.
        - apply Binary64.percent_pos_full. }
      lia.
    + destruct (percent_of_hundredths (Z.to_nat (q + 1))) as [p1 [Hp1 Hr]];
        [lia |].
      rewrite Z2Nat.id in Hr by lia.
      assert (Hle : (p <= p1)%Z).
      { apply (percent_pos_mono_cross a b (Pos.of_nat (Z.to_nat (q + 1))) 100);
          try assumption.
        - rewrite Zpos_of_nat by lia. rewrite Z2Nat.id by lia. lia.
        - rewrite Zpos_of_nat by lia. rewrite Z2Nat.id by lia. lia. }
      lia.
Qed.

(** X4: the percentage emitted after item [i] is within one of the exact
    percentage rounded down, and it can fall short of it: after 29 items
    of 100 the worker emits 28. *)
Theorem percent_near_floor (i total : nat) :
  i < total ->
  (floor_percent (i + 1) total - 1 <= percent i total
   <= floor_percent (i + 1) total + 1)%Z
  /\ percent 28 100 = 28%Z /\ floor_percent 29 100 = 29%Z.
Proof.
  intros Hi. split; [| split; reflexivity].
  unfold floor_percent.
  pose proof (percent_pos_near_floor (Pos.of_nat (i + 1)) (Pos.of_nat total)
                (percent i total)) as H.
  rewrite !Zpos_of_nat in H by lia.
  apply H; [lia |]. apply percent_defined. exact Hi.
Qed.

Lemma percent_near_floor_witness :
  (floor_percent 57 100 - 1 <= percent 56 100 <= floor_percent 57 100 + 1)%Z.
Proof.
  apply (proj1 (percent_near_floor 56 100 ltac:(lia))).
Defined.

(** ** A file selected together with its directory *)

Lemma in_twice {A} (l : list A) x y :
  In x l -> In y l -> x <> y ->
  exists l1 l2 l3,
    l = l1 ++ x :: l2 ++ y :: l3 \/ l = l1 ++ y :: l2 ++ x :: l3.
Proof.
  intros Hx Hy Hne. apply in_split in Hx. destruct Hx as [l1 [l2 ->]].
  apply in_app_or in Hy. destruct Hy as [Hy | [Hy | Hy]].
  - apply in_split in Hy. destruct Hy as [l3 [l4 ->]].
    exists l3, l4, l2. right. rewrite <- app_assoc. reflexivity.
  - contradiction.
  - apply in_split in Hy. destruct Hy as [l3 [l4 ->]].
    exists l1, l3, l4. left. reflexivity.
Qed.

Lemma expansion_twice o paths d f :
  In d paths -> In f paths -> d <> f ->
  In f (expand_path o d) -> In f (expand_path o f) ->
  exists e1 e2 e3, expansion o paths = e1 ++ f :: e2 ++ f :: e3.
Proof.
  intros Hd Hf Hne Hfd Hff.
  apply in_split in Hfd. destruct Hfd as [u [v Hu]].
  apply in_split in Hff. destruct Hff as [u' [v' Hu']].
  destruct (in_twice paths d f Hd Hf Hne) as [l1 [l2 [l3 [-> | ->]]]];
    unfold expansion;
    rewrite flat_map_app; simpl; rewrite flat_map_app; simpl;
    rewrite Hu, Hu'.
  - exists (flat_map (expand_path o) l1 ++ u),
      (v ++ flat_map (expand_path o) l2 ++ u'),
      (v' ++ flat_map (expand_path o) l3).
    repeat (rewrite <- ?app_assoc; simpl). reflexivity.
  - exists (flat_map (expand_path o) l1 ++ u'),
      (v' ++ flat_map (expand_path o) l2 ++ u),
      (v ++ flat_map (expand_path o) l3).
    repeat (rewrite <- ?app_assoc; simpl). reflexivity.
Qed.

(** X5: the Selection holds no path twice, but the Work Item List may: a
    file selected together with a directory whose walk finds it is
    unblocked twice by a run that completes. *)
Theorem file_and_its_directory (E : env) (fuel : nat) (paths : list string)
    (d f : string) (tr body : trace) :
  In d paths -> In f paths -> d <> f ->
  isfile (fs E) f = true -> In f (expand_path (fs E) d) ->
  run E fuel paths = Ok tt tr ->
  tr = body ++ [Output completed_msg; Finished] ->
  exists l1 l2 l3,
    invocations tr = l1 ++ unblock_args f :: l2 ++ unblock_args f :: l3.
Proof.
  intros Hd Hf Hne Hfile Hfd Hrun Htr.
  destruct (run_completed E fuel paths tr body Hrun Htr) as [_ Hq].
  assert (Hinv : invocations tr = map unblock_args (expansion (fs E) paths)).
  { rewrite Htr, invocations_app, <- invocations_quiet, Hq, invocations_items.
    apply app_nil_r. }
  destruct (expansion_twice (fs E) paths d f Hd Hf Hne Hfd) as [e1 [e2 [e3 He]]].
  { unfold expand_path. rewrite Hfile. now left. }
  rewrite Hinv, He.
  exists (map unblock_args e1), (map unblock_args e2), (map unblock_args e3).
  rewrite map_app. simpl. rewrite map_app. reflexivity.
Qed.

Lemma file_and_its_directory_witness :
  exists l1 l2 l3,
    invocations (trace_of (run nested 1 [Scenario.dirX; b_txt]))
    = l1 ++ unblock_args b_txt :: l2 ++ unblock_args b_txt :: l3.
Proof.
  apply (file_and_its_directory nested 1 [Scenario.dirX; b_txt]
           Scenario.dirX b_txt
           (trace_of (run nested 1 [Scenario.dirX; b_txt]))
           (removelast (removelast
              (trace_of (run nested 1 [Scenario.dirX; b_txt]))))).
  - simpl. tauto.
  - simpl. tauto.
  - vm_compute. discriminate.
  - reflexivity.
  - vm_compute. left. reflexivity.
  - vm_compute. reflexivity.
  - vm_compute. reflexivity.
Defined.

(** ** The Selection of the window *)

Lemma mem_In p l : Gui.mem p l = true <-> In p l.
Proof.
  unfold Gui.mem. rewrite existsb_exists. split.
  - intros [x [Hin Heq]]. apply String.eqb_eq in Heq. now subst x.
  - intros Hin. exists p. split; [exact Hin | apply String.eqb_refl].
Qed.

Lemma mem_not_In p l : Gui.mem p l = false <-> ~ In p l.
Proof.
  rewrite <- mem_In. destruct (Gui.mem p l); split; intros H;
    try reflexivity; try discriminate; try (intros H'; discriminate).
  exfalso. now apply H.
Qed.

Lemma update_list_fold l : forall g,
  fold_left (fun g' path =>
               Gui.set_list_widget (Gui.list_widget g' ++ [path]) g') l g
  = Gui.set_list_widget (Gui.list_widget g ++ l) g.
Proof.
  induction l as [| p l IH]; intros g; simpl.
  - rewrite app_nil_r. now destruct g.
  - rewrite IH. unfold Gui.set_list_widget. simpl.
    rewrite <- app_assoc. reflexivity.
Qed.

(** [update_list] makes the list widget show the Selection. *)
Lemma update_list_spec g :
  Gui.update_list g = Gui.set_list_widget (Gui.selected_paths g) g.
Proof. unfold Gui.update_list. rewrite update_list_fold. reflexivity. Qed.

(** The loop that adds paths touches the Selection only. *)
Lemma add_paths_frame urls : forall g,
  fold_left Gui.add_path urls g
  = Gui.set_selected_paths
      (Gui.selected_paths (fold_left Gui.add_path urls g)) g.
Proof.
  induction urls as [| p urls IH]; intros g; simpl.
  - now destruct g.
  - rewrite IH. unfold Gui.add_path.
    destruct (Gui.mem p (Gui.selected_paths g)); simpl; reflexivity.
Qed.

(** What the loop adds: the paths not yet selected, each once. *)
Lemma add_paths_spec urls : forall g,
  exists new,
    Gui.selected_paths (fold_left Gui.add_path urls g)
    = Gui.selected_paths g ++ new
    /\ NoDup new
    /\ (forall p, In p new <-> In p urls /\ ~ In p (Gui.selected_paths g)).
Proof.
  induction urls as [| p urls IH]; intros g; simpl.
  - exists []. rewrite app_nil_r. split; [reflexivity |].
    split; [constructor |]. intros p. simpl. tauto.
  - unfold Gui.add_path at 2.
    destruct (Gui.mem p (Gui.selected_paths g)) eqn:Hm; simpl.
    + apply mem_In in Hm.
      destruct (IH g) as [new [Hs [Hnd Hnew]]].
      exists new. split; [exact Hs |]. split; [exact Hnd |].
      intros q. rewrite Hnew. split.
      * intros [H1 H2]. split; [now right | exact H2].
      * intros [[H1 | H1] H2]; [subst q; contradiction | now split].
    + apply mem_not_In in Hm.
      destruct (IH (Gui.set_selected_paths (Gui.selected_paths g ++ [p]) g))
        as [new [Hs [Hnd Hnew]]].
      simpl in Hs, Hnew.
      exists (p :: new). split; [rewrite Hs, <- app_assoc; reflexivity |].
      split.
      * constructor; [| exact Hnd]. intros Hin. apply Hnew in Hin.
        destruct Hin as [_ Hin]. apply Hin. apply in_or_app. right. now left.
      * intros q. simpl. rewrite Hnew. split.
        -- intros [H | [H1 H2]].
           ++ subst q. split; [now left | exact Hm].
           ++ split; [now right |]. intros H. apply H2.
              apply in_or_app. now left.
        -- intros [[H | H] H2].
           ++ now left.
           ++ destruct (string_dec p q) as [Heq | Hne]; [now left |].
              right. split; [exact H |]. intros Hin.
              apply in_app_or in Hin. destruct Hin as [Hin | [Hin | []]];
                [contradiction | contradiction].
Qed.

Lemma add_paths_nothing urls : forall g,
  (forall p, In p urls -> In p (Gui.selected_paths g)) ->
  fold_left Gui.add_path urls g = g.
Proof.
  induction urls as [| p urls IH]; intros g H; simpl; [reflexivity |].
  unfold Gui.add_path at 2.
  assert (Hm : Gui.mem p (Gui.selected_paths g) = true).
  { apply mem_In. apply H. now left. }
  rewrite Hm. simpl. apply IH. intros q Hq. apply H. now right.
Qed.

Lemma nodup_app_new (l new : list string) :
  NoDup l -> NoDup new -> (forall p, In p new -> ~ In p l) -> NoDup (l ++ new).
Proof.
  intros Hl Hn Hd. induction l as [| x l IH]; simpl; [exact Hn |].
  inversion Hl as [| ? ? Hx Hl']; subst.
  constructor.
  - intros Hin. apply in_app_or in Hin. destruct Hin as [Hin | Hin];
      [contradiction |]. apply (Hd x Hin). now left.
  - apply IH; [exact Hl' |]. intros p Hp Hin. apply (Hd p Hp). now right.
Qed.

(** The handlers of the Selection, in one form. *)
Lemma dropEvent_selection urls g :
  Gui.dropEvent urls g
  = with_selection (Gui.selected_paths (Gui.dropEvent urls g)) g.
Proof.
  unfold Gui.dropEvent, with_selection. rewrite update_list_spec.
  rewrite (add_paths_frame urls g). simpl. reflexivity.
Qed.

Lemma select_files_drop files g : Gui.select_files files g = Gui.dropEvent files g.
Proof. reflexivity. Qed.

Lemma select_folders_selection folder g :
  Gui.select_folders folder g
  = with_selection (Gui.selected_paths (Gui.select_folders folder g)) g.
Proof.
  unfold Gui.select_folders, with_selection. rewrite update_list_spec.
  destruct (negb (String.eqb folder EmptyString)
            && negb (Gui.mem folder (Gui.selected_paths g)));
    simpl; reflexivity.
Qed.

Lemma remove_item_selection path g :
  Gui.remove_item path g
  = with_selection (Gui.selected_paths (Gui.remove_item path g)) g.
Proof.
  unfold Gui.remove_item, with_selection. rewrite update_list_spec.
  destruct (Gui.mem path (Gui.selected_paths g)); simpl; reflexivity.
Qed.

Lemma dropEvent_paths urls g :
  Gui.selected_paths (Gui.dropEvent urls g)
  = Gui.selected_paths (fold_left Gui.add_path urls g).
Proof.
  unfold Gui.dropEvent. rewrite update_list_spec. reflexivity.
Qed.

Lemma select_folders_paths folder g :
  Gui.selected_paths (Gui.select_folders folder g)
  = if negb (String.eqb folder EmptyString)
       && negb (Gui.mem folder (Gui.selected_paths g))
    then Gui.selected_paths g ++ [folder]
    else Gui.selected_paths g.
Proof.
  unfold Gui.select_folders. rewrite update_list_spec.
  destruct (negb (String.eqb folder EmptyString)
            && negb (Gui.mem folder (Gui.selected_paths g)));
    reflexivity.
Qed.

Lemma remove_item_paths path g :
  Gui.selected_paths (Gui.remove_item path g)
  = if Gui.mem path (Gui.selected_paths g)
    then Gui.remove_first path (Gui.selected_paths g)
    else Gui.selected_paths g.
Proof.
  unfold Gui.remove_item. rewrite update_list_spec.
  destruct (Gui.mem path (Gui.selected_paths g)); reflexivity.
Qed.

Lemma filter_other_all p (l : list string) :
  ~ In p l -> filter (fun x => negb (String.eqb x p)) l = l.
Proof.
  induction l as [| x l IH]; intros Hn; simpl; [reflexivity |].
  destruct (String.eqb_spec x p) as [-> | Hne]; simpl.
  - exfalso. apply Hn. now left.
  - rewrite IH; [reflexivity |]. intros H. apply Hn. now right.
Qed.

(** On a list without repetition, [remove] leaves the other paths. *)
Lemma remove_first_filter p (l : list string) :
  NoDup l -> Gui.remove_first p l = filter (fun x => negb (String.eqb x p)) l.
Proof.
  induction 1 as [| x l Hx Hl IH]; simpl; [reflexivity |].
  destruct (String.eqb_spec x p) as [-> | Hne]; simpl.
  - symmetry. apply filter_other_all. exact Hx.
  - rewrite IH. reflexivity.
Qed.

Lemma nodup_filter (f : string -> bool) (l : list string) :
  NoDup l -> NoDup (filter f l).
Proof.
  induction 1 as [| x l Hx Hl IH]; simpl; [constructor |].
  destruct (f x); [| exact IH].
  constructor; [| exact IH]. intros Hin. apply filter_In in Hin. tauto.
Qed.

(** The invariant of the Selection. *)
Lemma selection_step g a :
  NoDup (Gui.selected_paths g) /\ Gui.list_widget g = Gui.selected_paths g ->
  NoDup (Gui.selected_paths (Gui.step g a))
  /\ Gui.list_widget (Gui.step g a) = Gui.selected_paths (Gui.step g a).
Proof.
  intros [Hnd Hlw].
  assert (Hadd : forall urls,
            NoDup (Gui.selected_paths (Gui.dropEvent urls g))
            /\ Gui.list_widget (Gui.dropEvent urls g)
               = Gui.selected_paths (Gui.dropEvent urls g)).
  { intros urls. split.
    - rewrite dropEvent_paths.
      destruct (add_paths_spec urls g) as [new [-> [Hn Hnew]]].
      apply nodup_app_new; [exact Hnd | exact Hn |].
      intros p Hp. now apply Hnew in Hp.
    - rewrite dropEvent_selection at 1. reflexivity. }
  destruct a as [urls | files | folder | path | | running | running yes
                 | e | tray_visible running | running]; cbn [Gui.step].
  - apply Hadd.
  - apply Hadd.
  - split.
    + rewrite select_folders_paths.
      destruct (negb (String.eqb folder EmptyString)
                && negb (Gui.mem folder (Gui.selected_paths g))) eqn:Hc;
        [| exact Hnd].
      apply andb_true_iff in Hc. destruct Hc as [_ Hm].
      apply negb_true_iff in Hm. apply mem_not_In in Hm.
      apply nodup_app_new; [exact Hnd | repeat constructor; intros [] |].
      intros p [<- | []]. exact Hm.
    + rewrite select_folders_selection at 1. reflexivity.
  - split.
    + rewrite remove_item_paths.
      destruct (Gui.mem path (Gui.selected_paths g)); [| exact Hnd].
      rewrite remove_first_filter by exact Hnd. apply nodup_filter. exact Hnd.
    + rewrite remove_item_selection at 1. reflexivity.
  - destruct (Gui.unblock_enabled g); [| now split].
    unfold Gui.start_unblock.
    destruct (Gui.selected_paths g) eqn:Hs; [rewrite Hs; now split |].
    unfold Gui.setValue. simpl. rewrite Hs. now split.
  - destruct (Gui.pause_enabled g); [| now split].
    unfold Gui.pause_resume.
    destruct (Gui.worker g); [| now split].
    destruct running; [| now split].
    destruct (negb (Gui.paused g)); simpl; now split.
  - destruct (Gui.cancel_enabled g); [| now split].
    unfold Gui.cancel.
    destruct (Gui.worker g); [| now split].
    destruct running; [| now split].
    destruct yes; simpl; now split.
  - destruct e as [line | line | v | | args | ms]; simpl; try (now split).
    unfold Gui.setValue.
    destruct ((0 <=? v)%Z && (v <=? 100)%Z); simpl; now split.
  - unfold Gui.closeEvent. destruct tray_visible; simpl; [now split |].
    destruct (Gui.worker g); [| now split].
    destruct running; simpl; now split.
  - unfold Gui.exit_app.
    destruct (Gui.worker g); [| now split].
    destruct running; simpl; now split.
Qed.

Lemma selection_steps acts : forall g,
  NoDup (Gui.selected_paths g) /\ Gui.list_widget g = Gui.selected_paths g ->
  NoDup (Gui.selected_paths (Gui.steps acts g))
  /\ Gui.list_widget (Gui.steps acts g) = Gui.selected_paths (Gui.steps acts g).
Proof.
  induction acts as [| a acts IH]; intros g H; simpl; [exact H |].
  apply IH. apply selection_step. exact H.
Qed.

(** X6: whatever happens to the window, the Selection holds no path
    twice and the list widget shows exactly the Selection, in order. *)
Theorem selection_invariant (acts : list Gui.action) :
  NoDup (Gui.selected_paths (Gui.session acts))
  /\ Gui.list_widget (Gui.session acts) = Gui.selected_paths (Gui.session acts).
Proof.
  unfold Gui.session. apply selection_steps. simpl.
  split; [constructor | reflexivity].
Qed.

(** X7: a drop (and a choice in the file dialog, which runs the same
    code) keeps the Selection as a prefix and appends, once each, the
    paths that were not selected; the Start button is enabled when the
    Selection is not empty; dropping the same paths again changes
    nothing. *)
Theorem drop_adds_new_paths (urls : list string) (g : Gui.t) :
  Gui.select_files urls g = Gui.dropEvent urls g
  /\ (exists new,
        Gui.selected_paths (Gui.dropEvent urls g) = Gui.selected_paths g ++ new
        /\ NoDup new
        /\ (forall p, In p new <-> In p urls /\ ~ In p (Gui.selected_paths g)))
  /\ Gui.unblock_enabled (Gui.dropEvent urls g)
     = Gui.nonempty (Gui.selected_paths (Gui.dropEvent urls g))
  /\ Gui.dropEvent urls (Gui.dropEvent urls g) = Gui.dropEvent urls g.
Proof.
  split; [reflexivity |]. split; [| split].
  - rewrite dropEvent_paths. apply add_paths_spec.
  - rewrite dropEvent_selection at 1. reflexivity.
  - assert (Hall : forall p, In p urls ->
                             In p (Gui.selected_paths (Gui.dropEvent urls g))).
    { intros p Hp. rewrite dropEvent_paths.
      destruct (add_paths_spec urls g) as [new [-> [_ Hnew]]].
      destruct (in_dec string_dec p (Gui.selected_paths g)) as [Hin | Hnin].
      - apply in_or_app. now left.
      - apply in_or_app. right. apply Hnew. now split. }
    set (g1 := Gui.dropEvent urls g) in *.
    unfold Gui.dropEvent at 1.
    rewrite (add_paths_nothing urls g1 Hall), update_list_spec.
    unfold g1. rewrite dropEvent_selection. reflexivity.
Qed.

(** X8: removing an item of the list takes its path, and nothing else,
    out of the Selection; removing a path that is not selected changes
    nothing; and a path that is added and then removed leaves the
    Selection as it was. *)
Theorem remove_item_removes (acts : list Gui.action) (path : string) :
  let g := Gui.session acts in
  Gui.selected_paths (Gui.remove_item path g)
  = filter (fun x => negb (String.eqb x path)) (Gui.selected_paths g)
  /\ ~ In path (Gui.selected_paths (Gui.remove_item path g))
  /\ (~ In path (Gui.selected_paths g) ->
      Gui.selected_paths (Gui.remove_item path g) = Gui.selected_paths g
      /\ Gui.selected_paths (Gui.remove_item path (Gui.dropEvent [path] g))
         = Gui.selected_paths g)
  /\ Gui.unblock_enabled (Gui.remove_item path g)
     = Gui.nonempty (Gui.selected_paths (Gui.remove_item path g)).
Proof.
  intros g.
  assert (Hnd : NoDup (Gui.selected_paths g)).
  { apply (selection_steps acts Gui.init). simpl.
    split; [constructor | reflexivity]. }
  assert (Hf : Gui.selected_paths (Gui.remove_item path g)
               = filter (fun x => negb (String.eqb x path))
                        (Gui.selected_paths g)).
  { rewrite remove_item_paths.
    destruct (Gui.mem path (Gui.selected_paths g)) eqn:Hm.
    - apply remove_first_filter. exact Hnd.
    - symmetry. apply filter_other_all. now apply mem_not_In. }
  split; [exact Hf |]. split; [| split].
  - rewrite Hf. intros Hin. apply filter_In in Hin. destruct Hin as [_ Hin].
    rewrite String.eqb_refl in Hin. discriminate.
  - intros Hn. split.
    + rewrite Hf. apply filter_other_all. exact Hn.
    + rewrite remove_item_paths, dropEvent_paths. simpl.
      unfold Gui.add_path.
      assert (Hm : Gui.mem path (Gui.selected_paths g) = false)
        by now apply mem_not_In.
      rewrite Hm. simpl.
      assert (Hm' : Gui.mem path (Gui.selected_paths g ++ [path]) = true).
      { apply mem_In. apply in_or_app. right. now left. }
      rewrite Hm'.
      rewrite remove_first_filter.
      * rewrite filter_app, filter_other_all by exact Hn. simpl.
        rewrite String.eqb_refl. simpl. apply app_nil_r.
      * apply nodup_app_new; [exact Hnd | repeat constructor; intros [] |].
        intros p [<- | []]. exact Hn.
  - rewrite remove_item_selection at 1. reflexivity.
Qed.

(** ** The buttons of a session *)

Lemma controls_step g a :
  Gui.pause_enabled g = Gui.cancel_enabled g
  /\ Gui.pause_text g = (if Gui.paused g then "Resume" else "Pause")
  /\ (Gui.pause_enabled g = true -> Gui.worker g <> None)
  /\ (Gui.paused g = true -> Gui.worker g <> None) ->
  Gui.pause_enabled (Gui.step g a) = Gui.cancel_enabled (Gui.step g a)
  /\ Gui.pause_text (Gui.step g a)
     = (if Gui.paused (Gui.step g a) then "Resume" else "Pause")
  /\ (Gui.pause_enabled (Gui.step g a) = true -> Gui.worker (Gui.step g a) <> None)
  /\ (Gui.paused (Gui.step g a) = true -> Gui.worker (Gui.step g a) <> None).
Proof.
  intros H.
  destruct a as [urls | files | folder | path | | running | running yes
                 | e | tray_visible running | running]; cbn [Gui.step].
  - rewrite dropEvent_selection. exact H.
  - rewrite select_files_drop, dropEvent_selection. exact H.
  - rewrite select_folders_selection. exact H.
  - rewrite remove_item_selection. exact H.
  - destruct (Gui.unblock_enabled g); [| exact H].
    unfold Gui.start_unblock.
    destruct (Gui.selected_paths g); [exact H |].
    destruct H as [_ [Ht _]].
    unfold Gui.setValue. simpl.
    split; [reflexivity |]. split; [exact Ht |]. split; discriminate.
  - destruct (Gui.pause_enabled g) eqn:Hp; [| rewrite Hp; exact H].
    unfold Gui.pause_resume.
    destruct (Gui.worker g) eqn:Hw; [| rewrite Hp, Hw; exact H].
    destruct running; [| rewrite Hp, Hw; exact H].
    destruct H as [He _].
    destruct (Gui.paused g); simpl; rewrite <- He, Hp;
      (split; [reflexivity |]); (split; [reflexivity |]); split; discriminate.
  - destruct (Gui.cancel_enabled g) eqn:Hc; [| rewrite Hc; exact H].
    unfold Gui.cancel.
    destruct (Gui.worker g) eqn:Hw; [| rewrite Hc, Hw; exact H].
    destruct running; [| rewrite Hc, Hw; exact H].
    destruct yes; [| rewrite Hc, Hw; exact H].
    destruct H as [_ [Ht _]]. simpl.
    split; [reflexivity |]. split; [exact Ht |]. split; discriminate.
  - destruct e as [line | line | v | | args | ms]; cbn [Gui.deliver]; try exact H.
    + unfold Gui.setValue.
      destruct ((0 <=? v)%Z && (v <=? 100)%Z); exact H.
    + simpl. split; [reflexivity |]. split; [reflexivity |].
      split; discriminate.
  - unfold Gui.closeEvent. destruct tray_visible; [exact H |].
    destruct (Gui.worker g) eqn:Hw; [| rewrite Hw; exact H].
    destruct running; [| rewrite Hw; exact H].
    destruct H as [He [Ht _]]. simpl.
    split; [exact He |]. split; [exact Ht |]. split; discriminate.
  - unfold Gui.exit_app.
    destruct (Gui.worker g) eqn:Hw; [| rewrite Hw; exact H].
    destruct running; [| rewrite Hw; exact H].
    destruct H as [He [Ht _]]. simpl.
    split; [exact He |]. split; [exact Ht |]. split; discriminate.
Qed.

Lemma controls_steps acts : forall g,
  Gui.pause_enabled g = Gui.cancel_enabled g
  /\ Gui.pause_text g = (if Gui.paused g then "Resume" else "Pause")
  /\ (Gui.pause_enabled g = true -> Gui.worker g <> None)
  /\ (Gui.paused g = true -> Gui.worker g <> None) ->
  let g' := Gui.steps acts g in
  Gui.pause_enabled g' = Gui.cancel_enabled g'
  /\ Gui.pause_text g' = (if Gui.paused g' then "Resume" else "Pause")
  /\ (Gui.pause_enabled g' = true -> Gui.worker g' <> None)
  /\ (Gui.paused g' = true -> Gui.worker g' <> None).
Proof.
  induction acts as [| a acts IH]; intros g H; simpl; [exact H |].
  apply IH. apply controls_step. exact H.
Qed.

(** X9: whatever happens to the window, the Pause and the Cancel button
    are enabled together and only once a worker was created, and the
    pause button reads Resume exactly when the window holds the worker for
    paused. *)
Theorem controls_invariant (acts : list Gui.action) :
  let g := Gui.session acts in
  Gui.pause_enabled g = Gui.cancel_enabled g
  /\ Gui.pause_text g = (if Gui.paused g then "Resume" else "Pause")
  /\ (Gui.pause_enabled g = true -> Gui.worker g <> None)
  /\ (Gui.paused g = true -> Gui.worker g <> None).
Proof.
  apply controls_steps. simpl.
  split; [reflexivity |]. split; [reflexivity |]. split; discriminate.
Qed.

Lemma start_unblock_started g :
  Gui.selected_paths g <> [] ->
  Gui.start_unblock g
  = Gui.set_worker (Some Flags.init)
      (Gui.set_cancel_enabled true
         (Gui.set_pause_enabled true
            (Gui.set_unblock_enabled false
               (Gui.set_output [] (Gui.set_progress 0%Z g))))).
Proof.
  intros Hs. unfold Gui.start_unblock.
  destruct (Gui.selected_paths g); [contradiction | reflexivity].
Qed.

(** X10: the Start button is disabled while a worker runs only until the
    Selection changes: after [start_unblock], a drop, a choice of files
    or of a folder enables it again while the Pause and the Cancel button
    still are, and a click on it then creates another worker. *)
Theorem start_enabled_during_run (g : Gui.t) (a : Gui.action) :
  Gui.selected_paths g <> [] ->
  (exists urls, a = Gui.DropUrls urls \/ a = Gui.SelectFiles urls)
  \/ (exists folder, a = Gui.SelectFolders folder) ->
  let g1 := Gui.step (Gui.start_unblock g) a in
  Gui.unblock_enabled (Gui.start_unblock g) = false
  /\ Gui.unblock_enabled g1 = true
  /\ Gui.pause_enabled g1 = true
  /\ Gui.cancel_enabled g1 = true
  /\ Gui.step g1 Gui.ClickStart = Gui.start_unblock g1
  /\ Gui.selected_paths g1 <> [].
Proof.
  intros Hs Ha g1.
  assert (Hg0 : Gui.selected_paths (Gui.start_unblock g) = Gui.selected_paths g).
  { rewrite start_unblock_started by exact Hs. reflexivity. }
  assert (Hne : Gui.selected_paths g1 <> []).
  { unfold g1. destruct Ha as [[urls [-> | ->]] | [folder ->]]; cbn [Gui.step].
    - rewrite dropEvent_paths.
      destruct (add_paths_spec urls (Gui.start_unblock g)) as [new [-> _]].
      rewrite Hg0. destruct (Gui.selected_paths g); [contradiction | discriminate].
    - rewrite select_files_drop, dropEvent_paths.
      destruct (add_paths_spec urls (Gui.start_unblock g)) as [new [-> _]].
      rewrite Hg0. destruct (Gui.selected_paths g); [contradiction | discriminate].
    - rewrite select_folders_paths, Hg0.
      destruct (negb (String.eqb folder EmptyString)
                && negb (Gui.mem folder (Gui.selected_paths g)));
        destruct (Gui.selected_paths g); try contradiction; discriminate. }
  assert (Hform : g1 = with_selection (Gui.selected_paths g1) (Gui.start_unblock g)).
  { unfold g1. destruct Ha as [[urls [-> | ->]] | [folder ->]]; cbn [Gui.step].
    - apply dropEvent_selection.
    - rewrite select_files_drop. apply dropEvent_selection.
    - apply select_folders_selection. }
  assert (Hen : Gui.unblock_enabled g1 = true).
  { rewrite Hform. unfold with_selection. simpl.
    destruct (Gui.selected_paths g1); [contradiction | reflexivity]. }
  split; [rewrite start_unblock_started by exact Hs; reflexivity |].
  split; [exact Hen |].
  split; [rewrite Hform, start_unblock_started by exact Hs; reflexivity |].
  split; [rewrite Hform, start_unblock_started by exact Hs; reflexivity |].
  split; [cbn [Gui.step]; rewrite Hen; reflexivity | exact Hne].
Qed.

Lemma start_enabled_during_run_witness :
  Gui.unblock_enabled
    (Gui.step (Gui.start_unblock (Gui.session [Gui.DropUrls ["C:\a.txt"]]))
       (Gui.DropUrls ["C:\dirX"])) = true
  /\ Gui.pause_enabled
       (Gui.step (Gui.start_unblock (Gui.session [Gui.DropUrls ["C:\a.txt"]]))
          (Gui.DropUrls ["C:\dirX"])) = true.
Proof.
  destruct (start_enabled_during_run (Gui.session [Gui.DropUrls ["C:\a.txt"]])
              (Gui.DropUrls ["C:\dirX"])) as [_ [Hu [Hp _]]].
  - vm_compute. discriminate.
  - left. exists ["C:\dirX"]. left. reflexivity.
  - split; [exact Hu | exact Hp].
Defined.

(** X11: [start_unblock] creates the worker with [_pause] cleared but
    leaves [self.paused] and the text of the pause button as they are:
    started from a window that still holds its last worker for paused,
    the window shows Resume for a worker that is not paused, and the
    first click on that button calls [resume], not [pause]. *)
Theorem start_keeps_paused (g : Gui.t) :
  Gui.selected_paths g <> [] -> Gui.paused g = true ->
  let g1 := Gui.start_unblock g in
  Gui.worker g1 = Some Flags.init
  /\ Gui.paused g1 = true
  /\ Gui.pause_text g1 = Gui.pause_text g
  /\ Gui.pause_enabled g1 = true
  /\ Gui.worker (Gui.step g1 (Gui.ClickPause true)) = Some Flags.init
  /\ Gui.paused (Gui.step g1 (Gui.ClickPause true)) = false.
Proof.
  intros Hs Hp g1. unfold g1. rewrite start_unblock_started by exact Hs.
  cbn [Gui.step]. unfold Gui.pause_resume. simpl. rewrite Hp. simpl.
  repeat split; reflexivity.
Qed.

Lemma start_keeps_paused_witness :
  let g := Gui.session [Gui.DropUrls ["C:\a.txt"]; Gui.ClickStart;
                        Gui.ClickPause true; Gui.ClickCancel true true] in
  Gui.paused g = true
  /\ Gui.unblock_enabled g = true
  /\ Gui.worker (Gui.step g Gui.ClickStart) = Some Flags.init
  /\ Gui.paused (Gui.step g Gui.ClickStart) = true.
Proof.
  intros g. split; [reflexivity |]. split; [reflexivity |].
  change (Gui.step g Gui.ClickStart) with (Gui.start_unblock g).
  destruct (start_keeps_paused g) as [Hw [Hp _]].
  - unfold g. vm_compute. discriminate.
  - reflexivity.
  - split; [exact Hw | exact Hp].
Defined.

(** The worker that was cancelled while paused, seen from the window. *)
Lemma stuck_step g a :
  a <> Gui.ClickStart ->
  Gui.worker g = Some (Flags.mk true true) /\ Gui.pause_enabled g = false ->
  Gui.worker (Gui.step g a) = Some (Flags.mk true true)
  /\ Gui.pause_enabled (Gui.step g a) = false.
Proof.
  intros Ha [Hw Hp].
  destruct a as [urls | files | folder | path | | running | running yes
                 | e | tray_visible running | running]; cbn [Gui.step].
  - rewrite dropEvent_selection. now split.
  - rewrite select_files_drop, dropEvent_selection. now split.
  - rewrite select_folders_selection. now split.
  - rewrite remove_item_selection. now split.
  - contradiction.
  - rewrite Hp. now split.
  - destruct (Gui.cancel_enabled g); [| now split].
    unfold Gui.cancel. rewrite Hw.
    destruct running; [| now split]. destruct yes; [| now split].
    simpl. now split.
  - destruct e as [line | line | v | | args | ms]; cbn [Gui.deliver]; try (now split).
    unfold Gui.setValue.
    destruct ((0 <=? v)%Z && (v <=? 100)%Z); now split.
  - unfold Gui.closeEvent. destruct tray_visible; [now split |].
    rewrite Hw. destruct running; [| now split]. simpl. now split.
  - unfold Gui.exit_app. rewrite Hw.
    destruct running; [| now split]. simpl. now split.
Qed.

(** X12: the window cannot resume a worker that it cancelled while the
    worker was paused: [cancel] disables the pause button, and until
    Start is clicked, which replaces the worker object, nothing that
    happens to the window clears [_pause] or enables the button again. *)
Theorem cancelled_while_paused_stays_paused (g : Gui.t) (w : Flags.t)
    (acts : list Gui.action) :
  Gui.worker g = Some w -> Flags._pause w = true ->
  ~ In Gui.ClickStart acts ->
  let g' := Gui.steps acts (Gui.cancel true true g) in
  Gui.worker g' = Some (Flags.mk true true)
  /\ Gui.pause_enabled g' = false.
Proof.
  intros Hw Hp Hacts.
  assert (H0 : Gui.worker (Gui.cancel true true g) = Some (Flags.mk true true)
               /\ Gui.pause_enabled (Gui.cancel true true g) = false).
  { unfold Gui.cancel. rewrite Hw. simpl. unfold Flags.cancel. rewrite Hp.
    now split. }
  generalize dependent (Gui.cancel true true g). clear g Hw.
  induction acts as [| a acts IH]; intros g0 H0; simpl; [exact H0 |].
  apply IH.
  - intros Hin. apply Hacts. now right.
  - apply stuck_step; [| exact H0]. intros ->. apply Hacts. now left.
Qed.

Lemma cancelled_while_paused_stays_paused_witness :
  let g := Gui.session [Gui.DropUrls ["C:\a.txt"]; Gui.ClickStart;
                        Gui.ClickPause true] in
  Gui.worker
    (Gui.steps [Gui.ClickPause true; Gui.Close false true;
                Gui.Signal (Progress 50); Gui.DropUrls ["C:\dirX"]]
       (Gui.cancel true true g))
  = Some (Flags.mk true true).
Proof.
  intros g.
  apply (cancelled_while_paused_stays_paused g (Flags.mk true false)).
  - reflexivity.
  - reflexivity.
  - intros [H | [H | [H | [H | []]]]]; discriminate.
Defined.

(** ** The signals of a run, delivered to the window *)

Lemma deliver_output tr : forall g,
  Gui.output (fold_left Gui.deliver tr g) = Gui.output g ++ lines tr.
Proof.
  induction tr as [| e tr IH]; intros g; simpl; [now rewrite app_nil_r |].
  destruct e as [line | line | v | | args | ms]; rewrite IH; cbn [Gui.deliver]; simpl;
    try reflexivity; try (rewrite <- app_assoc; reflexivity).
  unfold Gui.setValue.
  destruct ((0 <=? v)%Z && (v <=? 100)%Z); reflexivity.
Qed.

Lemma last_default {A} (l : list A) : forall a d d',
  last (a :: l) d = last (a :: l) d'.
Proof.
  induction l as [| b l IH]; intros a d d'; [reflexivity |].
  change (last (b :: l) d = last (b :: l) d'). apply IH.
Qed.

Lemma deliver_progress tr : forall g,
  Forall (fun p => (0 <= p <= 100)%Z) (progress_values tr) ->
  Gui.progress (fold_left Gui.deliver tr g)
  = last (progress_values tr) (Gui.progress g).
Proof.
  induction tr as [| e tr IH]; intros g H; [reflexivity |].
  destruct e as [line | line | v | | args | ms]; cbn [fold_left progress_values Gui.deliver] in *;
    try (rewrite IH by exact H; reflexivity).
  inversion H as [| ? ? Hp Hrest]; subst.
  rewrite IH by exact Hrest.
  unfold Gui.setValue.
  assert (Hb : (0 <=? v)%Z && (v <=? 100)%Z = true).
  { apply andb_true_iff. split; apply Z.leb_le; lia. }
  rewrite Hb.
  destruct (progress_values tr) as [| z l]; [reflexivity |].
  change (last (v :: z :: l) (Gui.progress g))
    with (last (z :: l) (Gui.progress g)).
  apply last_default.
Qed.

(** The events before the finished signal leave the buttons, the tray and
    the Selection alone. *)
Lemma deliver_frame tr : forall g,
  ~ In Finished tr ->
  let g' := fold_left Gui.deliver tr g in
  Gui.tray_messages g' = Gui.tray_messages g
  /\ Gui.selected_paths g' = Gui.selected_paths g
  /\ Gui.worker g' = Gui.worker g.
Proof.
  induction tr as [| e tr IH]; intros g Hn; simpl; [now repeat split |].
  assert (Hn' : ~ In Finished tr) by (intros H; apply Hn; now right).
  destruct (IH (Gui.deliver g e) Hn') as [H1 [H2 H3]].
  rewrite H1, H2, H3.
  destruct e as [line | line | v | | args | ms]; cbn [Gui.deliver]; simpl; try (now repeat split).
  - unfold Gui.setValue.
    destruct ((0 <=? v)%Z && (v <=? 100)%Z); now repeat split.
  - exfalso. apply Hn. now left.
Qed.

Lemma lines_app t1 t2 : lines (t1 ++ t2) = lines t1 ++ lines t2.
Proof.
  induction t1 as [| e t1 IH]; simpl; [reflexivity |].
  destruct e as [line | line | v | | args | ms]; simpl; rewrite IH; reflexivity.
Qed.

Lemma progress_values_app_status body line :
  progress_values (body ++ [Output line; Finished]) = progress_values body.
Proof. rewrite progress_values_app. simpl. apply app_nil_r. Qed.

Lemma exit_items_no_finished E files x : ~ In Finished (exit_items E files x).
Proof. destruct x; simpl; try tauto; apply finished_not_in_items. Qed.

(** X13: when the signals of a run that returned reach the window that
    started it, and no handler ran in between, the texts that the window
    appended to the log since it cleared it at the start are the status
    lines of the run, in order, the last one the line of the way out
    (how Qt renders a text is not part of the statement); the bar shows
    the last percentage emitted, the buttons are back as before a run, and
    the tray shows one message, [Finished successfully], also when the run
    was cancelled. *)
Theorem run_delivered (E : env) (fuel : nat) (g : Gui.t) (tr : trace) :
  Gui.selected_paths g <> [] ->
  run E fuel (Gui.selected_paths g) = Ok tt tr ->
  let g' := fold_left Gui.deliver tr (Gui.start_unblock g) in
  Gui.output g' = lines tr
  /\ (forall x, exit_when E (Gui.selected_paths g) x ->
                last (Gui.output g') EmptyString = exit_line x)
  /\ Gui.progress g' = last (progress_values tr) 0%Z
  /\ (0 <= Gui.progress g' <= 100)%Z
  /\ Gui.unblock_enabled g' = true
  /\ Gui.pause_enabled g' = false
  /\ Gui.cancel_enabled g' = false
  /\ Gui.paused g' = false
  /\ Gui.pause_text g' = "Pause"
  /\ Gui.tray_messages g'
     = Gui.tray_messages g
         ++ [("Unblock for Windows", "✅ Finished successfully")]
  /\ Gui.selected_paths g' = Gui.selected_paths g.
Proof.
  intros Hs Hrun g'.
  pose proof (run_cases E fuel (Gui.selected_paths g)) as Hc.
  rewrite Hrun in Hc. destruct Hc as [x [body [Hx [_ [Htr Hq]]]]].
  assert (Hnf : ~ In Finished (body ++ [Output (exit_line x)])).
  { intros Hin. apply in_app_or in Hin. destruct Hin as [Hin | [Hin | []]];
      [| discriminate].
    apply (exit_items_no_finished E (expansion (fs E) (Gui.selected_paths g)) x).
    rewrite <- Hq. apply in_quiet; [reflexivity | exact Hin]. }
  assert (Hrange : Forall (fun p => (0 <= p <= 100)%Z) (progress_values tr)).
  { destruct (progress_of_items E fuel (Gui.selected_paths g)) as [k [_ [Hpv Hr]]].
    rewrite Hrun in Hr. exact Hr. }
  assert (Hg' : g' = Gui.finish_unblock
                       (fold_left Gui.deliver (body ++ [Output (exit_line x)])
                          (Gui.start_unblock g))).
  { unfold g'. rewrite Htr.
    change (body ++ [Output (exit_line x); Finished])
      with (body ++ [Output (exit_line x)] ++ [Finished]).
    rewrite app_assoc, fold_left_app. reflexivity. }
  destruct (deliver_frame (body ++ [Output (exit_line x)])
              (Gui.start_unblock g) Hnf) as [Ht [Hsel _]].
  assert (Hout : Gui.output g' = lines tr).
  { unfold g'. rewrite deliver_output, start_unblock_started by exact Hs.
    reflexivity. }
  assert (Hprog : Gui.progress g' = last (progress_values tr) 0%Z).
  { unfold g'. rewrite deliver_progress by exact Hrange.
    rewrite start_unblock_started by exact Hs. reflexivity. }
  split; [exact Hout |]. split.
  { intros y Hy. rewrite (exit_when_unique E _ y x Hy Hx), Hout, Htr.
    rewrite lines_app. simpl. apply last_last. }
  split; [exact Hprog |]. split.
  { rewrite Hprog.
    destruct (progress_values tr) as [| p ps] eqn:Hpv; [simpl; lia |].
    assert (Hin : In (last (p :: ps) 0%Z) (p :: ps)).
    { destruct (exists_last (l := p :: ps) ltac:(discriminate)) as [l' [a Hl]].
      rewrite Hl, last_last. apply in_or_app. right. now left. }
    rewrite Forall_forall in Hrange. apply Hrange. exact Hin. }
  rewrite Hg'. unfold Gui.finish_unblock, Gui.showMessage. simpl.
  rewrite Ht, Hsel, start_unblock_started by exact Hs. simpl.
  repeat split; reflexivity.
Qed.

Lemma run_delivered_witness :
  last (Gui.output
          (fold_left Gui.deliver
             (trace_of (run (Scenario.cancel_from 2) 1
                          [Scenario.a_txt; Scenario.dirX]))
             (Gui.start_unblock
                (Gui.session [Gui.DropUrls [Scenario.a_txt; Scenario.dirX]]))))
       EmptyString
  = cancelled_msg
  /\ Gui.tray_messages
       (fold_left Gui.deliver
          (trace_of (run (Scenario.cancel_from 2) 1
                       [Scenario.a_txt; Scenario.dirX]))
          (Gui.start_unblock
             (Gui.session [Gui.DropUrls [Scenario.a_txt; Scenario.dirX]])))
     = [("Unblock for Windows", "✅ Finished successfully")].
Proof.
  destruct (run_delivered (Scenario.cancel_from 2) 1
              (Gui.session [Gui.DropUrls [Scenario.a_txt; Scenario.dirX]])
              (trace_of (run (Scenario.cancel_from 2) 1
                           [Scenario.a_txt; Scenario.dirX])))
    as [_ [Hlast [_ [_ [_ [_ [_ [_ [_ [Htray _]]]]]]]]]].
  - vm_compute. discriminate.
  - vm_compute. reflexivity.
  - split; [| exact Htray].
    apply (Hlast (CancelledAt 2)).
    split; [intros j _; reflexivity |]. split; [vm_compute; lia |].
    split; [| reflexivity].
    intros [| [| i]] Hi; [reflexivity | reflexivity | lia].
Defined.

(** ** The theme *)

(** X14: [is_dark_mode] returns [True] exactly when the registry value
    [AppsUseLightTheme] is read and is 0, and [False] when it is read and
    is anything else; when the key or the value cannot be read, the
    [except _] clause does not return [False]: reading the unbound local
    [_] raises [UnboundLocalError], which [apply_theme] lets through
    without setting a style sheet. *)
Theorem dark_mode_without_registry_value (W : Theme.winreg) :
  (forall dark,
     Theme.is_dark_mode W = Theme.Return dark <->
     exists registry v ty,
       Theme.OpenKey W Theme.personalize = Theme.Return registry
       /\ Theme.QueryValueEx W registry "AppsUseLightTheme"
          = Theme.Return (v, ty)
       /\ dark = Theme.eq_0 v)
  /\ ((exists e, Theme.OpenKey W Theme.personalize = Theme.Raise e)
      \/ (exists registry e,
            Theme.OpenKey W Theme.personalize = Theme.Return registry
            /\ Theme.QueryValueEx W registry "AppsUseLightTheme"
               = Theme.Raise e) ->
      Theme.is_dark_mode W = Theme.Raise (Theme.UnboundLocalError "_")
      /\ Theme.apply_theme W = Theme.Raise (Theme.UnboundLocalError "_"))
  /\ (forall sheet,
        Theme.apply_theme W = Theme.Return sheet ->
        exists dark, Theme.is_dark_mode W = Theme.Return dark
                     /\ sheet = (if dark then Theme.Dark else Theme.Light)).
Proof.
  unfold Theme.apply_theme, Theme.is_dark_mode, Theme.except_local.
  split; [| split].
  - intros dark. split.
    + destruct (Theme.OpenKey W Theme.personalize) as [registry | e];
        [| discriminate].
      destruct (Theme.QueryValueEx W registry "AppsUseLightTheme")
        as [[v ty] | e] eqn:Hq; [| discriminate].
      intros H. injection H as <-. exists registry, v, ty.
      split; [reflexivity |]. split; [exact Hq | reflexivity].
    + intros [registry [v [ty [Ho [Hq ->]]]]]. rewrite Ho, Hq. reflexivity.
  - intros [[e Ho] | [registry [e [Ho Hq]]]].
    + rewrite Ho. split; reflexivity.
    + rewrite Ho, Hq. split; reflexivity.
  - intros sheet.
    destruct (Theme.OpenKey W Theme.personalize) as [registry | e];
      [| discriminate].
    destruct (Theme.QueryValueEx W registry "AppsUseLightTheme")
      as [[v ty] | e]; [| discriminate].
    intros H. injection H as <-. exists (Theme.eq_0 v). split; reflexivity.
Qed.

Lemma dark_mode_without_registry_value_witness :
  Theme.apply_theme
    {| Theme.OpenKey := fun _ => Theme.Return 4%Z;
       Theme.QueryValueEx := fun _ _ =>
         Theme.Raise (Theme.OSError "[WinError 2]") |}
  = Theme.Raise (Theme.UnboundLocalError "_").
Proof.
  apply (proj1 (proj2 (dark_mode_without_registry_value
                         {| Theme.OpenKey := fun _ => Theme.Return 4%Z;
                            Theme.QueryValueEx := fun _ _ =>
                              Theme.Raise (Theme.OSError "[WinError 2]") |}))).
  right. exists 4%Z, (Theme.OSError "[WinError 2]"). split; reflexivity.
Defined.

(** ** A dropped URL that is no local file *)

(** X15: [dropEvent] does not test the path it gets: the empty path of a
    dropped URL that is no local file is added to the Selection and
    enables the Start button, whereas [select_folders] leaves the empty
    answer of a dismissed dialog out; a worker started on the empty path
    alone finds neither a file nor a directory and reports that there is
    no file to unblock. *)
Theorem dropped_url_without_file (g : Gui.t) (E : env) (fuel : nat) :
  ~ In EmptyString (Gui.selected_paths g) ->
  Gui.selected_paths (Gui.dropEvent [EmptyString] g)
  = Gui.selected_paths g ++ [EmptyString]
  /\ Gui.unblock_enabled (Gui.dropEvent [EmptyString] g) = true
  /\ Gui.selected_paths (Gui.select_folders EmptyString g)
     = Gui.selected_paths g
  /\ (isfile (fs E) EmptyString = false ->
      isdir (fs E) EmptyString = false ->
      cancel_at_path E 0 = false ->
      run E fuel [EmptyString] = Ok tt [Output no_files_msg; Finished]).
Proof.
  intros Hn.
  assert (Hs : Gui.selected_paths (Gui.dropEvent [EmptyString] g)
               = Gui.selected_paths g ++ [EmptyString]).
  { rewrite dropEvent_paths. simpl. unfold Gui.add_path.
    apply mem_not_In in Hn. rewrite Hn. reflexivity. }
  split; [exact Hs |]. split; [| split].
  - rewrite dropEvent_selection. unfold with_selection.
    change (Gui.nonempty (Gui.selected_paths (Gui.dropEvent [EmptyString] g))
            = true).
    rewrite Hs. destruct (Gui.selected_paths g); reflexivity.
  - rewrite select_folders_paths. reflexivity.
  - intros Hf Hd Hc.
    destruct (run_without_files E fuel [EmptyString]) as [[_ H] | [[j [Hj Hcj]] _]].
    + constructor; [| constructor]. split; [exact Hf |].
      intros Hd'. rewrite Hd in Hd'. discriminate.
    + exact H.
    + simpl in Hj. assert (j = 0) by lia. subst j. rewrite Hc in Hcj.
      discriminate.
Qed.

Lemma dropped_url_without_file_witness :
  Gui.selected_paths (Gui.dropEvent [EmptyString] Gui.init) = [EmptyString]
  /\ Gui.unblock_enabled (Gui.dropEvent [EmptyString] Gui.init) = true
  /\ run Scenario.calm 1 [EmptyString] = Ok tt [Output no_files_msg; Finished].
Proof.
  destruct (dropped_url_without_file Gui.init Scenario.calm 1)
    as [Hs [Hu [_ Hrun]]].
  - simpl. tauto.
  - split; [exact Hs |]. split; [exact Hu |].
    apply Hrun; reflexivity.
Defined.
